(** * kustomize-controller: the Kustomization generator and the secure build

    A shallow embedding of [controllers/kustomization_generator.go]:
    [WriteFile], [checkKustomizeImageExists], [generateKustomization],
    [adaptSelector] and [secureBuildKustomization], together with the pieces
    of the Go runtime and of the libraries they call that the properties
    depend on (the file tree, [filepath.Walk], [strings.Replace],
    [filepath.Ext], [defer]/[recover], [sync.Mutex]). *)

From Stdlib Require Import ZArith Lia Bool Ascii String.
From stdpp Require Import base list strings.

Open Scope string_scope.
Open Scope list_scope.

(** ** Errors *)

(** The value a panic carries ([interface{}] in Go), as [recover] returns
    it: runtime faults carry a [runtime.Error], explicit panics a string,
    an error, or nil.  [PanicNil] is [panic(nil)] for a Go runtime before
    1.21, where [recover] returns nil for it; from 1.21 on the runtime
    raises a [*runtime.PanicNilError] in its place, which is a
    [PanicRuntimeError] here. *)
Inductive PanicValue :=
| PanicNil
| PanicString (s : string)
| PanicRuntimeError (msg : string).


Inductive errno := ENOENT | EISDIR | ENOTDIR | ELOOP.

(** Go [error] values that reach the functions of the file. *)
Inductive error :=
| SkipDir                                        (* filepath.SkipDir *)
| PathError (op : string) (p : string) (e : errno) (* *fs.PathError of package os *)
| PathEscape (p : string) (root : string)        (* the secure file system refusing a path *)
| DecodeError (p : string) (cause : error)       (* fmt.Errorf("failed to decode Kubernetes YAML from %s: %w") *)
| BuildPanicError (r : PanicValue)               (* fmt.Errorf("recovered from kustomize build panic: %v") *)
| LibError (msg : string).                       (* an error of yaml, json or the kustomize engine *)



Definition is_SkipDir (e : error) : bool :=
  match e with SkipDir => true | _ => false end.

(** A Go result pair [(value, error)] of which exactly one side is used. *)
Inductive res (A : Type) :=
| Ok (a : A)
| Err (e : error).
Arguments Ok {A} a.
Arguments Err {A} e.

(** ** Data model *)

(** [kustomize.Selector] of fluxcd/pkg/apis/kustomize (the override spec's side). *)
Record Selector := {
  sel_Group : string;
  sel_Version : string;
  sel_Kind : string;
  sel_Namespace : string;
  sel_Name : string;
  sel_AnnotationSelector : string;
  sel_LabelSelector : string
}.

(** [kustypes.Selector]: a [Gvk] plus name, namespace and the two selectors. *)
Record Gvk := { Group : string; Version : string; Kind : string }.

Record KSelector := {
  ks_Gvk : Gvk;
  ks_Name : string;
  ks_Namespace : string;
  ks_AnnotationSelector : string;
  ks_LabelSelector : string
}.

(** [kustypes.Patch]; [Target] is a pointer, hence an option. *)
Record KPatch := { kp_Patch : string; kp_Target : option KSelector }.

(** [kustypes.Image]. *)
Record KImage := {
  ki_Name : string;
  ki_NewName : string;
  ki_NewTag : string;
  ki_Digest : string
}.

(** The fields of [kustypes.Kustomization] the generator reads or writes. *)
Record Kustomization := {
  APIVersion : string;
  K_Kind : string;
  Namespace : string;
  Resources : list string;
  Patches : list KPatch;
  PatchesStrategicMerge : list string;
  PatchesJson6902 : list KPatch;
  Images : list KImage
}.

Definition KustomizationVersion : string := "kustomize.config.k8s.io/v1beta1".
Definition KustomizationKind : string := "Kustomization".

(** The composite literal
    [kustypes.Kustomization{TypeMeta: {APIVersion: ..., Kind: ...}}]. *)
Definition emptyKustomization : Kustomization :=
  {| APIVersion := KustomizationVersion; K_Kind := KustomizationKind;
     Namespace := ""; Resources := []; Patches := [];
     PatchesStrategicMerge := []; PatchesJson6902 := []; Images := [] |}.

(** The override spec: the fields of [kustomizev1.KustomizationSpec] that
    [WriteFile] reads. *)
Record SpecPatch := { sp_Patch : string; sp_Target : Selector }.

Record JSON6902 := {
  j_Op : string; j_Path : string; j_From : string; j_Value : option string
}.

Record JSON6902Patch := { jp_Patch : list JSON6902; jp_Target : Selector }.

Record SpecImage := {
  si_Name : string; si_NewName : string; si_NewTag : string; si_Digest : string
}.

Record KustomizationSpec := {
  TargetNamespace : string;
  Spec_Patches : list SpecPatch;
  Spec_PatchesStrategicMerge : list string;      (* the Raw bytes of each JSON blob *)
  Spec_PatchesJSON6902 : list JSON6902Patch;
  Spec_Images : list SpecImage
}.

(** ** [adaptSelector]

    Every call site passes the address of a struct field, so the argument is
    never nil; the nil case is kept as [None]. *)
Definition adaptSelector (selector : option Selector) : option KSelector :=
  match selector with
  | Some s =>
      Some {| ks_Gvk := {| Group := sel_Group s; Version := sel_Version s;
                           Kind := sel_Kind s |};
              ks_Name := sel_Name s;
              ks_Namespace := sel_Namespace s;
              ks_AnnotationSelector := sel_AnnotationSelector s;
              ks_LabelSelector := sel_LabelSelector s |}
  | None => None
  end.

(** ** [checkKustomizeImageExists]

    Returns [(true, i)] for the first index whose name matches and
    [(false, -1)] when none does. *)
Fixpoint checkKustomizeImageExists_from (i : Z) (images : list KImage)
    (imageName : string) : bool * Z :=
  match images with
  | [] => (false, (-1)%Z)
  | image :: rest =>
      if String.eqb imageName (ki_Name image) then (true, i)
      else checkKustomizeImageExists_from (i + 1)%Z rest imageName
  end.

Definition checkKustomizeImageExists (images : list KImage) (imageName : string)
    : bool * Z :=
  checkKustomizeImageExists_from 0%Z images imageName.

(** The body of the loop over [Spec.Images] (lines 102-114), for one image. *)
Definition newImage (image : SpecImage) : KImage :=
  {| ki_Name := si_Name image; ki_NewName := si_NewName image;
     ki_NewTag := si_NewTag image; ki_Digest := si_Digest image |}.

Definition applyImage (images : list KImage) (image : SpecImage) : list KImage :=
  let '(exists_, index) := checkKustomizeImageExists images (si_Name image) in
  if exists_ then <[Z.to_nat index := newImage image]> images
  else images ++ [newImage image].

Definition applyImages (images : list KImage) (overrides : list SpecImage)
    : list KImage :=
  foldl applyImage images overrides.

(** ** Paths and the string functions applied to them *)

(** A cleaned absolute path, split at the separators: [["r"; "d"]] is
    ["/r/d"] and [[]] is ["/"].  The generator is called with absolute
    paths, on which [filepath.Abs] and [filepath.Clean] are the identity. *)
Definition path := list string.

Definition path_string (p : path) : string :=
  match p with
  | [] => "/"
  | _ => foldr (fun elem acc => "/" +:+ elem +:+ acc) "" p
  end.

(** [filepath.Join(p, elem)] for a single element without separator. *)
Definition Join (p : path) (elem : string) : path := p ++ [elem].

(** [ConfirmedDir.HasPrefix]: [p] is [root] or lies below it. *)
Fixpoint HasPrefix (p root : path) : bool :=
  match root, p with
  | [], _ => true
  | r :: root', c :: p' => String.eqb r c && HasPrefix p' root'
  | _ :: _, [] => false
  end.

Definition is_sep_or_dot (c : ascii) : bool :=
  Ascii.eqb c "/" || Ascii.eqb c ".".

Fixpoint has_sep_or_dot (s : string) : bool :=
  match s with
  | EmptyString => false
  | String c s' => is_sep_or_dot c || has_sep_or_dot s'
  end.

(** [filepath.Ext]: the suffix starting at the last dot of the last element,
    empty when that element has no dot.  Go scans backwards from the end and
    stops at the first dot or separator; read forwards, the character that
    decides is the last one that is a dot or a separator. *)
Fixpoint Ext (s : string) : string :=
  match s with
  | EmptyString => ""
  | String c s' =>
      if has_sep_or_dot s' then Ext s'
      else if Ascii.eqb c "." then s else ""
  end.

Fixpoint drop_string (n : nat) (s : string) : string :=
  match n, s with
  | O, _ => s
  | S n', String _ s' => drop_string n' s'
  | S _, EmptyString => ""
  end.

(** [strings.Replace(s, old, new, 1)]: the first occurrence of [old] in [s]
    is replaced by [new]; [s] is returned when there is none. *)
Fixpoint Replace1 (s old new : string) : string :=
  if String.prefix old s then new +:+ drop_string (String.length old) s
  else match s with
       | EmptyString => s
       | String c s' => String c (Replace1 s' old new)
       end.

(** [konfig.RecognizedKustomizationFileNames()] and
    [konfig.DefaultKustomizationFileName()]. *)
Definition RecognizedKustomizationFileNames : list string :=
  ["kustomization.yaml"; "kustomization.yml"; "Kustomization"].

Definition DefaultKustomizationFileName : string := "kustomization.yaml".

(** ** The file tree *)

(** A directory lists its entries in the order [readDirNames] returns them
    (sorted by name).  Symbolic links hold an absolute target. *)
#[warnings="-register-all"]
Inductive node :=
| File (data : string)
| Dir (entries : list (string * node))
| Symlink (target : path).

Definition isDir (n : node) : bool :=
  match n with Dir _ => true | _ => false end.

Fixpoint assoc (name : string) (entries : list (string * node)) : option node :=
  match entries with
  | [] => None
  | (k, v) :: rest => if String.eqb k name then Some v else assoc name rest
  end.

(** The node at [p], no link followed. *)
Fixpoint lookup_node (t : node) (p : path) : option node :=
  match p with
  | [] => Some t
  | c :: rest =>
      match t with
      | Dir entries =>
          match assoc c entries with
          | Some child => lookup_node child rest
          | None => None
          end
      | _ => None
      end
  end.

(** Puts [n] under [name], replacing an entry of that name or inserting at
    the sorted position. *)
Fixpoint set_entry (name : string) (n : node) (entries : list (string * node))
    : list (string * node) :=
  match entries with
  | [] => [(name, n)]
  | (k, v) :: rest =>
      if String.eqb k name then (name, n) :: rest
      else if String.ltb name k then (name, n) :: (k, v) :: rest
      else (k, v) :: set_entry name n rest
  end.

(** Replaces or creates the node at [p]; the parent must be a directory. *)
Fixpoint update_node (t : node) (p : path) (n : node) : option node :=
  match p with
  | [] => Some n
  | c :: rest =>
      match t with
      | Dir entries =>
          match rest with
          | [] => Some (Dir (set_entry c n entries))
          | _ :: _ =>
              match assoc c entries with
              | Some child =>
                  match update_node child rest n with
                  | Some child' => Some (Dir (set_entry c child' entries))
                  | None => None
                  end
              | None => None
              end
          end
      | _ => None
      end
  end.

(** Creates or truncates the file at [p]; the root directory is no file. *)
Definition put_file (t : node) (p : path) (data : string) : option node :=
  match p with
  | [] => None
  | _ :: _ => update_node t p (File data)
  end.

(** Symbolic-link resolution, as the kernel and [filepath.EvalSymlinks] do
    it: [done] is link-free, [todo] is still to be looked at.  A component
    that does not exist is kept as it is written.  The walk is bounded (Go
    and the kernel give up with ELOOP); every step uses one unit. *)
Fixpoint resolve (fuel : nat) (t : node) (done todo : path) : option path :=
  match fuel with
  | O => None
  | S fuel' =>
      match todo with
      | [] => Some done
      | c :: rest =>
          match lookup_node t (done ++ [c]) with
          | Some (Symlink target) => resolve fuel' t [] (target ++ rest)
          | _ => resolve fuel' t (done ++ [c]) rest
          end
      end
  end.

Definition maxResolve : nat := 255.

Definition EvalSymlinks (t : node) (p : path) : option path :=
  resolve maxResolve t [] p.

(** The place [lstat(p)] looks at: the parent resolved, the last element
    not. *)
Definition lstat_path (t : node) (p : path) : option path :=
  match last p with
  | None => Some []
  | Some name =>
      match EvalSymlinks t (removelast p) with
      | Some parent => Some (parent ++ [name])
      | None => None
      end
  end.

(** ** The world: file tree, record of the I/O done, the build mutex *)

Inductive io_op := OpStat | OpRead | OpCreate | OpWrite.

Inductive event :=
| Visit (p : path) (dir : bool)          (* filepath.Walk lstat-ed [p] and calls back *)
| IO (op : io_op) (arg phys : path)      (* a system call on [arg], reaching [phys] *)
| MutexLock
| MutexUnlock
| EngineRun (dirPath : path)
| Recovered.

Record World := {
  tree : node;
  log : list event;
  kustomizeBuildMutex : bool             (* true when locked *)
}.

Definition emit (e : event) (w : World) : World :=
  {| tree := tree w; log := log w ++ [e];
     kustomizeBuildMutex := kustomizeBuildMutex w |}.

Definition set_tree (t : node) (w : World) : World :=
  {| tree := t; log := log w; kustomizeBuildMutex := kustomizeBuildMutex w |}.

(** ** Package [os] *)

Definition os_ReadFile (name : path) (w : World) : res string * World :=
  match EvalSymlinks (tree w) name with
  | None => (Err (PathError "open" (path_string name) ELOOP), w)
  | Some phys =>
      let w1 := emit (IO OpRead name phys) w in
      match lookup_node (tree w) phys with
      | Some (File data) => (Ok data, w1)
      | Some (Dir _) => (Err (PathError "read" (path_string name) EISDIR), w1)
      | _ => (Err (PathError "open" (path_string name) ENOENT), w1)
      end
  end.

(** [O_WRONLY|O_CREATE|O_TRUNC] then write: shared by [os.WriteFile] and
    [os.Create]. *)
Definition os_write (op : io_op) (name : path) (data : string) (w : World)
    : option error * World :=
  match EvalSymlinks (tree w) name with
  | None => (Some (PathError "open" (path_string name) ELOOP), w)
  | Some phys =>
      let w1 := emit (IO op name phys) w in
      match lookup_node (tree w) phys with
      | Some (Dir _) => (Some (PathError "open" (path_string name) EISDIR), w1)
      | _ =>
          match put_file (tree w) phys data with
          | Some t' => (None, set_tree t' w1)
          | None => (Some (PathError "open" (path_string name) ENOENT), w1)
          end
      end
  end.

Definition os_WriteFile (name : path) (data : string) (w : World)
    : option error * World :=
  os_write OpWrite name data w.

(** ** The secure file system of fluxcd/pkg/kustomize/filesys *)

Record fsSecure := {
  fs_root : path;
  fs_remote : bool                      (* made by MakeFsOnDiskSecureBuild *)
}.

(** Modelled from the spec: the package [securefs] is not part of the
    sources.  Every path argument is resolved (symbolic links followed) and
    must lie within the root before the operation touches the disk; a path
    that escapes is refused with [PathEscape] and nothing is done.  The two
    predicates [Exists] and [IsDir] return a bool and answer [false] for a
    refused path. *)
Definition isSecurePath (fs : fsSecure) (t : node) (p : path) : res path :=
  match EvalSymlinks t p with
  | None => Err (PathError "lstat" (path_string p) ELOOP)
  | Some phys =>
      if HasPrefix phys (fs_root fs) then Ok phys
      else Err (PathEscape (path_string p) (path_string (fs_root fs)))
  end.

(** Modelled from the spec: construction of the handle of [securefs]; the
    root must be an existing directory and is kept resolved. *)
Definition MakeFs (remote : bool) (root : path) (w : World) : res fsSecure :=
  match EvalSymlinks (tree w) root with
  | None => Err (PathError "lstat" (path_string root) ELOOP)
  | Some phys =>
      match lookup_node (tree w) phys with
      | Some (Dir _) => Ok {| fs_root := phys; fs_remote := remote |}
      | Some _ => Err (PathError "confirm" (path_string root) ENOTDIR)
      | None => Err (PathError "lstat" (path_string root) ENOENT)
      end
  end.

Definition MakeFsOnDiskSecure : path -> World -> res fsSecure := MakeFs false.
Definition MakeFsOnDiskSecureBuild : path -> World -> res fsSecure := MakeFs true.

(** Modelled from the spec: [fsSecure.Exists] of [securefs]. *)
Definition fs_Exists (fs : fsSecure) (p : path) (w : World) : bool * World :=
  match isSecurePath fs (tree w) p with
  | Err _ => (false, w)
  | Ok phys =>
      (bool_decide (is_Some (lookup_node (tree w) phys)), emit (IO OpStat p phys) w)
  end.

(** Modelled from the spec: [fsSecure.IsDir] of [securefs]. *)
Definition fs_IsDir (fs : fsSecure) (p : path) (w : World) : bool * World :=
  match isSecurePath fs (tree w) p with
  | Err _ => (false, w)
  | Ok phys =>
      (match lookup_node (tree w) phys with Some n => isDir n | None => false end,
       emit (IO OpStat p phys) w)
  end.

(** Modelled from the spec: [fsSecure.ReadFile] of [securefs]. *)
Definition fs_ReadFile (fs : fsSecure) (p : path) (w : World) : res string * World :=
  match isSecurePath fs (tree w) p with
  | Err e => (Err e, w)
  | Ok _ => os_ReadFile p w
  end.

(** Modelled from the spec: [fsSecure.Create] of [securefs]; the file
    returned is only closed by the caller, so the handle is left out. *)
Definition fs_Create (fs : fsSecure) (p : path) (w : World) : option error * World :=
  match isSecurePath fs (tree w) p with
  | Err e => (Some e, w)
  | Ok _ => os_write OpCreate p "" w
  end.

(** ** The libraries the file calls *)

Definition ResMap := list string.

Inductive LoadRestrictionsKind := LoadRestrictionsRootOnly | LoadRestrictionsNone.
Inductive PluginRestrictions := PluginRestrictionsBuiltinsOnly | PluginRestrictionsNone.

(** [krusty.Options]; [PluginConfig] is reduced to its restriction. *)
Record Options := {
  DoLegacyResourceSort : bool;
  LoadRestrictions : LoadRestrictionsKind;
  PluginConfig : PluginRestrictions
}.

Definition DisabledPluginConfig : PluginRestrictions := PluginRestrictionsBuiltinsOnly.

(** What a call of [k.Run] does: it returns its pair of results or panics. *)
Inductive RunResult :=
| RunReturn (m : option ResMap) (err : option error)
| RunPanic (r : PanicValue).

(** The encoders, decoders and the merge engine are outside the sources;
    the development is parametric in them. *)
Class Libraries := {
  (* yaml.Unmarshal(data, &kus): kus comes in initialised *)
  yaml_Unmarshal : string -> Kustomization -> res Kustomization;
  (* yaml.Marshal(kus) *)
  yaml_Marshal : Kustomization -> res string;
  (* json.Marshal(m.Patch) *)
  json_Marshal : list JSON6902 -> res string;
  (* rf.SliceFromBytes(fContents): only the error is looked at *)
  SliceFromBytes : string -> option error;
  (* krusty.MakeKustomizer(buildOptions).Run(fs, dirPath) on the file tree *)
  krusty_Run : Options -> fsSecure -> path -> node -> RunResult
}.

(** ** [filepath.Walk] *)

Section Walk.
Context {A : Type}.

(** The callback: path, [info.IsDir()], the error handed in, and the
    variables it closes over as state. *)
Variable walkFn : path -> bool -> option error -> A -> World -> option error * A * World.

(** [filepath.walk].  In this model a directory can always be listed and
    a listed entry always be lstat-ed, so the branches of the Go function
    for those two failures do not appear. *)
Fixpoint walk (p : path) (n : node) (a : A) (w : World) {struct n}
    : option error * A * World :=
  match n with
  | Dir entries =>
      let '(err1, a1, w1) := walkFn p true None a (emit (Visit p true) w) in
      match err1 with
      | Some e => (Some e, a1, w1)
      | None =>
          (fix loop (names : list (string * node)) (a : A) (w : World)
               {struct names} : option error * A * World :=
             match names with
             | [] => (None, a, w)
             | (name, child) :: rest =>
                 let filename := Join p name in
                 let '(err, a', w') := walk filename child a w in
                 match err with
                 | Some e =>
                     if negb (isDir child) || negb (is_SkipDir e)
                     then (Some e, a', w')
                     else loop rest a' w'
                 | None => loop rest a' w'
                 end
             end) entries a1 w1
      end
  | _ => walkFn p false None a (emit (Visit p false) w)
  end.

(** [filepath.Walk]: lstat the root, walk it, swallow a final [SkipDir]. *)
Definition filepath_Walk (root : path) (a : A) (w : World)
    : option error * A * World :=
  let '(err, a', w') :=
    match lstat_path (tree w) root with
    | None => walkFn root false (Some (PathError "lstat" (path_string root) ELOOP)) a w
    | Some phys =>
        match lookup_node (tree w) phys with
        | None => walkFn root false (Some (PathError "lstat" (path_string root) ENOENT)) a w
        | Some n => walk root n a w
        end
    end in
  match err with
  | Some SkipDir => (None, a', w')
  | _ => (err, a', w')
  end.

(** Modelled from the spec: [fsSecure.Walk] of [securefs], the root of
    the walk checked before anything is looked at. *)
Definition fs_Walk (fs : fsSecure) (root : path) (a : A) (w : World)
    : option error * A * World :=
  match isSecurePath fs (tree w) root with
  | Err e => (Some e, a, w)
  | Ok _ => filepath_Walk root a w
  end.
End Walk.

(** ** [generateKustomization] *)

Record KustomizeGenerator := {
  root : path;
  kustomization : KustomizationSpec
}.

Definition NewGenerator (root : path) (kustomization : KustomizationSpec)
    : KustomizeGenerator :=
  {| root := root; kustomization := kustomization |}.

(** The loop over the recognized file names that the function has twice
    (lines 141-145 and 161-166): true as soon as [fs.Exists(kpath) &&
    !fs.IsDir(kpath)] holds for one of them; [IsDir] is only asked when
    [Exists] answered true. *)
Fixpoint hasKustomizationFile (fs : fsSecure) (dir : path) (names : list string)
    (w : World) : bool * World :=
  match names with
  | [] => (false, w)
  | kfilename :: rest =>
      let kpath := Join dir kfilename in
      let '(ex, w1) := fs_Exists fs kpath w in
      if ex then
        let '(d, w2) := fs_IsDir fs kpath w1 in
        if negb d then (true, w2) else hasKustomizationFile fs dir rest w2
      else hasKustomizationFile fs dir rest w1
  end.

Section Generator.
Context `{Libraries}.

(** The callback handed to [fs.Walk] in [scan]; [paths] is the slice the
    closure appends to. *)
Definition scanFn (fs : fsSecure) (base : path) (p : path) (info_IsDir : bool)
    (err : option error) (paths : list path) (w : World)
    : option error * list path * World :=
  match err with
  | Some e => (Some e, paths, w)
  | None =>
      if bool_decide (p = base) then (None, paths, w)
      else if info_IsDir then
        let '(found, w1) :=
          hasKustomizationFile fs p RecognizedKustomizationFileNames w in
        if found then (Some SkipDir, paths ++ [p], w1) else (None, paths, w1)
      else
        let extension := Ext (path_string p) in
        if negb (String.eqb extension ".yaml") && negb (String.eqb extension ".yml")
        then (None, paths, w)
        else
          match fs_ReadFile fs p w with
          | (Err e, w1) => (Some e, paths, w1)
          | (Ok fContents, w1) =>
              match SliceFromBytes fContents with
              | Some e => (Some (DecodeError (path_string p) e), paths, w1)
              | None => (None, paths ++ [p], w1)
              end
          end
  end.

(** The closure [scan]. *)
Definition scan (fs : fsSecure) (base : path) (w : World)
    : list path * option error * World :=
  let '(err, paths, w') := fs_Walk (scanFn fs base) fs base [] w in
  (paths, err, w').

(** Lines 215-218: the loop that turns the scanned paths into the
    resources of the descriptor. *)
Definition relativeResources (abs : path) (files : list path) : list string :=
  map (fun file => Replace1 (path_string file) (path_string abs) ".") files.

(** Lines 189-226: what the function does once it has found no
    kustomization file. *)
Definition generateFromScan (fs : fsSecure) (dirPath : path) (w : World)
    : option error * World :=
  let abs := dirPath in
  let '(files, err, w1) := scan fs abs w in
  match err with
  | Some e => (Some e, w1)
  | None =>
      let kfile := Join dirPath DefaultKustomizationFileName in
      match fs_Create fs kfile w1 with
      | (Some e, w2) => (Some e, w2)
      | (None, w2) =>
          let resources := relativeResources abs files in
          let kus :=
            {| APIVersion := KustomizationVersion; K_Kind := KustomizationKind;
               Namespace := ""; Resources := resources; Patches := [];
               PatchesStrategicMerge := []; PatchesJson6902 := [];
               Images := [] |} in
          match yaml_Marshal kus with
          | Err e => (Some e, w2)
          | Ok kd => os_WriteFile kfile kd w2
          end
      end
  end.

Definition generateKustomization (kg : KustomizeGenerator) (dirPath : path)
    (w : World) : option error * World :=
  match MakeFsOnDiskSecure (root kg) w with
  | Err e => (Some e, w)
  | Ok fs =>
      let '(found, w1) :=
        hasKustomizationFile fs dirPath RecognizedKustomizationFileNames w in
      if found then (None, w1) else generateFromScan fs dirPath w1
  end.

(** ** [WriteFile] *)

(** Lines 76-78. *)
Definition applyNamespace (spec : KustomizationSpec) (kus : Kustomization)
    : Kustomization :=
  if negb (String.eqb (TargetNamespace spec) "") then
    {| APIVersion := APIVersion kus; K_Kind := K_Kind kus;
       Namespace := TargetNamespace spec; Resources := Resources kus;
       Patches := Patches kus;
       PatchesStrategicMerge := PatchesStrategicMerge kus;
       PatchesJson6902 := PatchesJson6902 kus; Images := Images kus |}
  else kus.

(** Lines 80-85. *)
Definition applyPatches (spec : KustomizationSpec) (kus : Kustomization)
    : Kustomization :=
  {| APIVersion := APIVersion kus; K_Kind := K_Kind kus;
     Namespace := Namespace kus; Resources := Resources kus;
     Patches :=
       foldl (fun acc m =>
                acc ++ [{| kp_Patch := sp_Patch m;
                           kp_Target := adaptSelector (Some (sp_Target m)) |}])
             (Patches kus) (Spec_Patches spec);
     PatchesStrategicMerge := PatchesStrategicMerge kus;
     PatchesJson6902 := PatchesJson6902 kus; Images := Images kus |}.

(** Lines 87-89. *)
Definition applyStrategicMerge (spec : KustomizationSpec) (kus : Kustomization)
    : Kustomization :=
  {| APIVersion := APIVersion kus; K_Kind := K_Kind kus;
     Namespace := Namespace kus; Resources := Resources kus;
     Patches := Patches kus;
     PatchesStrategicMerge :=
       foldl (fun acc raw => acc ++ [raw])
             (PatchesStrategicMerge kus) (Spec_PatchesStrategicMerge spec);
     PatchesJson6902 := PatchesJson6902 kus; Images := Images kus |}.

(** Lines 91-100: the loop returns at the first patch that does not
    serialize. *)
Fixpoint appendJSON6902 (acc : list KPatch) (ms : list JSON6902Patch)
    : res (list KPatch) :=
  match ms with
  | [] => Ok acc
  | m :: rest =>
      match json_Marshal (jp_Patch m) with
      | Err e => Err e
      | Ok patch =>
          appendJSON6902
            (acc ++ [{| kp_Patch := patch;
                        kp_Target := adaptSelector (Some (jp_Target m)) |}])
            rest
      end
  end.

Definition applyJSON6902 (spec : KustomizationSpec) (kus : Kustomization)
    : res Kustomization :=
  match appendJSON6902 (PatchesJson6902 kus) (Spec_PatchesJSON6902 spec) with
  | Err e => Err e
  | Ok ps =>
      Ok {| APIVersion := APIVersion kus; K_Kind := K_Kind kus;
            Namespace := Namespace kus; Resources := Resources kus;
            Patches := Patches kus;
            PatchesStrategicMerge := PatchesStrategicMerge kus;
            PatchesJson6902 := ps; Images := Images kus |}
  end.

(** Lines 102-114. *)
Definition applyImageOverrides (spec : KustomizationSpec) (kus : Kustomization)
    : Kustomization :=
  {| APIVersion := APIVersion kus; K_Kind := K_Kind kus;
     Namespace := Namespace kus; Resources := Resources kus;
     Patches := Patches kus;
     PatchesStrategicMerge := PatchesStrategicMerge kus;
     PatchesJson6902 := PatchesJson6902 kus;
     Images := applyImages (Images kus) (Spec_Images spec) |}.

(** Lines 76-114 in the order of the source. *)
Definition applyOverrides (spec : KustomizationSpec) (kus : Kustomization)
    : res Kustomization :=
  let kus1 := applyNamespace spec kus in
  let kus2 := applyPatches spec kus1 in
  let kus3 := applyStrategicMerge spec kus2 in
  match applyJSON6902 spec kus3 with
  | Err e => Err e
  | Ok kus4 => Ok (applyImageOverrides spec kus4)
  end.

(** Lines 58-121: what [WriteFile] does after [generateKustomization]
    returned nil. *)
Definition writeOverrides (kg : KustomizeGenerator) (dirPath : path) (w : World)
    : option error * World :=
  let kfile := Join dirPath DefaultKustomizationFileName in
  match os_ReadFile kfile w with
  | (Err e, w1) => (Some e, w1)
  | (Ok data, w1) =>
      match yaml_Unmarshal data emptyKustomization with
      | Err e => (Some e, w1)
      | Ok kus =>
          match applyOverrides (kustomization kg) kus with
          | Err e => (Some e, w1)
          | Ok kus' =>
              match yaml_Marshal kus' with
              | Err e => (Some e, w1)
              | Ok kd => os_WriteFile kfile kd w1
              end
          end
      end
  end.

Definition WriteFile (kg : KustomizeGenerator) (dirPath : path) (w : World)
    : option error * World :=
  match generateKustomization kg dirPath w with
  | (Some e, w1) => (Some e, w1)
  | (None, w1) => writeOverrides kg dirPath w1
  end.
End Generator.

(** ** [sync.Mutex], [defer] and [recover] *)

(** [Lock] on a locked mutex does not return; with one goroutine running,
    that is the end of the run ([None]). *)
Definition Mutex_Lock (w : World) : option World :=
  if kustomizeBuildMutex w then None
  else Some {| tree := tree w; log := log w ++ [MutexLock];
               kustomizeBuildMutex := true |}.

(** [Unlock] of an unlocked mutex is a fatal error of the runtime ([None]). *)
Definition Mutex_Unlock (w : World) : option World :=
  if kustomizeBuildMutex w then
    Some {| tree := tree w; log := log w ++ [MutexUnlock];
            kustomizeBuildMutex := false |}
  else None.

(** The frame of a running call of [secureBuildKustomization]: its two
    named results and the panic in progress, if any. *)
Record Frame := {
  ret_resmap : option ResMap;
  ret_err : option error;
  panicking : option PanicValue
}.

(** A deferred call works on the frame and the world; [None] is a fatal
    error. *)
Definition deferred := Frame -> World -> option (Frame * World).

(** [defer kustomizeBuildMutex.Unlock()]. *)
Definition deferred_Unlock : deferred :=
  fun fr w =>
    match Mutex_Unlock w with
    | Some w' => Some (fr, w')
    | None => None
    end.

(** [defer func() { if r := recover(); r != nil { err = fmt.Errorf(...) } }()]:
    [recover] returns the value of the panic in progress and ends it, and
    returns nil when there is none.  The closure sets [err] only when the
    value is not nil, so a panic whose value is nil is ended and [err] is
    left as it is. *)
Definition deferred_recover : deferred :=
  fun fr w =>
    match panicking fr with
    | Some r =>
        Some ({| ret_resmap := ret_resmap fr;
                 ret_err := match r with
                            | PanicNil => ret_err fr
                            | _ => Some (BuildPanicError r)
                            end;
                 panicking := None |},
              emit Recovered w)
    | None => Some (fr, w)
    end.

(** The deferred calls run last-in first-out when the function returns or
    panics; the list is in the order they run. *)
Fixpoint run_deferred (ds : list deferred) (fr : Frame) (w : World)
    : option (Frame * World) :=
  match ds with
  | [] => Some (fr, w)
  | d :: rest =>
      match d fr w with
      | Some (fr', w') => run_deferred rest fr' w'
      | None => None
      end
  end.

(** How a call ends, seen from the caller. *)
Inductive outcome :=
| Returned (m : option ResMap) (err : option error)
| Panicked (r : PanicValue)
| Blocked
| Fatal.

Definition leave (x : option (Frame * World)) (w0 : World) : outcome * World :=
  match x with
  | None => (Fatal, w0)
  | Some (fr, w) =>
      match panicking fr with
      | Some r => (Panicked r, w)
      | None => (Returned (ret_resmap fr) (ret_err fr), w)
      end
  end.

(** ** [secureBuildKustomization] *)

Section Builder.
Context `{Libraries}.

Definition secureBuildKustomization (root dirPath : path)
    (allowRemoteBases doLegacyResourceSort : bool) (w : World)
    : outcome * World :=
  match (if allowRemoteBases then MakeFsOnDiskSecureBuild root w
         else MakeFsOnDiskSecure root w) with
  | Err e => (Returned None (Some e), w)
  | Ok fs =>
      match Mutex_Lock w with
      | None => (Blocked, w)
      | Some w1 =>
          (* deferred so far: Unlock, then the recovering closure *)
          let ds := [deferred_recover; deferred_Unlock] in
          let buildOptions :=
            {| DoLegacyResourceSort := doLegacyResourceSort;
               LoadRestrictions := LoadRestrictionsNone;
               PluginConfig := DisabledPluginConfig |} in
          let w2 := emit (EngineRun dirPath) w1 in
          let fr :=
            match krusty_Run buildOptions fs dirPath (tree w2) with
            | RunReturn m err =>
                {| ret_resmap := m; ret_err := err; panicking := None |}
            | RunPanic r =>
                {| ret_resmap := None; ret_err := None; panicking := Some r |}
            end in
          leave (run_deferred ds fr w2) w2
      end
  end.
End Builder.

(** ** Test data

    Stand-ins for the libraries, to run the functions on concrete trees: a
    descriptor is written as a line [namespace: NS] followed by one line
    [- PATH] per resource; a resource file decodes when it starts with
    [apiVersion:]; a patch serializes unless one of its values is the
    unterminated object [{]; the engine returns the resources of the
    descriptor of the directory and panics on a descriptor it cannot
    decode. *)

Definition newline : string := String (ascii_of_nat 10) EmptyString.

Fixpoint lines (s : string) : list string :=
  match s with
  | EmptyString => [EmptyString]
  | String c s' =>
      if Ascii.eqb c (ascii_of_nat 10) then EmptyString :: lines s'
      else match lines s' with
           | l :: ls => String c l :: ls
           | [] => [String c EmptyString]
           end
  end.

Definition testdata_Marshal (kus : Kustomization) : res string :=
  Ok (foldl (fun acc r => acc +:+ "- " +:+ r +:+ newline)
            ("namespace: " +:+ Namespace kus +:+ newline) (Resources kus)).

Fixpoint testdata_decode (ls : list string) (kus : Kustomization) : res Kustomization :=
  match ls with
  | [] => Ok kus
  | l :: rest =>
      if String.eqb l "" then testdata_decode rest kus
      else if String.prefix "namespace: " l then
        testdata_decode rest
          {| APIVersion := APIVersion kus; K_Kind := K_Kind kus;
             Namespace := drop_string 11 l; Resources := Resources kus;
             Patches := Patches kus;
             PatchesStrategicMerge := PatchesStrategicMerge kus;
             PatchesJson6902 := PatchesJson6902 kus; Images := Images kus |}
      else if String.prefix "- " l then
        testdata_decode rest
          {| APIVersion := APIVersion kus; K_Kind := K_Kind kus;
             Namespace := Namespace kus;
             Resources := Resources kus ++ [drop_string 2 l];
             Patches := Patches kus;
             PatchesStrategicMerge := PatchesStrategicMerge kus;
             PatchesJson6902 := PatchesJson6902 kus; Images := Images kus |}
      else Err (LibError "yaml: unmarshal errors")
  end.

Definition testdata_Unmarshal (data : string) (kus : Kustomization) : res Kustomization :=
  testdata_decode (lines data) kus.

Definition testdata_json (ops : list JSON6902) : res string :=
  if existsb (fun o => match j_Value o with
                       | Some v => String.eqb v "{"
                       | None => false
                       end) ops
  then Err (LibError "json: error calling MarshalJSON for type *v1.JSON")
  else Ok (String.concat "," (map (fun o => j_Op o +:+ " " +:+ j_Path o) ops)).

Definition testdata_SliceFromBytes (data : string) : option error :=
  if String.prefix "apiVersion:" data then None
  else Some (LibError "missing Resource metadata").

Definition testdata_Run (o : Options) (fs : fsSecure) (dirPath : path) (t : node)
    : RunResult :=
  match EvalSymlinks t (Join dirPath DefaultKustomizationFileName) with
  | Some phys =>
      match lookup_node t phys with
      | Some (File data) =>
          match testdata_Unmarshal data emptyKustomization with
          | Ok kus => RunReturn (Some (Resources kus)) None
          | Err _ =>
              RunPanic (PanicRuntimeError
                          "invalid memory address or nil pointer dereference")
          end
      | _ => RunReturn None (Some (LibError "unable to find a kustomization file"))
      end
  | None => RunReturn None (Some (LibError "unable to find a kustomization file"))
  end.

Definition testdata : Libraries :=
  {| yaml_Unmarshal := testdata_Unmarshal;
     yaml_Marshal := testdata_Marshal;
     json_Marshal := testdata_json;
     SliceFromBytes := testdata_SliceFromBytes;
     krusty_Run := testdata_Run |}.


Definition world_of (t : node) : World :=
  {| tree := t; log := []; kustomizeBuildMutex := false |}.

(** A source tree [/r/d] with a nested kustomization, a file that is not
    YAML, and a directory that carries the name of a kustomization file. *)
Definition tree_app : node :=
  Dir [("r", Dir [("d", Dir [
    ("a.yaml", File "apiVersion: v1");
    ("nested", Dir [("bad.yaml", File "oops");
                    ("kustomization.yaml", File "- x.yaml")]);
    ("notes.txt", File "hello");
    ("sub", Dir [("b.yml", File "apiVersion: v1");
                 ("kustomization.yaml", Dir [])])])])].

(** A source tree with a file that does not decode. *)
Definition tree_bad : node :=
  Dir [("r", Dir [("d", Dir [
    ("a.yaml", File "apiVersion: v1");
    ("bad.yml", File "oops");
    ("z.yaml", File "apiVersion: v1")])])].

(** A source tree with a file that does not decode in a sub-directory. *)
Definition tree_bad_below : node :=
  Dir [("r", Dir [("d", Dir [
    ("a.yaml", File "apiVersion: v1");
    ("sub", Dir [("bad.yaml", File "oops")])])])].

(** A source tree whose only kustomization file is [kustomization.yml]. *)
Definition tree_yml : node :=
  Dir [("r", Dir [("d", Dir [
    ("deploy.yaml", File "apiVersion: apps/v1");
    ("kustomization.yml", File "- deploy.yaml")])])].

(** As [tree_yml], with [kustomization.yaml] a link that leaves the root
    [/r]. *)
Definition tree_linked : node :=
  Dir [("o", Dir [("secret.yaml", File "namespace: kube-system")]);
       ("r", Dir [("d", Dir [
         ("kustomization.yaml", Symlink ["o"; "secret.yaml"]);
         ("kustomization.yml", File "namespace: default")])])].

(** The root directory as source tree. *)
Definition tree_slash : node :=
  Dir [("a.yaml", File "apiVersion: v1");
       ("sub", Dir [("b.yml", File "apiVersion: v1")])].

Definition spec_prod : KustomizationSpec :=
  {| TargetNamespace := "prod"; Spec_Patches := [];
     Spec_PatchesStrategicMerge := []; Spec_PatchesJSON6902 := [];
     Spec_Images := [] |}.

(** A source tree whose kustomization file the engine cannot decode. *)
Definition tree_panic : node :=
  Dir [("r", Dir [("d", Dir [("kustomization.yaml", File "oops")])])].

(** A source tree with a kustomization file and nothing else. *)
Definition tree_plain : node :=
  Dir [("r", Dir [("d", Dir [("kustomization.yaml", File "namespace: default")])])].

Definition fs_r : fsSecure := {| fs_root := ["r"]; fs_remote := false |}.

Definition no_selector : Selector :=
  {| sel_Group := ""; sel_Version := ""; sel_Kind := ""; sel_Namespace := "";
     sel_Name := ""; sel_AnnotationSelector := ""; sel_LabelSelector := "" |}.

(** A spec with a structured patch whose value is not valid JSON. *)
Definition spec_bad_patch : KustomizationSpec :=
  {| TargetNamespace := ""; Spec_Patches := [];
     Spec_PatchesStrategicMerge := [];
     Spec_PatchesJSON6902 :=
       [{| jp_Patch := [{| j_Op := "add"; j_Path := "/spec"; j_From := "";
                           j_Value := Some "{" |}];
           jp_Target := no_selector |}];
     Spec_Images := [] |}.

Definition image_nginx (tag : string) : SpecImage :=
  {| si_Name := "nginx"; si_NewName := ""; si_NewTag := tag; si_Digest := "" |}.

Definition image_redis (tag : string) : SpecImage :=
  {| si_Name := "redis"; si_NewName := ""; si_NewTag := tag; si_Digest := "" |}.

(** A spec with one override of every kind, two of them for the same
    image. *)
Definition spec_all : KustomizationSpec :=
  {| TargetNamespace := "prod";
     Spec_Patches := [{| sp_Patch := "kind: Deployment"; sp_Target := no_selector |}];
     Spec_PatchesStrategicMerge := ["kind: Service"];
     Spec_PatchesJSON6902 :=
       [{| jp_Patch := [{| j_Op := "remove"; j_Path := "/spec"; j_From := "";
                           j_Value := None |}];
           jp_Target := no_selector |}];
     Spec_Images := [image_nginx "1.5"; image_redis "7"; image_nginx "2.0"] |}.

(** The zero value of the spec: nothing to override. *)
Definition spec_none : KustomizationSpec :=
  {| TargetNamespace := ""; Spec_Patches := [];
     Spec_PatchesStrategicMerge := []; Spec_PatchesJSON6902 := [];
     Spec_Images := [] |}.

(** A source tree without a kustomization file. *)
Definition tree_fresh : node :=
  Dir [("r", Dir [("d", Dir [("a.yaml", File "apiVersion: v1")])])].

(** A source tree in which [kustomization.yaml] is a directory. *)
Definition tree_dirname : node :=
  Dir [("r", Dir [("d", Dir [
    ("a.yaml", File "apiVersion: v1");
    ("kustomization.yaml", Dir [])])])].

(** ** Vocabulary of the properties *)

(** The first entry of the list that carries the name [n], with its
    position. *)
Definition find_name (n : string) (images : list KImage)
    : option (nat * KImage) :=
  list_find (λ x, ki_Name x = n) images.

(** The entry a patch of the spec becomes in the descriptor. *)
Definition inlinePatch (m : SpecPatch) : KPatch :=
  {| kp_Patch := sp_Patch m; kp_Target := adaptSelector (Some (sp_Target m)) |}.

(** [p] is the entry of the structured patch [m]: its operations
    serialized, its selector adapted. *)
Definition encodes `{Libraries} (m : JSON6902Patch) (p : KPatch) : Prop :=
  json_Marshal (jp_Patch m) = Ok (kp_Patch p)
  ∧ kp_Target p = adaptSelector (Some (jp_Target m)).

(** The options [secureBuildKustomization] builds, and its choice of file
    system. *)
Definition buildOptions (doLegacyResourceSort : bool) : Options :=
  {| DoLegacyResourceSort := doLegacyResourceSort;
     LoadRestrictions := LoadRestrictionsNone;
     PluginConfig := DisabledPluginConfig |}.

Definition makeFs (allowRemoteBases : bool) (root : path) (w : World)
    : res fsSecure :=
  if allowRemoteBases then MakeFsOnDiskSecureBuild root w
  else MakeFsOnDiskSecure root w.

(** [w'] is [w] with the events [evs] added to the log. *)
Definition extends (w w' : World) (evs : list event) : Prop :=
  tree w' = tree w
  ∧ kustomizeBuildMutex w' = kustomizeBuildMutex w
  ∧ log w' = log w ++ evs.

(** The paths [filepath.Walk] called back on, the reads and the writes of
    a piece of log. *)
Definition visits (evs : list event) : list (path * bool) :=
  omap (λ e, match e with Visit p b => Some (p, b) | _ => None end) evs.

Definition reads (evs : list event) : list (path * path) :=
  omap (λ e, match e with IO OpRead arg phys => Some (arg, phys) | _ => None end) evs.

Definition writes (evs : list event) : list (path * path) :=
  omap (λ e, match e with
             | IO OpCreate arg phys | IO OpWrite arg phys => Some (arg, phys)
             | _ => None
             end) evs.

(** What [fs.Exists] and [fs.IsDir] answer, as functions of the tree. *)
Definition exists_in (fs : fsSecure) (t : node) (p : path) : bool :=
  match isSecurePath fs t p with
  | Ok phys => bool_decide (is_Some (lookup_node t phys))
  | Err _ => false
  end.

Definition isdir_in (fs : fsSecure) (t : node) (p : path) : bool :=
  match isSecurePath fs t p with
  | Ok phys => match lookup_node t phys with Some n => isDir n | None => false end
  | Err _ => false
  end.

(** The condition of both loops over the recognized names. *)
Definition is_descriptor (fs : fsSecure) (t : node) (kpath : path) : bool :=
  exists_in fs t kpath && negb (isdir_in fs t kpath).

Definition has_descriptor (fs : fsSecure) (t : node) (dir : path) : bool :=
  existsb (λ kfilename, is_descriptor fs t (Join dir kfilename))
          RecognizedKustomizationFileNames.

(** Events that only look: no visit, no read, no write. *)
Definition quiet (evs : list event) : Prop :=
  visits evs = [] ∧ reads evs = [] ∧ writes evs = [].

(** The extension test of the callback (line 171), negated. *)
Definition yaml_ext (p : path) : bool :=
  String.eqb (Ext (path_string p)) ".yaml" || String.eqb (Ext (path_string p)) ".yml".

(** What one call of the callback of [scan] did: where it was called, what
    it returned, the paths it appended and the files it read. *)
Record call := Call {
  c_path : path;
  c_dir : bool;
  c_err : option error;
  c_added : list path;
  c_reads : list (path * path)
}.

(** The cases of the callback, read off the source. *)
Definition call_ok `{Libraries} (fs : fsSecure) (base : path) (t : node)
    (c : call) : Prop :=
  let p := c_path c in
  if bool_decide (p = base) then c_err c = None ∧ c_added c = [] ∧ c_reads c = []
  else if c_dir c then
    c_reads c = []
    ∧ if has_descriptor fs t p then c_err c = Some SkipDir ∧ c_added c = [p]
      else c_err c = None ∧ c_added c = []
  else if negb (yaml_ext p) then c_err c = None ∧ c_added c = [] ∧ c_reads c = []
  else
    match isSecurePath fs t p with
    | Err e => c_err c = Some e ∧ c_added c = [] ∧ c_reads c = []
    | Ok phys =>
        c_reads c = [(p, phys)]
        ∧ match lookup_node t phys with
          | Some (File data) =>
              match SliceFromBytes data with
              | Some e => c_err c = Some (DecodeError (path_string p) e) ∧ c_added c = []
              | None => c_err c = None ∧ c_added c = [p]
              end
          | _ => (∃ op en, c_err c = Some (PathError op (path_string p) en))
                 ∧ c_added c = []
          end
    end.

(** [walk] with its inner loop written as a function of its own. *)
Fixpoint walk_entries {A : Type}
    (walkFn : path → bool → option error → A → World → option error * A * World)
    (p : path) (names : list (string * node)) (a : A) (w : World)
    : option error * A * World :=
  match names with
  | [] => (None, a, w)
  | (name, child) :: rest =>
      let '(err, a', w') := walk walkFn (Join p name) child a w in
      match err with
      | Some e =>
          if negb (isDir child) || negb (is_SkipDir e) then (Some e, a', w')
          else walk_entries walkFn p rest a' w'
      | None => walk_entries walkFn p rest a' w'
      end
  end.

(** No directory lists a name twice. *)
Fixpoint names_distinct (n : node) : bool :=
  match n with
  | Dir entries =>
      bool_decide (NoDup entries.*1)
      && (fix all (l : list (string * node)) : bool :=
            match l with
            | [] => true
            | (_, child) :: l' => names_distinct child && all l'
            end) entries
  | _ => true
  end.

(** What the log and the slice of paths owe to a list of calls. *)
Definition accounted `{Libraries} (fs : fsSecure) (base : path) (w w' : World)
    (paths paths' : list path) (calls : list call) : Prop :=
  ∃ evs,
    extends w w' evs
    ∧ writes evs = []
    ∧ visits evs = map (λ c, (c_path c, c_dir c)) calls
    ∧ reads evs = concat (map c_reads calls)
    ∧ paths' = paths ++ concat (map c_added calls)
    ∧ Forall (call_ok fs base (tree w)) calls.

(** [q] lies strictly below [p]; [q] lies in or below the entry [name] of
    [p]. *)
Definition below (p q : path) : Prop := ∃ name rest, q = p ++ name :: rest.

Definition under (p : path) (name : string) (q : path) : Prop :=
  ∃ rest, q = p ++ name :: rest.

(** The shape of the calls of a walk. *)
Definition errs_ok (err : option error) (calls : list call) : Prop :=
  Forall (λ c, c_err c = None ∨ c_err c = Some SkipDir ∨ c_err c = err) calls.

Definition no_descent (calls : list call) : Prop :=
  ∀ c1 c2, c1 ∈ calls → c2 ∈ calls →
    below (c_path c1) (c_path c2) → c_err c1 = None.

Definition complete (p : path) (n : node) (calls : list call) : Prop :=
  ∀ rel es name child c,
    lookup_node n rel = Some (Dir es) → (name, child) ∈ es →
    c ∈ calls → c_path c = p ++ rel → c_err c = None →
    ∃ c', c' ∈ calls ∧ c_path c' = p ++ rel ++ [name] ∧ c_dir c' = isDir child.

(** Every call was on a node of the tree walked, at the path of that node. *)
Definition located (p : path) (n : node) (calls : list call) : Prop :=
  ∀ c, c ∈ calls →
    ∃ rel n', c_path c = p ++ rel ∧ lookup_node n rel = Some n'
              ∧ c_dir c = isDir n'.

(** What holds of the calls of a walk on any tree. *)
Definition walked (p : path) (n : node) (err : option error) (calls : list call)
    : Prop :=
  (∃ c0 rest, calls = c0 :: rest ∧ c_path c0 = p ∧ c_dir c0 = isDir n)
  ∧ Forall (λ c, c_path c = p ∨ below p (c_path c)) calls
  ∧ errs_ok err calls
  ∧ (err = Some SkipDir → ∃ c0, calls = [c0] ∧ c_err c0 = Some SkipDir).

(** What holds in addition when no directory lists a name twice. *)
Definition walked_once (p : path) (n : node) (err : option error)
    (calls : list call) : Prop :=
  NoDup (map c_path calls)
  ∧ no_descent calls
  ∧ ((err = None ∨ err = Some SkipDir) → complete p n calls)
  ∧ located p n calls.

Definition walked_entries (p : path) (entries : list (string * node))
    (err : option error) (calls : list call) : Prop :=
  Forall (λ c, ∃ name, name ∈ entries.*1 ∧ under p name (c_path c)) calls
  ∧ errs_ok err calls
  ∧ err ≠ Some SkipDir.

Definition walked_entries_once (p : path) (entries : list (string * node))
    (err : option error) (calls : list call) : Prop :=
  NoDup (map c_path calls)
  ∧ no_descent calls
  ∧ (err = None → ∀ nm ch, assoc nm entries = Some ch →
       (∃ c', c' ∈ calls ∧ c_path c' = p ++ [nm] ∧ c_dir c' = isDir ch)
       ∧ complete (p ++ [nm]) ch calls)
  ∧ located p (Dir entries) calls.

(** What the walk of one node gives, as the induction on the tree states
    it. *)
Definition walk_spec `{Libraries} (fs : fsSecure) (base : path) (n : node)
    : Prop :=
  ∀ p paths w err paths' w',
    walk (scanFn fs base) p n paths w = (err, paths', w') →
    ∃ calls, accounted fs base w w' paths paths' calls
             ∧ walked p n err calls
             ∧ (names_distinct n = true → walked_once p n err calls).

(** [kpath] leads, inside the root, to something that is not a directory. *)
Definition descriptor_file (fs : fsSecure) (t : node) (kpath : path) : Prop :=
  ∃ phys n,
    isSecurePath fs t kpath = Ok phys
    ∧ lookup_node t phys = Some n
    ∧ isDir n = false.

(** The system call behind the event reached a path inside the root. *)
Definition inside (fs : fsSecure) (e : event) : Prop :=
  match e with
  | IO _ _ phys => HasPrefix phys (fs_root fs) = true
  | _ => True
  end.

(** From [w] to [w'] only such events were added to the log. *)
Definition confined (fs : fsSecure) (w w' : World) : Prop :=
  ∃ evs, log w' = log w ++ evs ∧ Forall (inside fs) evs.

(** The target of the link at [q], if there is a link at [q]. *)
Definition link_at (t : node) (q : path) : option path :=
  match lookup_node t q with
  | Some (Symlink target) => Some target
  | _ => None
  end.

Definition same_links (t t' : node) : Prop := ∀ q, link_at t' q = link_at t q.

(** The names of an image list, in order. *)
Definition image_names (images : list KImage) : list string := map ki_Name images.

(** A name joins a list of names at the end, unless it is there. *)
Definition add_name (names : list string) (n : string) : list string :=
  if decide (n ∈ names) then names else names ++ [n].

(** Two lists that differ at most in the first entry named [n]. *)
Definition differ_at_first (n : string) (l1 l2 : list KImage) : Prop :=
  ∃ i x1 x2, find_name n l1 = Some (i, x1) ∧ l2 = <[i := x2]> l1 ∧ ki_Name x2 = n.

(** What is at a path, the entries of a directory left out. *)
Inductive kind :=
| KFile (data : string)
| KDir
| KLink (target : path).

Definition kind_of (n : node) : kind :=
  match n with
  | File data => KFile data
  | Dir _ => KDir
  | Symlink target => KLink target
  end.

Definition kind_at (t : node) (q : path) : option kind :=
  kind_of <$> lookup_node t q.

(** The kustomization [generateKustomization] serializes (lines 208-220). *)
Definition generated (abs : path) (files : list path) : Kustomization :=
  {| APIVersion := KustomizationVersion; K_Kind := KustomizationKind;
     Namespace := ""; Resources := relativeResources abs files; Patches := [];
     PatchesStrategicMerge := []; PatchesJson6902 := []; Images := [] |}.

(** From [w] to [w'] nothing changed in the tree but, at most, the file
    [name] leads to, and nothing was created or written under another
    name. *)
Definition touches_only (name : path) (w w' : World) : Prop :=
  kustomizeBuildMutex w' = kustomizeBuildMutex w
  ∧ same_links (tree w) (tree w')
  ∧ (∀ q, EvalSymlinks (tree w) name ≠ Some q →
          kind_at (tree w') q = kind_at (tree w) q)
  ∧ ∃ evs, log w' = log w ++ evs
           ∧ ∀ arg phys, (arg, phys) ∈ writes evs → arg = name.

(** * Properties *)

(** ** Image overrides *)

Section Images.
Implicit Types (images : list KImage) (image : SpecImage) (n : string).

Lemma checkKustomizeImageExists_from_find k images n :
  checkKustomizeImageExists_from k images n =
    match find_name n images with
    | Some (i, _) => (true, (k + Z.of_nat i)%Z)
    | None => (false, (-1)%Z)
    end.
Proof.
  unfold find_name. revert k.
  induction images as [|x images IH]; intros k; simpl; [done|].
  destruct (String.eqb_spec n (ki_Name x)) as [->|Hne].
  - rewrite decide_True by done. simpl. f_equal. lia.
  - rewrite decide_False by congruence. rewrite IH.
    destruct (list_find _ images) as [[i y]|]; simpl; [|done].
    f_equal. lia.
Qed.

Lemma checkKustomizeImageExists_find images n :
  checkKustomizeImageExists images n =
    match find_name n images with
    | Some (i, _) => (true, Z.of_nat i)
    | None => (false, (-1)%Z)
    end.
Proof.
  unfold checkKustomizeImageExists.
  rewrite checkKustomizeImageExists_from_find.
  by destruct (find_name n images) as [[i y]|].
Qed.

Lemma applyImage_found images image i old :
  find_name (si_Name image) images = Some (i, old) →
  applyImage images image = <[i := newImage image]> images.
Proof.
  intros Hf. unfold applyImage.
  rewrite checkKustomizeImageExists_find, Hf. by rewrite Nat2Z.id.
Qed.

Lemma applyImage_missing images image :
  find_name (si_Name image) images = None →
  applyImage images image = images ++ [newImage image].
Proof.
  intros Hf. unfold applyImage.
  by rewrite checkKustomizeImageExists_find, Hf.
Qed.

(** After one override the first entry of that name is the override's,
    at the place the name had before, or at the end if it was new. *)
Lemma applyImage_find_same images image :
  find_name (si_Name image) (applyImage images image) =
    Some (match find_name (si_Name image) images with
          | Some (i, _) => i
          | None => length images
          end, newImage image).
Proof.
  destruct (find_name (si_Name image) images) as [[i old]|] eqn:Hf.
  - rewrite (applyImage_found _ _ _ _ Hf).
    apply list_find_Some in Hf as (Hi & _ & Hleast).
    apply list_find_insert_Some. right; left.
    split_and!; eauto using lookup_lt_Some.
  - rewrite (applyImage_missing _ _ Hf). unfold find_name in *.
    rewrite list_find_app_r by done. simpl.
    rewrite decide_True by done. done.
Qed.

(** An override of another name leaves the first entry named [n] alone. *)
Lemma applyImage_find_other images image n :
  si_Name image ≠ n →
  find_name n (applyImage images image) = find_name n images.
Proof.
  intros Hne.
  destruct (find_name (si_Name image) images) as [[i old]|] eqn:Hf.
  - rewrite (applyImage_found _ _ _ _ Hf).
    apply list_find_Some in Hf as (Hi & Hold & _).
    apply option_eq. intros [j y]. unfold find_name.
    rewrite list_find_insert_Some. split.
    + intros [[_ ?]|[(_ & _ & _ & ? & _)|[(_ & _ & ? & _)|(z & _ & _ & _ & Hz & Hiz & _)]]];
        simpl in *; try done; congruence.
    + intros Hj. destruct (decide (j < i)) as [|Hge]; [by left|].
      right; right; left.
      assert (j ≠ i).
      { intros ->. apply list_find_Some in Hj as (Hj & ? & _). congruence. }
      split_and!; [lia|simpl; congruence|done|].
      intros z Hz. congruence.
  - rewrite (applyImage_missing _ _ Hf). unfold find_name.
    destruct (list_find (λ x, ki_Name x = n) images) as [[j y]|] eqn:Hn.
    + by apply list_find_app_l.
    + rewrite list_find_app_r by done. simpl.
      by rewrite decide_False.
Qed.

Lemma applyImage_find_index images image n i x :
  find_name n images = Some (i, x) →
  ∃ y, find_name n (applyImage images image) = Some (i, y).
Proof.
  intros Hf. destruct (decide (si_Name image = n)) as [<-|Hne].
  - rewrite applyImage_find_same, Hf. eauto.
  - rewrite applyImage_find_other by done. eauto.
Qed.

Lemma applyImages_find_index overrides : ∀ images n i x,
  find_name n images = Some (i, x) →
  ∃ y, find_name n (applyImages images overrides) = Some (i, y).
Proof.
  induction overrides as [|o overrides IH]; intros images n i x Hf; simpl.
  - eauto.
  - destruct (applyImage_find_index images o n i x Hf) as [y Hy].
    exact (IH _ _ _ _ Hy).
Qed.

Lemma applyImages_find_other overrides : ∀ images n,
  Forall (λ o, si_Name o ≠ n) overrides →
  find_name n (applyImages images overrides) = find_name n images.
Proof.
  induction overrides as [|o overrides IH]; intros images n Hall; simpl; [done|].
  inversion Hall; subst.
  rewrite IH by done. by apply applyImage_find_other.
Qed.

Lemma applyImages_app images o1 o2 :
  applyImages images (o1 ++ o2) = applyImages (applyImages images o1) o2.
Proof. unfold applyImages. apply foldl_app. Qed.

Lemma applyImage_length images image :
  length (applyImage images image) =
    match find_name (si_Name image) images with
    | Some _ => length images
    | None => S (length images)
    end.
Proof.
  destruct (find_name (si_Name image) images) as [[i old]|] eqn:Hf.
  - rewrite (applyImage_found _ _ _ _ Hf). apply length_insert.
  - rewrite (applyImage_missing _ _ Hf), length_app. simpl. lia.
Qed.
End Images.

(** C6.  One override, applied to the image list of the descriptor: when
    the list has an entry of the override's name, the first such entry is
    overwritten where it stands (same length, all other positions as
    before) by the entry whose name, new name, new tag and digest are
    those of the override; when it has none, that entry goes to the end.
    Over a whole list of overrides, the entry found under a name is the
    one of the last override of that name, and a name the descriptor
    already had keeps its position. *)
Theorem image_override_replaces_in_place_or_appends :
  ∀ (images : list KImage) (image : SpecImage),
    let entry :=
      {| ki_Name := si_Name image; ki_NewName := si_NewName image;
         ki_NewTag := si_NewTag image; ki_Digest := si_Digest image |} in
    match find_name (si_Name image) images with
    | Some (i, _) =>
        applyImage images image = <[i := entry]> images
        ∧ length (applyImage images image) = length images
        ∧ applyImage images image !! i = Some entry
        ∧ (∀ j, j ≠ i → applyImage images image !! j = images !! j)
    | None => applyImage images image = images ++ [entry]
    end
    ∧ ∀ (before after : list SpecImage),
        Forall (λ o, si_Name o ≠ si_Name image) after →
        ∃ i, find_name (si_Name image)
               (applyImages images (before ++ image :: after))
             = Some (i, entry)
           ∧ ∀ i0 old, find_name (si_Name image) images = Some (i0, old) → i = i0.
Proof.
  intros images image entry.
  assert (He : entry = newImage image) by reflexivity.
  clearbody entry. subst entry. split.
  - destruct (find_name (si_Name image) images) as [[i old]|] eqn:Hf.
    + rewrite (applyImage_found _ _ _ _ Hf).
      apply list_find_Some in Hf as (Hi & _ & _).
      apply lookup_lt_Some in Hi.
      split_and!; [done|apply length_insert|by apply list_lookup_insert_eq|].
      intros j Hj. by apply list_lookup_insert_ne.
    + by apply applyImage_missing.
  - intros before after Hafter.
    rewrite applyImages_app. simpl.
    set (mid := applyImages images before).
    rewrite applyImages_find_other by done.
    rewrite applyImage_find_same. eexists. split; [done|].
    intros i0 old Hold.
    destruct (applyImages_find_index before images _ _ _ Hold) as [y Hy].
    fold mid in Hy. by rewrite Hy.
Qed.

(** ** Namespace and patches *)

Section Overrides.
Context `{Libraries}.

Lemma foldl_snoc_map {A B} (f : B → A) (l : list B) : ∀ init,
  foldl (λ acc m, acc ++ [f m]) init l = init ++ map f l.
Proof.
  induction l as [|x l IH]; intros init; simpl.
  - by rewrite app_nil_r.
  - rewrite IH. by rewrite <- app_assoc.
Qed.

Lemma appendJSON6902_Ok ms : ∀ acc ps,
  appendJSON6902 acc ms = Ok ps →
  ∃ l, ps = acc ++ l ∧ Forall2 encodes ms l.
Proof.
  induction ms as [|m ms IH]; intros acc ps Hps; simpl in Hps.
  - exists []. split; [|constructor]. rewrite app_nil_r. congruence.
  - destruct (json_Marshal (jp_Patch m)) as [patch|e] eqn:Hm; [|done].
    destruct (IH _ _ Hps) as (l & -> & Hl).
    eexists (_ :: l). split; [by rewrite <- app_assoc|].
    constructor; [|done]. split; [exact Hm|done].
Qed.

Lemma appendJSON6902_Err ms : ∀ acc e,
  appendJSON6902 acc ms = Err e →
  ∃ before m after,
    ms = before ++ m :: after
    ∧ Forall (λ m', ∃ s, json_Marshal (jp_Patch m') = Ok s) before
    ∧ json_Marshal (jp_Patch m) = Err e.
Proof.
  induction ms as [|m ms IH]; intros acc e He; simpl in He; [done|].
  destruct (json_Marshal (jp_Patch m)) as [patch|e'] eqn:Hm.
  - destruct (IH _ _ He) as (before & m' & after & -> & Hb & Hm').
    exists (m :: before), m', after. split_and!; [done| |done].
    constructor; eauto.
  - exists [], m, ms. split_and!; [done|constructor|congruence].
Qed.

Lemma applyNamespace_fields spec kus :
  Namespace (applyNamespace spec kus) =
    (if decide (TargetNamespace spec = "") then Namespace kus
     else TargetNamespace spec)
  ∧ APIVersion (applyNamespace spec kus) = APIVersion kus
  ∧ K_Kind (applyNamespace spec kus) = K_Kind kus
  ∧ Resources (applyNamespace spec kus) = Resources kus
  ∧ Patches (applyNamespace spec kus) = Patches kus
  ∧ PatchesStrategicMerge (applyNamespace spec kus) = PatchesStrategicMerge kus
  ∧ PatchesJson6902 (applyNamespace spec kus) = PatchesJson6902 kus
  ∧ Images (applyNamespace spec kus) = Images kus.
Proof.
  unfold applyNamespace.
  destruct (String.eqb_spec (TargetNamespace spec) "") as [Heq|Hne]; simpl;
    case_decide; done.
Qed.

Lemma os_ReadFile_world name w r w1 :
  os_ReadFile name w = (r, w1) →
  tree w1 = tree w
  ∧ kustomizeBuildMutex w1 = kustomizeBuildMutex w
  ∧ (log w1 = log w ∨ ∃ phys, log w1 = log w ++ [IO OpRead name phys]).
Proof.
  unfold os_ReadFile. intros Hr.
  destruct (EvalSymlinks (tree w) name) as [phys|]; simplify_eq; [|by auto].
  assert (w1 = emit (IO OpRead name phys) w) as ->.
  { destruct (lookup_node (tree w) phys) as [[]|]; by simplify_eq. }
  simpl. eauto.
Qed.
End Overrides.

(** ** The serialized build *)

Section Build.
Context `{Libraries}.

(** The three ways a call on an unlocked mutex goes, with what it adds to
    the log. *)
Lemma secureBuildKustomization_cases root dirPath allow legacy w :
  kustomizeBuildMutex w = false →
  (∃ e, makeFs allow root w = Err e
        ∧ secureBuildKustomization root dirPath allow legacy w
          = (Returned None (Some e), w))
  ∨ (∃ fs m err w',
        makeFs allow root w = Ok fs
        ∧ krusty_Run (buildOptions legacy) fs dirPath (tree w) = RunReturn m err
        ∧ secureBuildKustomization root dirPath allow legacy w
          = (Returned m err, w')
        ∧ tree w' = tree w ∧ kustomizeBuildMutex w' = false
        ∧ log w' = log w ++ [MutexLock; EngineRun dirPath; MutexUnlock])
  ∨ (∃ fs r w',
        makeFs allow root w = Ok fs
        ∧ krusty_Run (buildOptions legacy) fs dirPath (tree w) = RunPanic r
        ∧ secureBuildKustomization root dirPath allow legacy w
          = (Returned None match r with
                           | PanicNil => None
                           | _ => Some (BuildPanicError r)
                           end, w')
        ∧ tree w' = tree w ∧ kustomizeBuildMutex w' = false
        ∧ log w' = log w ++ [MutexLock; EngineRun dirPath; Recovered; MutexUnlock]).
Proof.
  intros Hfree. unfold secureBuildKustomization, makeFs.
  destruct (if allow then _ else _) as [fs|e] eqn:Hfs.
  - right. unfold Mutex_Lock. rewrite Hfree. cbn [tree emit].
    fold (buildOptions legacy).
    destruct (krusty_Run _ fs dirPath (tree w)) as [m err|r] eqn:Hrun.
    + left. eexists fs, m, err, _. split_and!; [done..|reflexivity| | |]; simpl;
        [done..|].
      by rewrite <- !app_assoc.
    + right. eexists fs, r, _. split_and!; [done..|reflexivity| | |]; simpl;
        [done..|].
      by rewrite <- !app_assoc.
  - left. eauto.
Qed.
End Build.



(** C3.  On an unlocked mutex a call of [secureBuildKustomization] neither
    blocks nor dies: it returns with the mutex unlocked again.  When the
    file system could be made, the call locks, runs the engine, and
    unlocks as the last thing it does; if the engine panicked, the
    recovery comes between the run and the unlock.  Hence a call that
    follows one with a recovered panic finds the mutex free and returns
    too. *)
Theorem build_lock_released_on_every_path `{Libraries} :
  ∀ (root dirPath : path) (allowRemoteBases doLegacyResourceSort : bool) (w : World),
    kustomizeBuildMutex w = false →
    ∃ m err w',
      secureBuildKustomization root dirPath allowRemoteBases doLegacyResourceSort w
        = (Returned m err, w')
      ∧ kustomizeBuildMutex w' = false
      ∧ ((∃ e, makeFs allowRemoteBases root w = Err e ∧ log w' = log w)
         ∨ (∃ fs, makeFs allowRemoteBases root w = Ok fs
              ∧ ((∃ m' err', krusty_Run (buildOptions doLegacyResourceSort) fs
                               dirPath (tree w) = RunReturn m' err'
                    ∧ log w' = log w ++ [MutexLock; EngineRun dirPath; MutexUnlock])
                 ∨ (∃ r, krusty_Run (buildOptions doLegacyResourceSort) fs
                           dirPath (tree w) = RunPanic r
                    ∧ log w' = log w ++ [MutexLock; EngineRun dirPath;
                                         Recovered; MutexUnlock]))))
      ∧ ∀ root2 dirPath2 allow2 legacy2,
          ∃ m2 err2 w2,
            secureBuildKustomization root2 dirPath2 allow2 legacy2 w'
              = (Returned m2 err2, w2)
            ∧ kustomizeBuildMutex w2 = false.
Proof.
  intros root dirPath allow legacy w Hfree.
  assert (Hret : ∀ root dirPath allow legacy w,
    kustomizeBuildMutex w = false →
    ∃ m err w',
      secureBuildKustomization root dirPath allow legacy w = (Returned m err, w')
      ∧ kustomizeBuildMutex w' = false).
  { clear. intros root dirPath allow legacy w Hfree.
    destruct (secureBuildKustomization_cases root dirPath allow legacy w Hfree)
      as [(e & _ & ->)|[(fs & m & err & w' & _ & _ & -> & _ & Hm & _)
                       |(fs & r & w' & _ & _ & -> & _ & Hm & _)]]; eauto. }
  destruct (secureBuildKustomization_cases root dirPath allow legacy w Hfree)
    as [(e & Hfs & Hcall)|[(fs & m & err & w' & Hfs & Hrun & Hcall & _ & Hm & Hlog)
                          |(fs & r & w' & Hfs & Hrun & Hcall & _ & Hm & Hlog)]];
    rewrite Hcall; do 3 eexists; (split; [reflexivity|]).
  - split_and!; [done|left; eauto|]. intros. by apply Hret.
  - split_and!; [done|right; exists fs; split; [done|left; eauto]|].
    intros. by apply Hret.
  - split_and!; [done|right; exists fs; split; [done|right; eauto]|].
    intros. by apply Hret.
Qed.

(** ** The file system operations leave the tree alone *)

Lemma extends_refl w : extends w w [].
Proof. unfold extends. by rewrite app_nil_r. Qed.

Lemma extends_emit e w : extends w (emit e w) [e].
Proof. by unfold extends. Qed.

Lemma extends_trans w1 w2 w3 e1 e2 :
  extends w1 w2 e1 → extends w2 w3 e2 → extends w1 w3 (e1 ++ e2).
Proof.
  unfold extends. intros (Ht1 & Hm1 & Hl1) (Ht2 & Hm2 & Hl2).
  rewrite Ht2, Hm2, Hl2, Hl1, Ht1, Hm1. by rewrite app_assoc.
Qed.

Lemma visits_app e1 e2 : visits (e1 ++ e2) = visits e1 ++ visits e2.
Proof. apply omap_app. Qed.
Lemma reads_app e1 e2 : reads (e1 ++ e2) = reads e1 ++ reads e2.
Proof. apply omap_app. Qed.
Lemma writes_app e1 e2 : writes (e1 ++ e2) = writes e1 ++ writes e2.
Proof. apply omap_app. Qed.

Lemma quiet_nil : quiet [].
Proof. done. Qed.

Lemma quiet_app e1 e2 : quiet e1 → quiet e2 → quiet (e1 ++ e2).
Proof.
  unfold quiet. rewrite visits_app, reads_app, writes_app.
  intros (-> & -> & ->) (-> & -> & ->). done.
Qed.

Lemma fs_Exists_spec fs p w :
  ∃ w' evs, fs_Exists fs p w = (exists_in fs (tree w) p, w')
            ∧ extends w w' evs ∧ quiet evs.
Proof.
  unfold fs_Exists, exists_in.
  destruct (isSecurePath fs (tree w) p) as [phys|e].
  - eexists _, _. split_and!; [done|apply extends_emit|done].
  - eexists _, _. split_and!; [done|apply extends_refl|done].
Qed.

Lemma fs_IsDir_spec fs p w :
  ∃ w' evs, fs_IsDir fs p w = (isdir_in fs (tree w) p, w')
            ∧ extends w w' evs ∧ quiet evs.
Proof.
  unfold fs_IsDir, isdir_in.
  destruct (isSecurePath fs (tree w) p) as [phys|e].
  - eexists _, _. split_and!; [done|apply extends_emit|done].
  - eexists _, _. split_and!; [done|apply extends_refl|done].
Qed.

Lemma hasKustomizationFile_spec fs dir names : ∀ w,
  ∃ w' evs,
    hasKustomizationFile fs dir names w
      = (existsb (λ k, is_descriptor fs (tree w) (Join dir k)) names, w')
    ∧ extends w w' evs ∧ quiet evs.
Proof.
  induction names as [|k names IH]; intros w; simpl.
  - eexists _, _. split_and!; [done|apply extends_refl|done].
  - destruct (fs_Exists_spec fs (Join dir k) w) as (w1 & e1 & -> & Hx1 & Hq1).
    unfold is_descriptor at 1.
    destruct (exists_in fs (tree w) (Join dir k)); simpl.
    + destruct (fs_IsDir_spec fs (Join dir k) w1) as (w2 & e2 & -> & Hx2 & Hq2).
      assert (Ht : tree w1 = tree w) by apply Hx1. rewrite Ht.
      destruct (isdir_in fs (tree w) (Join dir k)); simpl.
      * destruct (IH w2) as (w3 & e3 & -> & Hx3 & Hq3).
        assert (Ht2 : tree w2 = tree w) by (destruct Hx2 as [-> _]; done).
        rewrite Ht2. eexists _, _. split_and!; [done| |].
        -- eapply extends_trans; [eapply extends_trans|]; eassumption.
        -- auto using quiet_app.
      * eexists _, _. split_and!; [done| |].
        -- eapply extends_trans; eassumption.
        -- auto using quiet_app.
    + destruct (IH w1) as (w3 & e3 & -> & Hx3 & Hq3).
      assert (Ht : tree w1 = tree w) by apply Hx1. rewrite Ht.
      eexists _, _. split_and!; [done| |].
      * eapply extends_trans; eassumption.
      * auto using quiet_app.
Qed.

Opaque EvalSymlinks.

(** ** The overrides in [WriteFile] *)

(** C7.  What [WriteFile] does to the descriptor it has decoded, in the
    order of the source.  The adapted selector of a selector of the spec
    is never nil and has its group, version, kind, name, namespace,
    annotation selector and label selector.  The namespace is overwritten
    exactly when the target namespace of the spec is not empty; the inline
    patches are appended in the order of the spec, each with its adapted
    selector; the strategic-merge blobs are appended; each structured
    patch is appended with its operations serialized and its selector
    adapted; the images are overridden; nothing else changes.  When a
    structured patch does not serialize, the error is the one of the first
    such patch and [WriteFile] returns it without writing the descriptor
    back: after [generateKustomization] has returned, the call only reads.
    So a descriptor that was found is left as it was, and a descriptor
    that the same call generated stays as it was generated. *)
Theorem overrides_applied_in_order `{Libraries} :
  ∀ (spec : KustomizationSpec) (kus : Kustomization),
    (∀ s : Selector,
       adaptSelector (Some s)
       = Some {| ks_Gvk := {| Group := sel_Group s; Version := sel_Version s;
                              Kind := sel_Kind s |};
                 ks_Name := sel_Name s;
                 ks_Namespace := sel_Namespace s;
                 ks_AnnotationSelector := sel_AnnotationSelector s;
                 ks_LabelSelector := sel_LabelSelector s |})
    ∧ match applyOverrides spec kus with
      | Ok kus' =>
          Namespace kus' =
            (if decide (TargetNamespace spec = "") then Namespace kus
             else TargetNamespace spec)
          ∧ Patches kus' = Patches kus ++ map inlinePatch (Spec_Patches spec)
          ∧ PatchesStrategicMerge kus' =
              PatchesStrategicMerge kus ++ Spec_PatchesStrategicMerge spec
          ∧ (∃ l, PatchesJson6902 kus' = PatchesJson6902 kus ++ l
                  ∧ Forall2 encodes (Spec_PatchesJSON6902 spec) l)
          ∧ Images kus' = applyImages (Images kus) (Spec_Images spec)
          ∧ Resources kus' = Resources kus
          ∧ APIVersion kus' = APIVersion kus ∧ K_Kind kus' = K_Kind kus
      | Err e =>
          ∃ before m after,
            Spec_PatchesJSON6902 spec = before ++ m :: after
            ∧ Forall (λ m', ∃ s, json_Marshal (jp_Patch m') = Ok s) before
            ∧ json_Marshal (jp_Patch m) = Err e
      end
    ∧ ∀ (kg : KustomizeGenerator) (dirPath : path) (w w1 w2 : World)
        (data : string) (e : error),
        kustomization kg = spec →
        generateKustomization kg dirPath w = (None, w1) →
        os_ReadFile (Join dirPath DefaultKustomizationFileName) w1 = (Ok data, w2) →
        yaml_Unmarshal data emptyKustomization = Ok kus →
        applyOverrides spec kus = Err e →
        WriteFile kg dirPath w = (Some e, w2)
        ∧ tree w2 = tree w1
        ∧ (∀ op arg phys, IO op arg phys ∈ log w2 →
             IO op arg phys ∈ log w1 ∨ op = OpRead)
        ∧ ∀ fs, MakeFsOnDiskSecure (root kg) w = Ok fs →
                has_descriptor fs (tree w) dirPath = true →
                tree w2 = tree w.
Proof.
  intros spec kus. split_and!.
  - done.
  - unfold applyOverrides, applyJSON6902. simpl.
    destruct (applyNamespace_fields spec kus)
      as (Hns & Hv & Hk & Hr & Hp & Hsm & Hj & Hi).
    destruct (appendJSON6902 _ _) as [ps|e] eqn:Hps; simpl.
    + apply appendJSON6902_Ok in Hps as (l & -> & Hl).
      rewrite !foldl_snoc_map, map_id.
      rewrite Hns, Hp, Hsm, Hj, Hi, Hr, Hv, Hk.
      split_and!; eauto.
    + by apply appendJSON6902_Err in Hps.
  - intros kg dirPath w w1 w2 data e Hkg Hgen Hread Hdec Happ.
    destruct (os_ReadFile_world _ _ _ _ Hread) as (Ht & _ & Hlog).
    split_and!.
    + unfold WriteFile. rewrite Hgen. unfold writeOverrides.
      by rewrite Hread, Hdec, Hkg, Happ.
    + done.
    + intros op arg phys Hin.
      destruct Hlog as [Hlog|[ph Hlog]]; rewrite Hlog in Hin; [by left|].
      apply elem_of_app in Hin as [?|Hin]; [by left|].
      apply list_elem_of_singleton in Hin. right. congruence.
    + intros fs Hfs Hhas. rewrite Ht. revert Hgen.
      unfold generateKustomization. rewrite Hfs.
      destruct (hasKustomizationFile_spec fs dirPath
                  RecognizedKustomizationFileNames w)
        as (w0 & evs & -> & Hx & _).
      fold (has_descriptor fs (tree w) dirPath). rewrite Hhas.
      intros [= <-]. apply Hx.
Qed.

(** In a directory without kustomization file, a structured patch that
    does not serialize makes [WriteFile] return the error after the
    generated descriptor has been created and written. *)
Lemma failed_patch_leaves_generated_descriptor :
  let kg := NewGenerator ["r"] spec_bad_patch in
  let w := world_of tree_fresh in
  let w' := snd (@WriteFile testdata kg ["r"; "d"] w) in
  lookup_node (tree w) ["r"; "d"; "kustomization.yaml"] = None
  ∧ fst (@WriteFile testdata kg ["r"; "d"] w)
    = Some (LibError "json: error calling MarshalJSON for type *v1.JSON")
  ∧ writes (log w')
    = [(["r"; "d"; "kustomization.yaml"], ["r"; "d"; "kustomization.yaml"]);
       (["r"; "d"; "kustomization.yaml"], ["r"; "d"; "kustomization.yaml"])]
  ∧ lookup_node (tree w') ["r"; "d"; "kustomization.yaml"]
    = Some (File ("namespace: " +:+ newline +:+ "- ./a.yaml" +:+ newline)).
Proof. vm_compute. done. Qed.

(** ** The scan: one call of the callback *)

Section Scan.
Context `{Libraries}.
Variables (fs : fsSecure) (base : path) (t : node).

Lemma isSecurePath_not_SkipDir p e : isSecurePath fs t p = Err e → e ≠ SkipDir.
Proof.
  unfold isSecurePath. destruct (EvalSymlinks t p); [|congruence].
  destruct (HasPrefix _ _); congruence.
Qed.

(** [SkipDir] is only returned for a directory with a kustomization file,
    which is then the one path appended. *)
Lemma call_ok_SkipDir c :
  call_ok fs base t c → c_err c = Some SkipDir →
  c_dir c = true ∧ c_path c ≠ base
  ∧ has_descriptor fs t (c_path c) = true ∧ c_added c = [c_path c].
Proof.
  unfold call_ok. intros Hc He. rewrite He in Hc.
  case_bool_decide as Hb; [by destruct Hc|].
  destruct (c_dir c).
  - destruct Hc as [_ Hc]. destruct (has_descriptor fs t (c_path c)).
    + by destruct Hc.
    + by destruct Hc.
  - destruct (negb (yaml_ext (c_path c))); [by destruct Hc|].
    destruct (isSecurePath fs t (c_path c)) as [phys|e] eqn:Hs.
    + destruct Hc as [_ Hc].
      destruct (lookup_node t phys) as [[data|ents|tg]|];
        try (destruct Hc as [(op & en & ?) _]; done).
      destruct (SliceFromBytes data); by destruct Hc.
    + destruct Hc as [Hc _]. apply isSecurePath_not_SkipDir in Hs. congruence.
Qed.

Lemma call_ok_added c :
  call_ok fs base t c → c_added c = [] ∨ (c_added c = [c_path c] ∧ c_path c ≠ base).
Proof.
  unfold call_ok. intros Hc.
  case_bool_decide as Hb; [left; apply Hc|].
  destruct (c_dir c).
  - destruct Hc as [_ Hc]. destruct (has_descriptor fs t (c_path c)).
    + right. split; [apply Hc|done].
    + left. apply Hc.
  - destruct (negb (yaml_ext (c_path c))); [left; apply Hc|].
    destruct (isSecurePath fs t (c_path c)) as [phys|e]; [|left; apply Hc].
    destruct Hc as [_ Hc].
    destruct (lookup_node t phys) as [[data|ents|tg]|]; try (left; apply Hc).
    destruct (SliceFromBytes data); [left; apply Hc|].
    right. split; [apply Hc|done].
Qed.
End Scan.

Ltac call_goals ext :=
  split_and!; [done|done|done|by rewrite ?app_nil_r|ext|done|done|done|].

Section ScanFn.
Context `{Libraries}.
Variables (fs : fsSecure) (base : path).

Lemma fs_ReadFile_spec p w r w' :
  fs_ReadFile fs p w = (r, w') →
  match isSecurePath fs (tree w) p with
  | Err e => r = Err e ∧ w' = w
  | Ok phys =>
      w' = emit (IO OpRead p phys) w
      ∧ match lookup_node (tree w) phys with
        | Some (File data) => r = Ok data
        | _ => ∃ op en, r = Err (PathError op (path_string p) en)
        end
  end.
Proof.
  unfold fs_ReadFile, isSecurePath, os_ReadFile.
  destruct (EvalSymlinks (tree w) p) as [phys|]; [|by intros [= <- <-]].
  destruct (HasPrefix phys (fs_root fs)); [|by intros [= <- <-]].
  destruct (lookup_node (tree w) phys) as [[data|ents|tg]|];
    intros [= <- <-]; eauto.
Qed.

Lemma scanFn_spec p isd paths w err paths' w' :
  scanFn fs base p isd None paths w = (err, paths', w') →
  ∃ c evs,
    c_path c = p ∧ c_dir c = isd ∧ c_err c = err
    ∧ paths' = paths ++ c_added c
    ∧ extends w w' evs
    ∧ visits evs = [] ∧ writes evs = [] ∧ reads evs = c_reads c
    ∧ call_ok fs base (tree w) c.
Proof.
  unfold scanFn. intros Hs.
  case_bool_decide as Hb.
  { injection Hs as <- <- <-.
    exists (Call p isd None [] []), [].
    call_goals ltac:(apply extends_refl).
    unfold call_ok. simpl. by rewrite bool_decide_true. }
  destruct isd.
  { destruct (hasKustomizationFile_spec fs p RecognizedKustomizationFileNames w)
      as (w1 & evs & Hk & Hx & Hv & Hr & Hw).
    rewrite Hk in Hs. fold (has_descriptor fs (tree w) p) in Hs.
    destruct (has_descriptor fs (tree w) p) eqn:Hd; injection Hs as <- <- <-.
    - exists (Call p true (Some SkipDir) [p] []), evs.
      call_goals ltac:(eassumption).
      unfold call_ok. simpl. by rewrite bool_decide_false, Hd.
    - exists (Call p true None [] []), evs.
      call_goals ltac:(eassumption).
      unfold call_ok. simpl. by rewrite bool_decide_false, Hd. }
  assert (Hext : negb (String.eqb (Ext (path_string p)) ".yaml")
                 && negb (String.eqb (Ext (path_string p)) ".yml")
                 = negb (yaml_ext p)).
  { unfold yaml_ext. by rewrite negb_orb. }
  rewrite Hext in Hs. clear Hext.
  destruct (negb (yaml_ext p)) eqn:Hy.
  { injection Hs as <- <- <-.
    exists (Call p false None [] []), [].
    call_goals ltac:(apply extends_refl).
    unfold call_ok. simpl. by rewrite bool_decide_false, Hy. }
  destruct (fs_ReadFile fs p w) as [r w1] eqn:Hread.
  apply fs_ReadFile_spec in Hread.
  destruct (isSecurePath fs (tree w) p) as [phys|e] eqn:Hsec.
  - destruct Hread as [-> Hr].
    assert (Hbad : ∀ op en,
      (∀ data, lookup_node (tree w) phys ≠ Some (File data)) →
      (Some (PathError op (path_string p) en), paths,
       emit (IO OpRead p phys) w) = (err, paths', w') →
      ∃ c evs,
        c_path c = p ∧ c_dir c = false ∧ c_err c = err
        ∧ paths' = paths ++ c_added c
        ∧ extends w w' evs
        ∧ visits evs = [] ∧ writes evs = [] ∧ reads evs = c_reads c
        ∧ call_ok fs base (tree w) c).
    { intros op en Hnf [= <- <- <-].
      exists (Call p false (Some (PathError op (path_string p) en)) [] [(p, phys)]),
        [IO OpRead p phys].
      call_goals ltac:(apply extends_emit).
      unfold call_ok. simpl. rewrite bool_decide_false, Hy, Hsec by done.
      split; [done|].
      destruct (lookup_node (tree w) phys) as [[data|ents|tg]|] eqn:Hl; eauto.
      by destruct (Hnf data). }
    destruct (lookup_node (tree w) phys) as [[data|ents|tg]|] eqn:Hl.
    + subst r. destruct (SliceFromBytes data) as [e|] eqn:Hdec;
        injection Hs as <- <- <-.
      * exists (Call p false (Some (DecodeError (path_string p) e)) [] [(p, phys)]),
          [IO OpRead p phys].
        call_goals ltac:(apply extends_emit).
        unfold call_ok. simpl. by rewrite bool_decide_false, Hy, Hsec, Hl, Hdec.
      * exists (Call p false None [p] [(p, phys)]), [IO OpRead p phys].
        call_goals ltac:(apply extends_emit).
        unfold call_ok. simpl. by rewrite bool_decide_false, Hy, Hsec, Hl, Hdec.
    + destruct Hr as (op & en & ->). by apply (Hbad op en).
    + destruct Hr as (op & en & ->). by apply (Hbad op en).
    + destruct Hr as (op & en & ->). by apply (Hbad op en).
  - destruct Hread as [-> ->]. injection Hs as <- <- <-.
    exists (Call p false (Some e) [] []), [].
    call_goals ltac:(apply extends_refl).
    unfold call_ok. simpl. by rewrite bool_decide_false, Hy, Hsec.
Qed.
End ScanFn.

(** ** The scan: the walk as a list of calls *)

Lemma walk_Dir {A : Type} (walkFn : path → bool → option error → A → World →
                                    option error * A * World) p entries a w :
  walk walkFn p (Dir entries) a w =
    let '(err1, a1, w1) := walkFn p true None a (emit (Visit p true) w) in
    match err1 with
    | Some e => (Some e, a1, w1)
    | None => walk_entries walkFn p entries a1 w1
    end.
Proof.
  simpl. destruct (walkFn p true None a _) as [[[e|] a1] w1]; [done|].
  revert a1 w1. induction entries as [|[name child] rest IH]; intros a1 w1; [done|].
  simpl. destruct (walk walkFn (Join p name) child a1 w1) as [[[e|] a'] w'].
  - destruct (negb (isDir child) || negb (is_SkipDir e)); [done|apply IH].
  - apply IH.
Qed.

Lemma walk_not_Dir {A : Type} (walkFn : path → bool → option error → A → World →
                                        option error * A * World) p n a w :
  isDir n = false →
  walk walkFn p n a w = walkFn p false None a (emit (Visit p false) w).
Proof. by destruct n. Qed.

(** Induction on a tree, with the entries of a directory at hand. *)
Lemma node_tree_ind (P : node → Prop) :
  (∀ n, isDir n = false → P n) →
  (∀ entries, Forall (λ e, P e.2) entries → P (Dir entries)) →
  ∀ n, P n.
Proof.
  intros Hleaf Hdir. fix IH 1. intros [data|entries|target].
  - by apply Hleaf.
  - apply Hdir. induction entries as [|[k v] entries IHe]; constructor.
    + apply IH.
    + apply IHe.
  - by apply Hleaf.
Qed.

Lemma names_distinct_Dir entries :
  names_distinct (Dir entries) = true →
  NoDup entries.*1 ∧ Forall (λ e, names_distinct e.2 = true) entries.
Proof.
  simpl. intros [Hn Hall]%andb_true_iff. split; [by apply bool_decide_eq_true in Hn|].
  clear Hn. induction entries as [|[k v] entries IH]; [constructor|].
  apply andb_true_iff in Hall as [Hv Hall]. constructor; auto.
Qed.

Lemma assoc_elem_of name child entries :
  NoDup entries.*1 → (name, child) ∈ entries → assoc name entries = Some child.
Proof.
  induction entries as [|[k v] entries IH]; intros Hnd Hin.
  - by apply elem_of_nil in Hin.
  - simpl in *. apply NoDup_cons in Hnd as [Hk Hnd].
    apply elem_of_cons in Hin as [[= <- <-]|Hin].
    + by rewrite String.eqb_refl.
    + destruct (String.eqb_spec k name) as [->|Hne]; [|by apply IH].
      destruct Hk. apply list_elem_of_fmap. by exists (name, child).
Qed.

Lemma assoc_Some_elem_of name child entries :
  assoc name entries = Some child → (name, child) ∈ entries.
Proof.
  induction entries as [|[k v] entries IH]; [done|]. simpl.
  destruct (String.eqb_spec k name) as [->|Hne].
  - intros [= ->]. apply elem_of_cons. by left.
  - intros Ha. apply elem_of_cons. right. by apply IH.
Qed.

Section Accounted.
Context `{Libraries}.
Variables (fs : fsSecure) (base : path).

Lemma accounted_nil w paths : accounted fs base w w paths paths [].
Proof.
  exists []. split_and!; try done; [apply extends_refl|by rewrite app_nil_r].
Qed.

Lemma accounted_app w w1 w2 a a1 a2 cs1 cs2 :
  accounted fs base w w1 a a1 cs1 → accounted fs base w1 w2 a1 a2 cs2 →
  accounted fs base w w2 a a2 (cs1 ++ cs2).
Proof.
  intros (e1 & Hx1 & Hw1 & Hv1 & Hr1 & -> & Hok1)
         (e2 & Hx2 & Hw2 & Hv2 & Hr2 & -> & Hok2).
  exists (e1 ++ e2).
  assert (Ht : tree w1 = tree w) by apply Hx1.
  rewrite writes_app, visits_app, reads_app, !map_app, !concat_app.
  rewrite Hw1, Hw2, Hv1, Hv2, Hr1, Hr2.
  split_and!; try done.
  - by eapply extends_trans.
  - by rewrite <- app_assoc.
  - apply Forall_app. split; [done|]. by rewrite <- Ht.
Qed.

(** A visit followed by the call of the callback. *)
Lemma accounted_call p isd paths w err paths' w' :
  scanFn fs base p isd None paths (emit (Visit p isd) w) = (err, paths', w') →
  ∃ c, c_path c = p ∧ c_dir c = isd ∧ c_err c = err
       ∧ accounted fs base w w' paths paths' [c].
Proof.
  intros Hs. apply scanFn_spec in Hs
    as (c & evs & Hp & Hd & He & -> & Hx & Hv & Hw & Hr & Hok).
  exists c. split_and!; [done..|].
  exists (Visit p isd :: evs). split_and!.
  - apply (extends_trans w (emit (Visit p isd) w) w' [Visit p isd] evs);
      [apply extends_emit|done].
  - done.
  - simpl. by rewrite Hv, Hp, Hd.
  - simpl. by rewrite Hr, app_nil_r.
  - simpl. by rewrite app_nil_r.
  - by constructor.
Qed.
End Accounted.

Lemma below_irrefl p : ¬ below p p.
Proof.
  intros (name & rest & Heq). apply (f_equal length) in Heq.
  rewrite length_app in Heq. simpl in Heq. lia.
Qed.

Lemma under_below_self p name q : under p name q → below p q.
Proof. intros [rest ->]. by exists name, rest. Qed.

Lemma under_unique p n1 n2 q : under p n1 q → under p n2 q → n1 = n2.
Proof.
  intros [r1 ->] [r2 Heq]. apply app_inv_head in Heq. congruence.
Qed.

Lemma under_Join p name q :
  q = Join p name ∨ below (Join p name) q → under p name q.
Proof.
  unfold Join. intros [->|(n & r & ->)].
  - by exists [].
  - exists (n :: r). by rewrite <- app_assoc.
Qed.

Lemma under_app p name rel : under p name ((p ++ [name]) ++ rel).
Proof. exists rel. by rewrite <- app_assoc. Qed.

Lemma under_step p name q q' : under p name q → below q q' → under p name q'.
Proof.
  intros [r ->] (n & r' & ->). exists (r ++ n :: r').
  by rewrite <- app_assoc.
Qed.

Lemma under_not_self p name : ¬ under p name p.
Proof. intros Hu. by apply (below_irrefl p), (under_below_self p name). Qed.

Lemma not_below_under p name q : under p name q → ¬ below q p.
Proof.
  intros [r ->] (n & r' & Heq). apply (f_equal length) in Heq.
  repeat (rewrite ?length_app in Heq; simpl in Heq). lia.
Qed.

Lemma walked_single p n c :
  c_path c = p → c_dir c = isDir n →
  (c_err c = None → isDir n = false) →
  walked p n (c_err c) [c] ∧ walked_once p n (c_err c) [c].
Proof.
  intros Hp Hd Hleaf. split; split_and!.
  - by exists c, [].
  - constructor; [by left|constructor].
  - constructor; [by right; right|constructor].
  - intros He. by exists c.
  - simpl. apply NoDup_singleton.
  - intros c1 c2 ->%list_elem_of_singleton ->%list_elem_of_singleton Hb.
    by apply below_irrefl in Hb.
  - intros _ rel es name child c' Hl _ ->%list_elem_of_singleton _ Hnone.
    specialize (Hleaf Hnone). destruct n; try done; by destruct rel.
  - intros c' ->%list_elem_of_singleton. exists [], n.
    by rewrite app_nil_r.
Qed.

Section Walked.
Context `{Libraries}.
Variables (fs : fsSecure) (base : path).

Lemma walked_under p name child err calls c :
  walked (Join p name) child err calls → c ∈ calls → under p name (c_path c).
Proof.
  intros (_ & Hpre & _) Hin. apply under_Join.
  by apply (proj1 (Forall_forall _ _) Hpre).
Qed.

(** A child cannot hand [SkipDir] up unless it is a directory. *)
Lemma walked_SkipDir_dir w w' paths paths' p n calls :
  accounted fs base w w' paths paths' calls →
  walked p n (Some SkipDir) calls → isDir n = true.
Proof.
  intros (evs & _ & _ & _ & _ & _ & Hok) (H0 & _ & _ & Hs).
  destruct (Hs eq_refl) as (c0 & -> & He).
  destruct H0 as (c0' & rest & [= <- <-] & _ & Hd).
  apply Forall_inv in Hok.
  destruct (call_ok_SkipDir _ _ _ _ Hok He) as (Hdir & _). congruence.
Qed.

Lemma walk_entries_walked p entries :
  Forall (λ e, walk_spec fs base e.2) entries →
  ∀ paths w err paths' w',
    walk_entries (scanFn fs base) p entries paths w = (err, paths', w') →
    ∃ calls, accounted fs base w w' paths paths' calls
             ∧ walked_entries p entries err calls
             ∧ (NoDup entries.*1 →
                Forall (λ e, names_distinct e.2 = true) entries →
                walked_entries_once p entries err calls).
Proof.
  induction entries as [|[name child] rest IH];
    intros HP paths w err paths' w' Hrun.
  { injection Hrun as <- <- <-. exists []. split; [apply accounted_nil|].
    split; [split_and!; try done; constructor|].
    intros _ _. split_and!; try done; try constructor.
    - intros c1 c2 Hc1. by apply elem_of_nil in Hc1.
    - intros c Hc. by apply elem_of_nil in Hc. }
  apply Forall_cons in HP as [HPc HPr]. simpl in HPc.
  simpl in Hrun.
  destruct (walk (scanFn fs base) (Join p name) child paths w)
    as [[err1 a1] w1] eqn:Hchild.
  destruct (HPc _ _ _ _ _ _ Hchild) as (cs1 & Hacc1 & Hw1 & Hwf1).
  assert (Hu1 : ∀ c, c ∈ cs1 → under p name (c_path c)).
  { intros c. by eapply walked_under. }
  assert (Hstop : ∀ e, err1 = Some e →
            negb (isDir child) || negb (is_SkipDir e) = true →
            (err, paths', w') = (Some e, a1, w1) →
            ∃ calls, accounted fs base w w' paths paths' calls
                     ∧ walked_entries p ((name, child) :: rest) err calls
                     ∧ (NoDup ((name, child) :: rest).*1 →
                        Forall (λ e, names_distinct e.2 = true)
                               ((name, child) :: rest) →
                        walked_entries_once p ((name, child) :: rest) err calls)).
  { intros e -> Hcond [= -> -> ->]. exists cs1. split; [done|].
    pose proof Hw1 as (H0 & Hpre & Herr & Hskip).
    split; [split_and!; try done|].
    - apply Forall_forall. intros c Hc. exists name. split; [|by apply Hu1].
      simpl. apply elem_of_cons. by left.
    - intros [= ->]. simpl in Hcond. rewrite orb_false_r in Hcond.
      apply negb_true_iff in Hcond.
      assert (isDir child = true); [|congruence].
      by eapply walked_SkipDir_dir.
    - intros _ [Hwc _]%Forall_cons. simpl in Hwc.
      destruct (Hwf1 Hwc) as (Hnd1 & Hdesc & _ & Hloc). split_and!; try done.
      intros c Hc. destruct (Hloc c Hc) as (rel & n' & Hp & Hl & Hd).
      exists (name :: rel), n'. split_and!; [|simpl|done].
      + rewrite Hp. unfold Join. by rewrite <- app_assoc.
      + by rewrite String.eqb_refl. }
  assert (Hgo : (err1 = None ∨ (err1 = Some SkipDir ∧ isDir child = true)) →
            walk_entries (scanFn fs base) p rest a1 w1 = (err, paths', w') →
            ∃ calls, accounted fs base w w' paths paths' calls
                     ∧ walked_entries p ((name, child) :: rest) err calls
                     ∧ (NoDup ((name, child) :: rest).*1 →
                        Forall (λ e, names_distinct e.2 = true)
                               ((name, child) :: rest) →
                        walked_entries_once p ((name, child) :: rest) err calls)).
  { intros Herr1 Hrest.
    destruct (IH HPr _ _ _ _ _ Hrest) as (cs2 & Hacc2 & Hw2 & Hwf2).
    exists (cs1 ++ cs2). split; [by eapply accounted_app|].
    pose proof Hw1 as (H0 & Hpre & Herr & Hskip).
    destruct Hw2 as (Hun2 & Herr2 & Hns2).
    assert (Hu2 : ∀ c, c ∈ cs2 → ∃ nm, nm ∈ rest.*1 ∧ under p nm (c_path c)).
    { intros c Hc. by apply (proj1 (Forall_forall _ _) Hun2). }
    split; [split_and!|].
    - apply Forall_app. split.
      + apply Forall_forall. intros c Hc. exists name. split; [|by apply Hu1].
        simpl. apply elem_of_cons. by left.
      + apply Forall_forall. intros c Hc. destruct (Hu2 _ Hc) as (nm & Hin & Hun).
        exists nm. split; [|done]. simpl. apply elem_of_cons. by right.
    - apply Forall_app. split; [|done].
      apply Forall_forall. intros c Hc.
      destruct (proj1 (Forall_forall _ _) Herr c Hc) as [?|[?|He]]; auto.
      rewrite He. destruct Herr1 as [->|[-> _]]; auto.
    - done.
    - intros Hnd Hwf. apply Forall_cons in Hwf as [Hwc Hwr]. simpl in Hwc.
      simpl in Hnd. apply NoDup_cons in Hnd as [Hname Hndr].
      destruct (Hwf1 Hwc) as (Hnd1 & Hdesc & Hcomp & Hloc).
      destruct (Hwf2 Hndr Hwr) as (Hnd2 & Hdesc2 & Hcomp2 & Hloc2).
      assert (Hdisj : ∀ c1 c2, c1 ∈ cs1 → c2 ∈ cs2 →
                ∀ nm, under p nm (c_path c1) → under p nm (c_path c2) → False).
      { intros c1 c2 Hc1 Hc2 nm Hn1 Hn2.
        destruct (Hu2 _ Hc2) as (nm2 & Hin2 & Hun).
        pose proof (under_unique p nm name _ Hn1 (Hu1 c1 Hc1)).
        pose proof (under_unique p nm nm2 _ Hn2 Hun).
        destruct Hname. by subst. }
      split_and!.
      + rewrite map_app. apply NoDup_app. split_and!; try done.
        intros q (c1 & Hq1 & Hc1)%list_elem_of_fmap (c2 & Hq2 & Hc2)%list_elem_of_fmap.
        apply (Hdisj c1 c2 Hc1 Hc2 name); [by apply Hu1|].
        rewrite <- Hq2, Hq1. by apply Hu1.
      + intros c1 c2 [Hc1|Hc1]%elem_of_app [Hc2|Hc2]%elem_of_app Hb.
        * by apply (Hdesc c1 c2).
        * destruct (Hdisj c1 c2 Hc1 Hc2 name); [by apply Hu1|].
          eapply under_step; [by apply Hu1|done].
        * destruct (Hu2 _ Hc1) as (nm & Hin & Hun).
          destruct (Hdisj c2 c1 Hc2 Hc1 nm); [|done].
          eapply under_step; [exact Hun|done].
        * by apply (Hdesc2 c1 c2).
      + intros -> nm ch Hassoc. simpl in Hassoc.
        destruct (String.eqb_spec name nm) as [<-|Hne].
        * injection Hassoc as <-. split.
          -- destruct H0 as (c0 & r0 & -> & Hp0 & Hd0). exists c0.
             split_and!; [|done..]. apply elem_of_app. left.
             apply elem_of_cons. by left.
          -- intros rel es nm' child' c Hl Hin [Hc|Hc]%elem_of_app Hpath Hnone.
             ++ assert (Hc1 : err1 = None ∨ err1 = Some SkipDir)
                  by (destruct Herr1 as [?|[? _]]; auto).
                destruct (Hcomp Hc1 rel es nm' child' c Hl Hin Hc Hpath Hnone)
                  as (c' & Hc' & ?). exists c'. split; [|done].
                apply elem_of_app. by left.
             ++ destruct (Hu2 _ Hc) as (nm2 & Hin2 & Hun2').
                assert (name = nm2) as ->; [|by destruct Hname].
                eapply under_unique; [|exact Hun2'].
                rewrite Hpath. apply under_app.
        * destruct (Hcomp2 eq_refl nm ch Hassoc) as ((c' & Hc' & Hp' & Hd') & Hcm).
          split.
          -- exists c'. split_and!; [|done..]. apply elem_of_app. by right.
          -- intros rel es nm' child' c Hl Hin [Hc|Hc]%elem_of_app Hpath Hnone.
             ++ destruct Hne. eapply under_unique; [by apply (Hu1 c)|].
                rewrite Hpath. apply under_app.
             ++ destruct (Hcm rel es nm' child' c Hl Hin Hc Hpath Hnone)
                  as (c'' & Hc'' & ?). exists c''. split; [|done].
                apply elem_of_app. by right.
      + intros c [Hc|Hc]%elem_of_app.
        * destruct (Hloc c Hc) as (rel & n' & Hp & Hl & Hd).
          exists (name :: rel), n'. split_and!; [|simpl|done].
          -- rewrite Hp. unfold Join. by rewrite <- app_assoc.
          -- by rewrite String.eqb_refl.
        * destruct (Hloc2 c Hc) as (rel & n' & Hp & Hl & Hd).
          exists rel, n'. split_and!; [done| |done].
          destruct rel as [|nm rel'].
          { rewrite app_nil_r in Hp. destruct (Hu2 c Hc) as (nm2 & _ & Hun).
            rewrite Hp in Hun. by apply under_not_self in Hun. }
          simpl in Hl |- *.
          destruct (String.eqb_spec name nm) as [<-|Hne]; [|done].
          destruct (assoc name rest) as [ch|] eqn:Hassoc; [|done].
          destruct Hname. apply list_elem_of_fmap. exists (name, ch).
          split; [done|]. by apply assoc_Some_elem_of. }
  destruct err1 as [e|].
  - destruct (negb (isDir child) || negb (is_SkipDir e)) eqn:Hcond.
    + by apply (Hstop e).
    + apply orb_false_iff in Hcond as [Hd He].
      apply negb_false_iff in Hd, He. destruct e; try done.
      apply Hgo; [|done]. right. done.
  - apply Hgo; [by left|done].
Qed.

Lemma walk_walked n : walk_spec fs base n.
Proof.
  induction n as [n Hleaf|entries IH] using node_tree_ind;
    intros p paths w err paths' w' Hrun.
  - rewrite walk_not_Dir in Hrun by done.
    apply accounted_call in Hrun as (c & Hp & Hd & <- & Hacc).
    exists [c]. split; [done|].
    destruct (walked_single p n c) as [Hb Ho]; [done|congruence|done|]. auto.
  - rewrite walk_Dir in Hrun.
    destruct (scanFn fs base p true None paths (emit (Visit p true) w))
      as [[err1 a1] w1] eqn:Hcall.
    apply accounted_call in Hcall as (c0 & Hp0 & Hd0 & He0 & Hacc0).
    destruct err1 as [e|].
    { injection Hrun as <- <- <-. exists [c0]. split; [done|].
      rewrite <- He0.
      destruct (walked_single p (Dir entries) c0) as [Hb Ho];
        [done|done|congruence|]. auto. }
    destruct (walk_entries_walked p entries IH _ _ _ _ _ Hrun)
      as (cs & Hacc & (Hun & Herr & Hns) & Hwfe).
    exists (c0 :: cs). split; [by apply (accounted_app _ _ _ _ _ _ _ _ [c0] cs Hacc0)|].
    assert (Hu : ∀ c, c ∈ cs → ∃ nm, nm ∈ entries.*1 ∧ under p nm (c_path c)).
    { intros c Hc. by apply (proj1 (Forall_forall _ _) Hun). }
    split; [split_and!|].
    + by exists c0, cs.
    + constructor; [by left|]. apply Forall_forall. intros c Hc.
      destruct (Hu c Hc) as (nm & _ & Hnm). right. by eapply under_below_self.
    + constructor; [by left|done].
    + intros ->. done.
    + intros Hwf. apply names_distinct_Dir in Hwf as [Hnd Hwf].
      destruct (Hwfe Hnd Hwf) as (Hndc & Hdesc & Hcomp & Hloc).
      split_and!; [| | |intros c [->|Hc]%elem_of_cons;
                         [exists [], (Dir entries); by rewrite app_nil_r
                         |by apply Hloc]].
      * simpl. apply NoDup_cons. split; [|done].
        intros (c & Hq & Hc)%list_elem_of_fmap.
        destruct (Hu c Hc) as (nm & _ & Hnm).
        rewrite <- Hq, Hp0 in Hnm. by apply under_not_self in Hnm.
      * intros c1 c2 [->|Hc1]%elem_of_cons [->|Hc2]%elem_of_cons Hb; try done.
        -- destruct (Hu c1 Hc1) as (nm & _ & Hnm).
           rewrite Hp0 in Hb. by apply (not_below_under _ _ _ Hnm) in Hb.
        -- by apply (Hdesc c1 c2).
      * intros [-> | ->]; [|done].
        intros rel es name child c Hl Hin Hc Hpath Hnone.
        destruct rel as [|nm rel'].
        -- simpl in Hl. injection Hl as <-.
           destruct (Hcomp eq_refl name child (assoc_elem_of _ _ _ Hnd Hin))
             as ((c' & Hc' & Hp' & Hd') & _).
           exists c'. split_and!; [|done..]. apply elem_of_cons. by right.
        -- simpl in Hl. destruct (assoc nm entries) as [ch|] eqn:Hassoc; [|done].
           destruct (Hcomp eq_refl nm ch Hassoc) as (_ & Hcm).
           apply elem_of_cons in Hc as [->|Hc].
           { rewrite Hp0 in Hpath. apply (f_equal length) in Hpath.
             rewrite length_app in Hpath. simpl in Hpath. lia. }
           destruct (Hcm rel' es name child c Hl Hin Hc) as (c' & Hc' & Hp' & Hd').
           { by rewrite <- app_assoc. }
           { done. }
           exists c'. split_and!; [apply elem_of_cons; by right| |done].
           rewrite Hp'. by rewrite <- !app_assoc.
Qed.

(** The whole scan: either nothing is walked, or the walk starts at the
    node [lstat] finds at [base]. *)
Lemma scan_calls w files err w' :
  scan fs base w = (files, err, w') →
  (∃ e, err = Some e ∧ e ≠ SkipDir ∧ files = [] ∧ w' = w)
  ∨ (∃ phys n calls,
       lstat_path (tree w) base = Some phys
       ∧ lookup_node (tree w) phys = Some n
       ∧ accounted fs base w w' [] files calls
       ∧ walked base n err calls
       ∧ (names_distinct n = true → walked_once base n err calls)
       ∧ err ≠ Some SkipDir).
Proof.
  unfold scan, fs_Walk, filepath_Walk. intros Hs.
  destruct (isSecurePath fs (tree w) base) as [ph|e] eqn:Hsec.
  2:{ injection Hs as <- <- <-. left. exists e.
      split_and!; try done. by eapply isSecurePath_not_SkipDir. }
  destruct (lstat_path (tree w) base) as [phys|] eqn:Hlstat.
  2:{ simpl in Hs. injection Hs as <- <- <-. left. eexists. by split_and!. }
  destruct (lookup_node (tree w) phys) as [n|] eqn:Hn.
  2:{ simpl in Hs. injection Hs as <- <- <-. left. eexists. by split_and!. }
  destruct (walk (scanFn fs base) base n [] w) as [[err0 a0] w0] eqn:Hwalk.
  destruct (walk_walked n _ _ _ _ _ _ Hwalk) as (calls & Hacc & Hw & Hwf).
  assert (Hns : err0 ≠ Some SkipDir).
  { intros ->. pose proof Hw as (H0 & _ & _ & Hskip).
    destruct (Hskip eq_refl) as (c0 & -> & He).
    destruct H0 as (c0' & rest & [= <- <-] & Hp & _).
    destruct Hacc as (evs & _ & _ & _ & _ & _ & Hok).
    apply Forall_inv in Hok. unfold call_ok in Hok.
    rewrite bool_decide_true in Hok by done. destruct Hok as [Hok _].
    congruence. }
  assert ((files, err, w') = (a0, err0, w0)) as [= -> -> ->].
  { destruct err0 as [[]|]; try done; congruence. }
  right. exists phys, n, calls. by split_and!.
Qed.

Lemma elem_of_concat {A} (x : A) (ls : list (list A)) :
  x ∈ concat ls → ∃ l, x ∈ l ∧ l ∈ ls.
Proof.
  induction ls as [|l ls IH]; simpl.
  - intros Hin. by apply elem_of_nil in Hin.
  - intros [Hin|Hin]%elem_of_app.
    + exists l. split; [done|]. apply elem_of_cons. by left.
    + destruct (IH Hin) as (l' & ? & ?). exists l'. split; [done|].
      apply elem_of_cons. by right.
Qed.

Lemma reads_call evs calls q phys :
  reads evs = concat (map c_reads calls) →
  (q, phys) ∈ reads evs → ∃ c, c ∈ calls ∧ (q, phys) ∈ c_reads c.
Proof.
  intros -> Hin. apply elem_of_concat in Hin as (l & Hin & Hl).
  apply list_elem_of_fmap in Hl as (c & -> & Hc). eauto.
Qed.

Lemma added_call files calls q :
  files = [] ++ concat (map c_added calls) →
  q ∈ files → ∃ c, c ∈ calls ∧ q ∈ c_added c.
Proof.
  simpl. intros -> Hin. apply elem_of_concat in Hin as (l & Hin & Hl).
  apply list_elem_of_fmap in Hl as (c & -> & Hc). eauto.
Qed.

Lemma visits_call evs calls q b :
  visits evs = map (λ c, (c_path c, c_dir c)) calls →
  (q, b) ∈ visits evs → ∃ c, c ∈ calls ∧ c_path c = q ∧ c_dir c = b.
Proof.
  intros -> Hin. apply list_elem_of_fmap in Hin as (c & [= -> ->] & Hc). eauto.
Qed.
End Walked.

Lemma elem_of_concat_2 {A} (x : A) (l : list A) (ls : list (list A)) :
  x ∈ l → l ∈ ls → x ∈ concat ls.
Proof.
  intros Hx Hl. induction ls as [|l' ls IH]; simpl.
  - by apply elem_of_nil in Hl.
  - apply elem_of_app. apply elem_of_cons in Hl as [->|Hl]; auto.
Qed.

(** The reads of a call, read off [call_ok]. *)
Lemma call_ok_reads `{Libraries} fs base t c q phys :
  call_ok fs base t c → (q, phys) ∈ c_reads c →
  c_path c = q ∧ q ≠ base ∧ c_dir c = false ∧ yaml_ext q = true
  ∧ isSecurePath fs t q = Ok phys
  ∧ ∀ data, lookup_node t phys = Some (File data) →
      match SliceFromBytes data with
      | Some e => c_err c = Some (DecodeError (path_string q) e) ∧ c_added c = []
      | None => c_err c = None ∧ c_added c = [q]
      end.
Proof.
  unfold call_ok. intros Hok Hin.
  case_bool_decide as Hb.
  { destruct Hok as (_ & _ & Hr). rewrite Hr in Hin. by apply elem_of_nil in Hin. }
  destruct (c_dir c).
  { destruct Hok as (Hr & _). rewrite Hr in Hin. by apply elem_of_nil in Hin. }
  destruct (negb (yaml_ext (c_path c))) eqn:Hy.
  { destruct Hok as (_ & _ & Hr). rewrite Hr in Hin. by apply elem_of_nil in Hin. }
  apply negb_false_iff in Hy.
  destruct (isSecurePath fs t (c_path c)) as [ph|e] eqn:Hsec.
  2:{ destruct Hok as (_ & _ & Hr). rewrite Hr in Hin. by apply elem_of_nil in Hin. }
  destruct Hok as (Hr & Hok). rewrite Hr in Hin.
  apply list_elem_of_singleton in Hin. injection Hin as -> ->.
  split_and!; try done. intros data Hl. by rewrite Hl in Hok.
Qed.

(** Why a path was appended, read off [call_ok]. *)
Lemma call_ok_added_why `{Libraries} fs base t c q :
  call_ok fs base t c → q ∈ c_added c →
  c_path c = q ∧ q ≠ base
  ∧ ((c_dir c = true ∧ has_descriptor fs t q = true)
     ∨ (c_dir c = false ∧ yaml_ext q = true
        ∧ ∃ phys data, (q, phys) ∈ c_reads c
            ∧ lookup_node t phys = Some (File data)
            ∧ SliceFromBytes data = None)).
Proof.
  unfold call_ok. intros Hok Hin.
  case_bool_decide as Hb.
  { destruct Hok as (_ & Ha & _). rewrite Ha in Hin. by apply elem_of_nil in Hin. }
  destruct (c_dir c).
  { destruct Hok as (_ & Hok).
    destruct (has_descriptor fs t (c_path c)) eqn:Hd; destruct Hok as (_ & Ha);
      rewrite Ha in Hin; [|by apply elem_of_nil in Hin].
    apply list_elem_of_singleton in Hin as ->. split_and!; try done. by left. }
  destruct (negb (yaml_ext (c_path c))) eqn:Hy.
  { destruct Hok as (_ & Ha & _). rewrite Ha in Hin. by apply elem_of_nil in Hin. }
  apply negb_false_iff in Hy.
  destruct (isSecurePath fs t (c_path c)) as [ph|e] eqn:Hsec.
  2:{ destruct Hok as (_ & Ha & _). rewrite Ha in Hin. by apply elem_of_nil in Hin. }
  destruct Hok as (Hr & Hok).
  destruct (lookup_node t ph) as [[data|ents|tg]|] eqn:Hl;
    try (destruct Hok as (_ & Ha); rewrite Ha in Hin; by apply elem_of_nil in Hin).
  destruct (SliceFromBytes data) eqn:Hdec; destruct Hok as (_ & Ha);
    rewrite Ha in Hin; [by apply elem_of_nil in Hin|].
  apply list_elem_of_singleton in Hin as ->. split_and!; try done. right.
  split_and!; try done. exists ph, data. rewrite Hr.
  split_and!; try done. by apply list_elem_of_singleton.
Qed.

Lemma lookup_node_snoc (n : node) (rel : path) (name : string) (n' : node) :
  lookup_node n (rel ++ [name]) = Some n' →
  ∃ es, lookup_node n rel = Some (Dir es) ∧ assoc name es = Some n'.
Proof.
  revert n. induction rel as [|c rel IH]; intros n; simpl.
  - destruct n as [|es|]; try done.
    destruct (assoc name es) as [child|] eqn:Ha; [|done].
    intros [= ->]. by exists es.
  - destruct n as [|es|]; try done.
    destruct (assoc c es) as [child|]; [|done]. apply IH.
Qed.

(** On a scan that succeeded the walk came to every node that no
    directory with a kustomization file lies above. *)
Lemma scan_reaches `{Libraries} fs base t n calls :
  walked base n None calls →
  walked_once base n None calls →
  Forall (call_ok fs base t) calls →
  ∀ rel n',
    lookup_node n rel = Some n' →
    (∀ pre suf, rel = pre ++ suf → pre ≠ [] → suf ≠ [] →
       has_descriptor fs t (base ++ pre) = false) →
    ∃ c, c ∈ calls ∧ c_path c = base ++ rel ∧ c_dir c = isDir n'.
Proof.
  intros (H0 & _) (_ & _ & Hcomp & _) Hok.
  specialize (Hcomp (or_introl eq_refl)).
  induction rel as [|name rel IH] using rev_ind; intros n' Hl Hopen.
  - simpl in Hl. injection Hl as <-.
    destruct H0 as (c0 & rest & -> & Hp & Hd). exists c0.
    rewrite app_nil_r. split_and!; [apply elem_of_cons; by left|done..].
  - apply lookup_node_snoc in Hl as (es & Hl & Ha).
    destruct (IH (Dir es) Hl) as (c & Hc & Hp & Hd).
    { intros pre suf -> Hpre Hsuf.
      apply (Hopen pre (suf ++ [name])); [by rewrite app_assoc|done|].
      by destruct suf. }
    pose proof (proj1 (Forall_forall _ _) Hok c Hc) as Hcok.
    assert (Hnone : c_err c = None).
    { unfold call_ok in Hcok. rewrite Hp, Hd in Hcok. simpl in Hcok.
      case_bool_decide as Hb; [apply Hcok|].
      destruct Hcok as (_ & Hcok).
      rewrite (Hopen rel [name]) in Hcok; [apply Hcok|done| |done].
      intros ->. by rewrite app_nil_r in Hb. }
    destruct (Hcomp rel es name n' c Hl (assoc_Some_elem_of _ _ _ Ha)
                Hc Hp Hnone) as (c' & Hc' & Hp' & Hd').
    by exists c'.
Qed.

(** C5.  When [generateKustomization] has found no kustomization file and
    scans: a file the scan read whose content does not decode makes the
    scan fail with the error that names this file; every non-directory the
    walk came to with the extension [.yaml] or [.yml] was read, unless the
    file system refused its path, which fails the scan as well; nothing
    with another extension was read; a path is only recorded for a file
    that was read and decoded, or for a directory with a kustomization
    file; when the scan fails, [generateKustomization] and [WriteFile]
    return its error, the tree is as it was and no write was issued.  And
    the scan does fail when the tree (no directory of which lists a name
    twice) holds, below the target directory and below no sub-directory
    with a kustomization file, a non-directory with the extension [.yaml]
    or [.yml] whose content does not decode: the error names that file
    when the walk came to it, and is otherwise the error at which the walk
    stopped before. *)
Theorem malformed_file_fails_generation `{Libraries} :
  ∀ (kg : KustomizeGenerator) (dirPath : path) (w w1 w2 : World)
    (fs : fsSecure) (files : list path) (err : option error),
    MakeFsOnDiskSecure (root kg) w = Ok fs →
    hasKustomizationFile fs dirPath RecognizedKustomizationFileNames w
      = (false, w1) →
    scan fs dirPath w1 = (files, err, w2) →
    ∃ evs,
      extends w1 w2 evs
      ∧ (∀ q phys data e,
           (q, phys) ∈ reads evs →
           lookup_node (tree w) phys = Some (File data) →
           SliceFromBytes data = Some e →
           err = Some (DecodeError (path_string q) e))
      ∧ (∀ q, (q, false) ∈ visits evs → q ≠ dirPath → yaml_ext q = true →
           (∃ phys, (q, phys) ∈ reads evs)
           ∨ (∃ e, isSecurePath fs (tree w) q = Err e ∧ err = Some e))
      ∧ (∀ q phys, (q, phys) ∈ reads evs → yaml_ext q = true)
      ∧ (∀ q, q ∈ files →
           ((q, true) ∈ visits evs ∧ has_descriptor fs (tree w) q = true)
           ∨ (yaml_ext q = true
              ∧ ∃ phys data, (q, phys) ∈ reads evs
                  ∧ lookup_node (tree w) phys = Some (File data)
                  ∧ SliceFromBytes data = None))
      ∧ (∀ e, err = Some e →
           generateKustomization kg dirPath w = (Some e, w2)
           ∧ WriteFile kg dirPath w = (Some e, w2)
           ∧ tree w2 = tree w
           ∧ ∃ evs0, log w2 = log w ++ evs0 ∧ writes evs0 = [])
      ∧ (∀ lp n rel n' phys data e,
           lstat_path (tree w) dirPath = Some lp →
           lookup_node (tree w) lp = Some n →
           names_distinct n = true →
           rel ≠ [] →
           lookup_node n rel = Some n' →
           isDir n' = false →
           (∀ pre suf, rel = pre ++ suf → pre ≠ [] → suf ≠ [] →
              has_descriptor fs (tree w) (dirPath ++ pre) = false) →
           yaml_ext (dirPath ++ rel) = true →
           isSecurePath fs (tree w) (dirPath ++ rel) = Ok phys →
           lookup_node (tree w) phys = Some (File data) →
           SliceFromBytes data = Some e →
           ∃ e0,
             err = Some e0
             ∧ ((dirPath ++ rel, false) ∈ visits evs →
                e0 = DecodeError (path_string (dirPath ++ rel)) e)).
Proof.
  intros kg dirPath w w1 w2 fs files err Hfs Hk Hscan.
  destruct (hasKustomizationFile_spec fs dirPath RecognizedKustomizationFileNames w)
    as (w1' & evk & Hk' & Hxk & Hqk).
  rewrite Hk in Hk'. injection Hk' as _ <-.
  assert (Ht1 : tree w1 = tree w) by apply Hxk.
  assert (Hgen : ∀ e evs, err = Some e → extends w1 w2 evs → writes evs = [] →
    generateKustomization kg dirPath w = (Some e, w2)
    ∧ WriteFile kg dirPath w = (Some e, w2)
    ∧ tree w2 = tree w
    ∧ ∃ evs0, log w2 = log w ++ evs0 ∧ writes evs0 = []).
  { intros e evs -> Hx Hw.
    assert (Hg : generateKustomization kg dirPath w = (Some e, w2)).
    { unfold generateKustomization, generateFromScan. by rewrite Hfs, Hk, Hscan. }
    split_and!; [done|unfold WriteFile; by rewrite Hg| |].
    - destruct Hx as (-> & _). done.
    - exists (evk ++ evs). pose proof (extends_trans _ _ _ _ _ Hxk Hx) as (_ & _ & ->).
      split; [done|]. rewrite writes_app, Hw.
      destruct Hqk as (_ & _ & ->). done. }
  apply scan_calls in Hscan
    as [(e & -> & Hne & -> & ->)
       |(phys & n & calls & Hlstat & Hn & Hacc & Hw & Hwo & Hns)].
  { exists []. split; [apply extends_refl|].
    split_and!; simpl; try (intros; exfalso; eapply elem_of_nil; eassumption).
    - intros e' [= <-]. apply (Hgen e []); [done|apply extends_refl|done].
    - intros. exists e. split; [done|].
      intros Hin. by apply elem_of_nil in Hin. }
  destruct Hacc as (evs & Hx & Hwr & Hv & Hr & Hf & Hok).
  rewrite Ht1 in Hok, Hlstat, Hn.
  pose proof Hw as (_ & _ & Herr & _).
  assert (Hcall : ∀ c, c ∈ calls →
            call_ok fs dirPath (tree w) c
            ∧ (c_err c = None ∨ c_err c = Some SkipDir ∨ c_err c = err)).
  { intros c Hc. split.
    - by apply (proj1 (Forall_forall _ _) Hok).
    - by apply (proj1 (Forall_forall _ _) Herr). }
  exists evs. split; [done|]. split_and!.
  - intros q ph data e Hin Hl Hdec.
    destruct (reads_call _ _ _ _ Hr Hin) as (c & Hc & Hcr).
    destruct (Hcall c Hc) as (Hcok & Hce).
    destruct (call_ok_reads _ _ _ _ _ _ Hcok Hcr) as (_ & _ & _ & _ & _ & Hd).
    specialize (Hd data Hl). rewrite Hdec in Hd. destruct Hd as [Hd _].
    rewrite Hd in Hce. destruct Hce as [?|[?|?]]; done.
  - intros q Hin Hq Hy.
    destruct (visits_call _ _ _ _ Hv Hin) as (c & Hc & Hp & Hd).
    destruct (Hcall c Hc) as (Hcok & Hce).
    unfold call_ok in Hcok. rewrite Hp, Hd, Hy in Hcok.
    rewrite bool_decide_false in Hcok by done. simpl in Hcok.
    destruct (isSecurePath fs (tree w) q) as [ph|e] eqn:Hsec.
    + left. exists ph. rewrite Hr. destruct Hcok as (Hcr & _).
      apply (elem_of_concat_2 _ (c_reads c));
        [|apply list_elem_of_fmap; by exists c].
      rewrite Hcr. by apply list_elem_of_singleton.
    + right. exists e. split; [done|]. destruct Hcok as (He & _).
      rewrite He in Hce. destruct Hce as [?|[[= ->]|?]]; try done.
      by apply isSecurePath_not_SkipDir in Hsec.
  - intros q ph Hin.
    destruct (reads_call _ _ _ _ Hr Hin) as (c & Hc & Hcr).
    destruct (Hcall c Hc) as (Hcok & _).
    by destruct (call_ok_reads _ _ _ _ _ _ Hcok Hcr) as (_ & _ & _ & ? & _).
  - intros q Hin.
    destruct (added_call _ _ _ Hf Hin) as (c & Hc & Hca).
    destruct (Hcall c Hc) as (Hcok & _).
    destruct (call_ok_added_why _ _ _ _ _ Hcok Hca)
      as (Hp & _ & [(Hd & Hk')|(Hd & Hy & ph & data & Hcr & Hl & Hdec)]).
    + left. split; [|done]. rewrite Hv.
      apply list_elem_of_fmap. exists c. by rewrite Hp, Hd.
    + right. split; [done|]. exists ph, data. split_and!; try done.
      rewrite Hr. apply (elem_of_concat_2 _ (c_reads c)); [exact Hcr|].
      apply list_elem_of_fmap. by exists c.
  - intros e He. by apply (Hgen e evs).
  - intros lp n0 rel n' ph data e Hlstat' Hn' Hwf Hrel Hl Hleaf Hopen Hy Hsec
      Hdata Hdec.
    rewrite Hlstat in Hlstat'. injection Hlstat' as <-.
    rewrite Hn in Hn'. injection Hn' as <-.
    assert (Hb : dirPath ++ rel ≠ dirPath).
    { intros Heq. apply Hrel. apply (inj (app dirPath)). by rewrite app_nil_r. }
    assert (Hbad : ∀ c, c ∈ calls → c_path c = dirPath ++ rel →
              c_dir c = false →
              err = Some (DecodeError (path_string (dirPath ++ rel)) e)).
    { intros c Hc Hp Hd. destruct (Hcall c Hc) as (Hcok & Hce).
      unfold call_ok in Hcok. rewrite Hp, Hd, Hy, Hsec, Hdata, Hdec in Hcok.
      rewrite bool_decide_false in Hcok by done. simpl in Hcok.
      destruct Hcok as (_ & He & _). rewrite He in Hce.
      destruct Hce as [?|[?|?]]; done. }
    destruct err as [e0|].
    + exists e0. split; [done|]. intros Hin.
      destruct (visits_call _ _ _ _ Hv Hin) as (c & Hc & Hp & Hd).
      specialize (Hbad c Hc Hp Hd). congruence.
    + exfalso.
      destruct (scan_reaches fs dirPath (tree w) n calls Hw (Hwo Hwf) Hok
                  rel n' Hl Hopen) as (c & Hc & Hp & Hd).
      rewrite Hleaf in Hd. by specialize (Hbad c Hc Hp Hd).
Qed.

(** A malformed file below a sub-directory with a kustomization file is
    not read: the scan and [WriteFile] succeed on a tree that holds
    one. *)
Lemma malformed_file_below_nested_descriptor_is_skipped :
  let kg := NewGenerator ["r"] spec_prod in
  let w := world_of tree_app in
  let s := @scan testdata fs_r ["r"; "d"] w in
  lookup_node tree_app ["r"; "d"; "nested"; "bad.yaml"] = Some (File "oops")
  ∧ yaml_ext ["r"; "d"; "nested"; "bad.yaml"] = true
  ∧ @SliceFromBytes testdata "oops" = Some (LibError "missing Resource metadata")
  ∧ snd (fst s) = None
  ∧ reads (log (snd s))
    = [(["r"; "d"; "a.yaml"], ["r"; "d"; "a.yaml"]);
       (["r"; "d"; "sub"; "b.yml"], ["r"; "d"; "sub"; "b.yml"])]
  ∧ fst (@generateKustomization testdata kg ["r"; "d"] w) = None
  ∧ fst (@WriteFile testdata kg ["r"; "d"] w) = None
  ∧ lookup_node (tree (snd (@generateKustomization testdata kg ["r"; "d"] w)))
      ["r"; "d"; "kustomization.yaml"]
    = Some (File ("namespace: " +:+ newline +:+ "- ./a.yaml" +:+ newline
                  +:+ "- ./nested" +:+ newline +:+ "- ./sub/b.yml" +:+ newline)).
Proof. vm_compute. done. Qed.

(** ** Nested kustomization files *)

Lemma NoDup_fmap_eq {A B} (f : A → B) (l : list A) x y :
  NoDup (f <$> l) → x ∈ l → y ∈ l → f x = f y → x = y.
Proof.
  induction l as [|a l IH]; intros Hnd Hx Hy Heq.
  - by apply elem_of_nil in Hx.
  - rewrite fmap_cons in Hnd. apply NoDup_cons in Hnd as [Ha Hnd].
    apply elem_of_cons in Hx as [->|Hx]; apply elem_of_cons in Hy as [->|Hy];
      try done.
    + destruct Ha. rewrite Heq. apply list_elem_of_fmap. by exists y.
    + destruct Ha. rewrite <- Heq. apply list_elem_of_fmap. by exists x.
    + by apply IH.
Qed.

Lemma NoDup_added (calls : list call) :
  (∀ c, c ∈ calls → c_added c = [] ∨ c_added c = [c_path c]) →
  NoDup (map c_path calls) →
  NoDup (concat (map c_added calls)).
Proof.
  induction calls as [|c calls IH]; intros Hadd Hnd; simpl; [constructor|].
  simpl in Hnd. apply NoDup_cons in Hnd as [Hc Hnd].
  assert (IH' : NoDup (concat (map c_added calls))).
  { apply IH; [|done]. intros c' Hc'. apply Hadd. apply elem_of_cons. by right. }
  destruct (Hadd c) as [-> | ->]; [apply elem_of_cons; by left|done|].
  simpl. apply NoDup_cons. split; [|done].
  intros (l & Hin & Hl)%elem_of_concat.
  apply list_elem_of_fmap in Hl as (c' & -> & Hc').
  destruct (Hadd c') as [Ha|Ha]; [apply elem_of_cons; by right| |];
    rewrite Ha in Hin.
  - by apply elem_of_nil in Hin.
  - apply list_elem_of_singleton in Hin. destruct Hc. rewrite Hin.
    apply list_elem_of_fmap. by exists c'.
Qed.

Lemma filter_eq_absent {A} `{EqDecision A} (x : A) (l : list A) :
  x ∉ l → filter (λ y, y = x) l = [].
Proof.
  induction l as [|a l IH]; intros Hx; [done|].
  apply not_elem_of_cons in Hx as [Hne Hx].
  rewrite filter_cons_False by congruence. by apply IH.
Qed.

Lemma filter_eq_once {A} `{EqDecision A} (x : A) (l : list A) :
  NoDup l → x ∈ l → length (filter (λ y, y = x) l) = 1.
Proof.
  induction l as [|a l IH]; intros Hnd Hx.
  - by apply elem_of_nil in Hx.
  - apply NoDup_cons in Hnd as [Ha Hnd].
    destruct (decide (a = x)) as [->|Hne].
    + rewrite filter_cons_True by done. simpl.
      by rewrite filter_eq_absent.
    + rewrite filter_cons_False by done. apply IH; [done|].
      apply elem_of_cons in Hx as [?|?]; [congruence|done].
Qed.

(** C4.  In a tree no directory of which lists a name twice: a directory
    other than the starting one that the scan came to and that has a
    kustomization file is recorded exactly once, and the walk came to
    nothing below it; one that has none is not recorded, and when the scan
    succeeds the walk came to every entry of it. *)
Theorem nested_descriptor_recorded_once `{Libraries} :
  ∀ (fs : fsSecure) (base : path) (w w' : World) (files : list path)
    (err : option error) (phys : path) (n : node),
    scan fs base w = (files, err, w') →
    lstat_path (tree w) base = Some phys →
    lookup_node (tree w) phys = Some n →
    names_distinct n = true →
    ∃ evs,
      extends w w' evs
      ∧ ∀ d, (d, true) ∈ visits evs → d ≠ base →
          if has_descriptor fs (tree w) d
          then length (filter (λ q, q = d) files) = 1
               ∧ ∀ q b, (q, b) ∈ visits evs → ¬ below d q
          else (d ∉ files)
               ∧ ∃ rel es,
                   d = base ++ rel
                   ∧ lookup_node n rel = Some (Dir es)
                   ∧ (err = None →
                      ∀ name child,
                        (name, child) ∈ es →
                        (d ++ [name], isDir child) ∈ visits evs).
Proof.
  intros fs base w w' files err phys n Hscan Hlstat Hn Hwf.
  apply scan_calls in Hscan
    as [(e & -> & Hne & -> & ->)
       |(phys' & n' & calls & Hlstat' & Hn' & Hacc & Hw & Hwo & Hns)].
  { exists []. split; [apply extends_refl|].
    intros d Hd. by apply elem_of_nil in Hd. }
  rewrite Hlstat in Hlstat'. injection Hlstat' as <-.
  rewrite Hn in Hn'. injection Hn' as <-.
  destruct (Hwo Hwf) as (Hnd & Hdesc & Hcomp & Hloc).
  destruct Hacc as (evs & Hx & Hwr & Hv & Hr & Hf & Hok).
  assert (Hcall : ∀ c, c ∈ calls → call_ok fs base (tree w) c).
  { intros c Hc. by apply (proj1 (Forall_forall _ _) Hok). }
  assert (Hfiles : NoDup files).
  { rewrite Hf. simpl. apply NoDup_added; [|done].
    intros c Hc. destruct (call_ok_added _ _ _ _ (Hcall c Hc)) as [?|[? _]]; auto. }
  exists evs. split; [done|].
  intros d Hd Hdb.
  destruct (visits_call _ _ _ _ Hv Hd) as (c & Hc & Hp & Hdir).
  pose proof (Hcall c Hc) as Hcok. unfold call_ok in Hcok.
  rewrite Hp, Hdir in Hcok. rewrite bool_decide_false in Hcok by done.
  destruct Hcok as (_ & Hcok).
  destruct (has_descriptor fs (tree w) d) eqn:Hhas; destruct Hcok as (He & Ha).
  - split.
    + apply filter_eq_once; [done|]. rewrite Hf. simpl.
      apply (elem_of_concat_2 _ (c_added c)).
      * rewrite Ha. by apply list_elem_of_singleton.
      * apply list_elem_of_fmap. by exists c.
    + intros q b Hq Hbelow.
      destruct (visits_call _ _ _ _ Hv Hq) as (c2 & Hc2 & Hp2 & _).
      assert (c_err c = None); [|congruence].
      apply (Hdesc c c2 Hc Hc2). by rewrite Hp, Hp2.
  - split.
    + intros Hin. destruct (added_call _ _ _ Hf Hin) as (c2 & Hc2 & Hin2).
      destruct (call_ok_added _ _ _ _ (Hcall c2 Hc2)) as [Ha2|[Ha2 _]];
        rewrite Ha2 in Hin2; [by apply elem_of_nil in Hin2|].
      apply list_elem_of_singleton in Hin2.
      assert (c2 = c) as ->.
      { apply (NoDup_fmap_eq c_path calls); try done. congruence. }
      rewrite Ha in Ha2. done.
    + destruct (Hloc c Hc) as (rel & n' & Hrel & Hl & Hdn).
      rewrite Hdir in Hdn. destruct n' as [|es|]; try done.
      rewrite Hp in Hrel. exists rel, es. split_and!; [done..|].
      intros -> name child Hin.
      destruct (Hcomp (or_introl eq_refl) rel es name child c Hl Hin Hc)
        as (c' & Hc' & Hp' & Hd'); [congruence|done|].
      rewrite Hv. apply list_elem_of_fmap. exists c'.
      by rewrite Hp', Hd', Hrel, <- app_assoc.
Qed.

(** ** What counts as a kustomization file *)

Lemma is_descriptor_iff fs t kpath :
  is_descriptor fs t kpath = true ↔ descriptor_file fs t kpath.
Proof.
  unfold is_descriptor, exists_in, isdir_in, descriptor_file.
  destruct (isSecurePath fs t kpath) as [phys|e]; simpl.
  - destruct (lookup_node t phys) as [n|] eqn:Hl; simpl.
    + rewrite negb_true_iff. split.
      * intros Hd. by exists phys, n.
      * intros (ph & n' & [= <-] & Hl' & Hd). congruence.
    + split; [done|].
      intros (ph & n' & [= <-] & Hl' & _). congruence.
  - split; [done|]. by intros (ph & n' & ? & _).
Qed.

Lemma has_descriptor_iff fs t dir :
  has_descriptor fs t dir = true ↔
  ∃ kfilename, kfilename ∈ RecognizedKustomizationFileNames
               ∧ descriptor_file fs t (Join dir kfilename).
Proof.
  unfold has_descriptor. rewrite existsb_exists. split.
  - intros (k & Hin & Hk). exists k. split; [by apply list_elem_of_In|].
    by apply is_descriptor_iff.
  - intros (k & Hin & Hk). exists k. split; [by apply list_elem_of_In|].
    by apply is_descriptor_iff.
Qed.

(** C10.  Both loops over the recognized names find a kustomization file
    exactly when one of the names leads, inside the root, to something
    that is not a directory.  So a directory that carries one of the names
    does not count: [generateKustomization] returns at once only in the
    first case and otherwise goes on to scan and generate, and the
    callback of the scan records a directory and skips it only in the
    first case and otherwise lets the walk go on into it. *)
Theorem directory_named_like_descriptor_does_not_count `{Libraries} :
  ∀ (kg : KustomizeGenerator) (dirPath : path) (w : World) (fs : fsSecure),
    MakeFsOnDiskSecure (root kg) w = Ok fs →
    (∀ dir,
       has_descriptor fs (tree w) dir = true ↔
       ∃ kfilename, kfilename ∈ RecognizedKustomizationFileNames
                    ∧ descriptor_file fs (tree w) (Join dir kfilename))
    ∧ (∀ dir kfilename phys entries,
         isSecurePath fs (tree w) (Join dir kfilename) = Ok phys →
         lookup_node (tree w) phys = Some (Dir entries) →
         ¬ descriptor_file fs (tree w) (Join dir kfilename))
    ∧ (∃ w1 evs,
         extends w w1 evs ∧ quiet evs
         ∧ generateKustomization kg dirPath w =
             if has_descriptor fs (tree w) dirPath then (None, w1)
             else generateFromScan fs dirPath w1)
    ∧ (∀ base p paths w0,
         p ≠ base → tree w0 = tree w →
         ∃ w1, scanFn fs base p true None paths w0 =
                 if has_descriptor fs (tree w) p
                 then (Some SkipDir, paths ++ [p], w1)
                 else (None, paths, w1)).
Proof.
  intros kg dirPath w fs Hfs. split_and!.
  - intros dir. apply has_descriptor_iff.
  - intros dir k phys entries Hsec Hl (ph & n & Hsec' & Hl' & Hd).
    rewrite Hsec in Hsec'. injection Hsec' as <-.
    rewrite Hl in Hl'. by injection Hl' as <-.
  - unfold generateKustomization. rewrite Hfs.
    destruct (hasKustomizationFile_spec fs dirPath
                RecognizedKustomizationFileNames w) as (w1 & evs & -> & Hx & Hq).
    exists w1, evs. split_and!; [done..|].
    fold (has_descriptor fs (tree w) dirPath).
    by destruct (has_descriptor fs (tree w) dirPath).
  - intros base p paths w0 Hp Ht. unfold scanFn.
    rewrite bool_decide_false by done.
    destruct (hasKustomizationFile_spec fs p
                RecognizedKustomizationFileNames w0) as (w1 & evs & -> & Hx & Hq).
    exists w1. rewrite Ht. fold (has_descriptor fs (tree w) p).
    by destruct (has_descriptor fs (tree w) p).
Qed.

(** ** Resources relative to the target directory *)

Lemma string_app_assoc (a b c : string) : (a +:+ b) +:+ c = a +:+ (b +:+ c).
Proof.
  induction a as [|x a IH]; [done|].
  change (String x ((a +:+ b) +:+ c) = String x (a +:+ (b +:+ c))).
  by rewrite IH.
Qed.

Lemma prefix_app (a b : string) : String.prefix a (a +:+ b) = true.
Proof.
  induction a as [|x a IH]; simpl; [by destruct b|].
  destruct (ascii_dec x x); [done|congruence].
Qed.

Lemma drop_string_app (a b : string) :
  drop_string (String.length a) (a +:+ b) = b.
Proof. induction a as [|x a IH]; simpl; [by destruct b|done]. Qed.

Lemma Replace1_prefix (s old new : string) :
  String.prefix old s = true →
  Replace1 s old new = new +:+ drop_string (String.length old) s.
Proof.
  intros Hp.
  assert (Heq : Replace1 s old new =
                if String.prefix old s
                then new +:+ drop_string (String.length old) s
                else match s with
                     | EmptyString => s
                     | String c s' => String c (Replace1 s' old new)
                     end) by (by destruct s).
  by rewrite Heq, Hp.
Qed.

Lemma foldr_path_acc (p : path) (acc : string) :
  foldr (λ elem acc, "/" +:+ elem +:+ acc) acc p =
  foldr (λ elem acc, "/" +:+ elem +:+ acc) "" p +:+ acc.
Proof.
  induction p as [|x p IH]; [done|].
  cbn [foldr]. rewrite IH. by rewrite !string_app_assoc.
Qed.

Lemma path_string_below (base : path) name rest :
  base ≠ [] →
  path_string (base ++ name :: rest) =
    path_string base +:+ path_string (name :: rest).
Proof.
  intros Hb. destruct base as [|b base]; [done|].
  set (F := λ (elem acc : string), "/" +:+ elem +:+ acc).
  change (foldr F "" ((b :: base) ++ name :: rest) =
          foldr F "" (b :: base) +:+ foldr F "" (name :: rest)).
  rewrite foldr_app. apply foldr_path_acc.
Qed.

(** The resource of a scanned path below a target directory other than
    the root directory: ["."] followed by the path from the directory. *)
Lemma Replace1_below (base : path) name rest :
  base ≠ [] →
  Replace1 (path_string (base ++ name :: rest)) (path_string base) "." =
    "." +:+ path_string (name :: rest).
Proof.
  intros Hb. rewrite path_string_below by done.
  rewrite Replace1_prefix by apply prefix_app.
  by rewrite drop_string_app.
Qed.

(** The paths a scan returns lie strictly below its base. *)
Lemma scan_files_below `{Libraries} fs base w files err w' :
  scan fs base w = (files, err, w') →
  Forall (below base) files.
Proof.
  intros Hscan. apply scan_calls in Hscan
    as [(e & -> & Hne & -> & ->)
       |(phys & n & calls & _ & _ & Hacc & Hw & _ & _)]; [constructor|].
  destruct Hacc as (evs & _ & _ & _ & _ & Hf & Hok).
  destruct Hw as (_ & Hpre & _).
  apply Forall_forall. intros q Hq.
  destruct (added_call _ _ _ Hf Hq) as (c & Hc & Hin).
  pose proof (proj1 (Forall_forall _ _) Hok c Hc) as Hcok.
  destruct (call_ok_added_why _ _ _ _ _ Hcok Hin) as (Hp & Hb & _).
  destruct (proj1 (Forall_forall _ _) Hpre c Hc) as [?|?]; congruence.
Qed.

(** X1.  No generated resource is an absolute path, and for a target directory
    other than the root directory every generated resource is ["."]
    followed by the path of the scanned file from the target directory,
    so it starts with ["./"]. *)
Theorem scanned_resources_are_relative `{Libraries} :
  ∀ (fs : fsSecure) (base : path) (w w' : World) (files : list path)
    (err : option error),
    scan fs base w = (files, err, w') →
    Forall (λ r, String.prefix "/" r = false) (relativeResources base files)
    ∧ (base ≠ [] →
       Forall2 (λ file r, ∃ name rest,
                  file = base ++ name :: rest
                  ∧ r = "." +:+ path_string (name :: rest)
                  ∧ String.prefix "./" r = true)
               files (relativeResources base files)).
Proof.
  intros fs base w w' files err Hscan.
  apply scan_files_below in Hscan. unfold relativeResources. split.
  - apply Forall_fmap. eapply Forall_impl; [exact Hscan|].
    intros q (name & rest & ->). simpl.
    destruct base as [|b base].
    + change (path_string ([] ++ name :: rest))
        with ("/" +:+ (name +:+ foldr (λ elem acc, "/" +:+ elem +:+ acc) "" rest)).
      change (path_string []) with "/".
      rewrite Replace1_prefix by apply prefix_app.
      rewrite drop_string_app. reflexivity.
    + rewrite Replace1_below by done. reflexivity.
  - intros Hb. apply Forall2_fmap_r. apply Forall_Forall2_diag.
    eapply Forall_impl; [exact Hscan|].
    intros q (name & rest & ->). exists name, rest.
    rewrite Replace1_below by done. split_and!; [reflexivity..|].
    change ("." +:+ path_string (name :: rest))
      with ("./" +:+ (name +:+ foldr (λ elem acc, "/" +:+ elem +:+ acc) "" rest)).
    apply prefix_app.
Qed.

(** ** What stays inside the root *)

Lemma confined_refl fs w : confined fs w w.
Proof. exists []. split; [by rewrite app_nil_r|constructor]. Qed.

Lemma confined_trans fs w1 w2 w3 :
  confined fs w1 w2 → confined fs w2 w3 → confined fs w1 w3.
Proof.
  intros (e1 & Hl1 & Hin1) (e2 & Hl2 & Hin2). exists (e1 ++ e2).
  split; [by rewrite Hl2, Hl1, app_assoc|by apply Forall_app].
Qed.

Lemma confined_emit fs e w : inside fs e → confined fs w (emit e w).
Proof. intros He. exists [e]. split; [done|by constructor]. Qed.

Lemma isSecurePath_Ok fs t p phys :
  isSecurePath fs t p = Ok phys →
  EvalSymlinks t p = Some phys ∧ HasPrefix phys (fs_root fs) = true.
Proof.
  unfold isSecurePath. destruct (EvalSymlinks t p) as [ph|]; [|done].
  destruct (HasPrefix ph (fs_root fs)) eqn:Hpre; [|done]. by intros [= <-].
Qed.

Lemma fs_Exists_confined fs p w :
  confined fs w (fs_Exists fs p w).2 ∧ tree (fs_Exists fs p w).2 = tree w.
Proof.
  unfold fs_Exists. destruct (isSecurePath fs (tree w) p) as [phys|e] eqn:Hs.
  - apply isSecurePath_Ok in Hs as [_ Hpre]. split; [|done].
    by apply confined_emit.
  - split; [apply confined_refl|done].
Qed.

Lemma fs_IsDir_confined fs p w :
  confined fs w (fs_IsDir fs p w).2 ∧ tree (fs_IsDir fs p w).2 = tree w.
Proof.
  unfold fs_IsDir. destruct (isSecurePath fs (tree w) p) as [phys|e] eqn:Hs.
  - apply isSecurePath_Ok in Hs as [_ Hpre]. split; [|done].
    by apply confined_emit.
  - split; [apply confined_refl|done].
Qed.

Lemma hasKustomizationFile_confined fs dir names : ∀ w,
  confined fs w (hasKustomizationFile fs dir names w).2.
Proof.
  induction names as [|k names IH]; intros w; simpl; [apply confined_refl|].
  destruct (fs_Exists_confined fs (Join dir k) w) as [Hc1 _].
  destruct (fs_Exists fs (Join dir k) w) as [ex w1]. simpl in Hc1.
  destruct ex.
  - destruct (fs_IsDir_confined fs (Join dir k) w1) as [Hc2 _].
    destruct (fs_IsDir fs (Join dir k) w1) as [d w2]. simpl in Hc2.
    destruct d; simpl.
    + eapply confined_trans; [|apply IH]. by eapply confined_trans.
    + by eapply confined_trans.
  - eapply confined_trans; [done|apply IH].
Qed.

Lemma fs_ReadFile_confined fs p w :
  confined fs w (fs_ReadFile fs p w).2.
Proof.
  unfold fs_ReadFile, os_ReadFile.
  destruct (isSecurePath fs (tree w) p) as [phys|e] eqn:Hs; [|apply confined_refl].
  apply isSecurePath_Ok in Hs as [-> Hpre].
  destruct (lookup_node (tree w) phys) as [[]|]; by apply confined_emit.
Qed.

Section Confined.
Context `{Libraries}.
Variables (fs : fsSecure) (base : path).

Lemma scanFn_confined p isd err paths w :
  confined fs w (scanFn fs base p isd err paths w).2.
Proof.
  unfold scanFn. destruct err as [e|]; [apply confined_refl|].
  case_bool_decide; [apply confined_refl|].
  destruct isd.
  - pose proof (hasKustomizationFile_confined fs p
                  RecognizedKustomizationFileNames w) as Hc.
    destruct (hasKustomizationFile fs p RecognizedKustomizationFileNames w)
      as [found w1]. by destruct found.
  - destruct (negb _ && negb _); [apply confined_refl|].
    pose proof (fs_ReadFile_confined fs p w) as Hc.
    destruct (fs_ReadFile fs p w) as [[data|e] w1]; [|done].
    by destruct (SliceFromBytes data).
Qed.

Lemma walk_confined n : ∀ p paths w,
  confined fs w (walk (scanFn fs base) p n paths w).2.
Proof.
  induction n as [n Hleaf|entries IH] using node_tree_ind; intros p paths w.
  - rewrite walk_not_Dir by done.
    eapply confined_trans; [|apply scanFn_confined]. by apply confined_emit.
  - rewrite walk_Dir.
    pose proof (scanFn_confined p true None paths (emit (Visit p true) w)) as Hc.
    destruct (scanFn fs base p true None paths (emit (Visit p true) w))
      as [[err1 a1] w1]. simpl in Hc.
    assert (Hc1 : confined fs w w1).
    { eapply confined_trans; [|exact Hc]. by apply confined_emit. }
    destruct err1 as [e|]; [done|].
    clear Hc. revert a1 w1 Hc1.
    induction entries as [|[name child] rest IHr]; intros a1 w1 Hc1; [done|].
    apply Forall_cons in IH as [IHc IHrest]. simpl in IHc. simpl.
    pose proof (IHc (Join p name) a1 w1) as Hchild.
    destruct (walk (scanFn fs base) (Join p name) child a1 w1)
      as [[err a'] w']. simpl in Hchild.
    assert (Hc' : confined fs w w') by (by eapply confined_trans).
    destruct err as [e|]; [|by apply IHr].
    destruct (negb (isDir child) || negb (is_SkipDir e)); [done|by apply IHr].
Qed.

Lemma scan_confined w : confined fs w (scan fs base w).2.
Proof.
  unfold scan, fs_Walk, filepath_Walk.
  destruct (isSecurePath fs (tree w) base); [|apply confined_refl].
  destruct (lstat_path (tree w) base) as [phys|]; [|apply confined_refl].
  destruct (lookup_node (tree w) phys) as [n|]; [|apply confined_refl].
  pose proof (walk_confined n base [] w) as Hc.
  destruct (walk (scanFn fs base) base n [] w) as [[err paths] w'].
  by destruct err as [[]|].
Qed.
End Confined.

(** Writing a file changes no link, so paths resolve as before. *)
Lemma assoc_set_entry name n entries k :
  assoc k (set_entry name n entries) =
    if String.eqb name k then Some n else assoc k entries.
Proof.
  induction entries as [|[k' v] entries IH]; simpl; [done|].
  destruct (String.eqb_spec k' name) as [->|Hne]; simpl.
  - destruct (String.eqb_spec name k); done.
  - destruct (String.ltb name k'); simpl.
    + done.
    + rewrite IH. destruct (String.eqb_spec k' k) as [->|]; [|done].
      destruct (String.eqb_spec name k); [congruence|done].
Qed.

Lemma link_at_File data q : link_at (File data) q = None.
Proof. by destruct q. Qed.

Lemma update_node_links phys : ∀ t data t',
  phys ≠ [] →
  update_node t phys (File data) = Some t' →
  (∀ n, lookup_node t phys = Some n → ∃ d0, n = File d0) →
  same_links t t'.
Proof.
  induction phys as [|c rest IH]; intros t data t' Hne Hup Hold; [done|].
  destruct t as [|entries|]; try done. simpl in Hup.
  destruct rest as [|r rest'].
  - injection Hup as <-. intros [|k q]; [done|].
    unfold link_at. simpl. rewrite assoc_set_entry.
    destruct (String.eqb_spec c k) as [->|Hck]; [|done].
    fold (link_at (File data) q). rewrite link_at_File.
    simpl in Hold. destruct (assoc k entries) as [child|]; [|done].
    destruct (Hold child eq_refl) as [d0 ->].
    fold (link_at (File d0) q). by rewrite link_at_File.
  - destruct (assoc c entries) as [child|] eqn:Hassoc; [|done].
    destruct (update_node child (r :: rest') (File data)) as [child'|] eqn:Hch;
      [|done].
    injection Hup as <-.
    assert (Hsame : same_links child child').
    { apply (IH child data child'); [done|done|].
      intros n Hn. apply Hold. simpl. by rewrite Hassoc. }
    intros [|k q]; [done|].
    unfold link_at. simpl. rewrite assoc_set_entry.
    destruct (String.eqb_spec c k) as [->|Hck]; [|done].
    rewrite Hassoc. apply Hsame.
Qed.

Lemma resolve_same_links t t' :
  same_links t t' →
  ∀ fuel seen todo, resolve fuel t' seen todo = resolve fuel t seen todo.
Proof.
  intros Hsame. induction fuel as [|fuel IH]; intros seen todo; [done|].
  simpl. destruct todo as [|c rest]; [done|].
  pose proof (Hsame (seen ++ [c])) as Hl. unfold link_at in Hl.
  destruct (lookup_node t' (seen ++ [c])) as [[| |tg']|];
    destruct (lookup_node t (seen ++ [c])) as [[| |tg]|];
    try done; try apply IH.
  injection Hl as ->. apply IH.
Qed.

Lemma resolve_not_link t : ∀ fuel seen todo phys,
  resolve fuel t seen todo = Some phys →
  (seen = [] ∨ link_at t seen = None) →
  phys = [] ∨ link_at t phys = None.
Proof.
  induction fuel as [|fuel IH]; intros seen todo phys Hres Hseen; [done|].
  simpl in Hres. destruct todo as [|c rest].
  { by injection Hres as <-. }
  destruct (lookup_node t (seen ++ [c])) as [[| |tg]|] eqn:Hl;
    try (apply (IH _ _ _ Hres); right; unfold link_at; by rewrite Hl).
  apply (IH _ _ _ Hres). by left.
Qed.

Transparent EvalSymlinks.

Lemma EvalSymlinks_same_links t t' p :
  same_links t t' → EvalSymlinks t' p = EvalSymlinks t p.
Proof.
  intros Hsame. unfold EvalSymlinks. generalize maxResolve. intros fuel.
  by apply resolve_same_links.
Qed.

Lemma EvalSymlinks_not_link t p phys :
  EvalSymlinks t p = Some phys → phys = [] ∨ link_at t phys = None.
Proof.
  unfold EvalSymlinks. generalize maxResolve. intros fuel Hres.
  apply (resolve_not_link t fuel [] p phys Hres). by left.
Qed.

Opaque EvalSymlinks.

Lemma same_links_refl t : same_links t t.
Proof. done. Qed.

Lemma same_links_trans t1 t2 t3 :
  same_links t1 t2 → same_links t2 t3 → same_links t1 t3.
Proof. intros H12 H23 q. by rewrite H23, H12. Qed.

Lemma os_ReadFile_confined fs name w phys :
  EvalSymlinks (tree w) name = Some phys →
  HasPrefix phys (fs_root fs) = true →
  confined fs w (os_ReadFile name w).2 ∧ tree (os_ReadFile name w).2 = tree w.
Proof.
  intros Hres Hpre. unfold os_ReadFile. rewrite Hres.
  destruct (lookup_node (tree w) phys) as [[]|]; (split; [|done]);
    by apply confined_emit.
Qed.

Lemma put_file_links t phys data t' :
  put_file t phys data = Some t' →
  (∀ n, lookup_node t phys = Some n → ∃ d0, n = File d0) →
  same_links t t'.
Proof.
  destruct phys as [|c rest]; [done|]. simpl. intros Hup Hold.
  by apply (update_node_links (c :: rest) _ data).
Qed.

Lemma os_write_confined fs op name data w phys :
  EvalSymlinks (tree w) name = Some phys →
  HasPrefix phys (fs_root fs) = true →
  confined fs w (os_write op name data w).2
  ∧ same_links (tree w) (tree (os_write op name data w).2).
Proof.
  intros Hres Hpre. unfold os_write. rewrite Hres.
  assert (Hc : confined fs w (emit (IO op name phys) w))
    by (by apply confined_emit).
  destruct (put_file (tree w) phys data) as [t'|] eqn:Hput.
  2:{ destruct (lookup_node (tree w) phys) as [[| |]|]; by split. }
  destruct (lookup_node (tree w) phys) as [n|] eqn:Hl.
  - destruct n as [d0|entries|tg]; [|by split|].
    + split; [done|]. simpl. apply (put_file_links _ _ _ _ Hput).
      intros n. rewrite Hl. intros [= <-]. eauto.
    + destruct (EvalSymlinks_not_link _ _ _ Hres) as [->|Hlink]; [done|].
      unfold link_at in Hlink. by rewrite Hl in Hlink.
  - split; [done|]. simpl. apply (put_file_links _ _ _ _ Hput).
    intros n. by rewrite Hl.
Qed.

Section ConfinedWrite.
Context `{Libraries}.
Variables (fs : fsSecure) (kg : KustomizeGenerator) (dirPath : path).

Lemma scan_tree w : tree (scan fs dirPath w).2 = tree w.
Proof.
  destruct (scan fs dirPath w) as [[files err] w'] eqn:Hscan.
  apply scan_calls in Hscan
    as [(e & _ & _ & _ & ->)|(phys & n & calls & _ & _ & Hacc & _)]; [done|].
  destruct Hacc as (evs & (Ht & _) & _). done.
Qed.

(** The overrides are read from and written to one place inside the
    root, when [kustomization.yaml] resolves to such a place. *)
Lemma writeOverrides_confined w phys :
  EvalSymlinks (tree w) (Join dirPath DefaultKustomizationFileName) = Some phys →
  HasPrefix phys (fs_root fs) = true →
  confined fs w (writeOverrides kg dirPath w).2.
Proof.
  intros Hres Hpre. unfold writeOverrides.
  destruct (os_ReadFile_confined fs _ w phys Hres Hpre) as [Hc Ht].
  destruct (os_ReadFile (Join dirPath DefaultKustomizationFileName) w)
    as [[data|e] w1]; [|done]. simpl in Hc, Ht.
  destruct (yaml_Unmarshal data emptyKustomization) as [kus|e]; [|done].
  destruct (applyOverrides (kustomization kg) kus) as [kus'|e]; [|done].
  destruct (yaml_Marshal kus') as [kd|e]; [|done].
  eapply confined_trans; [exact Hc|].
  apply (os_write_confined fs OpWrite _ kd w1 phys); [by rewrite Ht|done].
Qed.

(** Generation reaches nothing outside the root, and when it succeeds
    [kustomization.yaml] resolves to a place inside the root. *)
Lemma generateFromScan_confined w :
  confined fs w (generateFromScan fs dirPath w).2
  ∧ ((generateFromScan fs dirPath w).1 = None →
     ∃ phys,
       EvalSymlinks (tree (generateFromScan fs dirPath w).2)
         (Join dirPath DefaultKustomizationFileName) = Some phys
       ∧ HasPrefix phys (fs_root fs) = true).
Proof.
  unfold generateFromScan.
  pose proof (scan_confined fs dirPath w) as Hc.
  pose proof (scan_tree w) as Ht.
  destruct (scan fs dirPath w) as [[files err] w1]. simpl in Hc, Ht.
  destruct err as [e|]; [by split|].
  unfold fs_Create.
  destruct (isSecurePath fs (tree w1) (Join dirPath DefaultKustomizationFileName))
    as [phys|e] eqn:Hsec; [|by split].
  apply isSecurePath_Ok in Hsec as [Hres Hpre].
  destruct (os_write_confined fs OpCreate _ "" w1 phys Hres Hpre) as [Hc2 Hl2].
  destruct (os_write OpCreate (Join dirPath DefaultKustomizationFileName) "" w1)
    as [[e|] w2]; simpl in Hc2, Hl2.
  { split; [by eapply confined_trans|done]. }
  assert (Hres2 : EvalSymlinks (tree w2) (Join dirPath DefaultKustomizationFileName)
                  = Some phys).
  { by rewrite (EvalSymlinks_same_links _ _ _ Hl2). }
  destruct (yaml_Marshal _) as [kd|e].
  2:{ split; [by eapply confined_trans|done]. }
  destruct (os_write_confined fs OpWrite _ kd w2 phys Hres2 Hpre) as [Hc3 Hl3].
  unfold os_WriteFile.
  destruct (os_write OpWrite (Join dirPath DefaultKustomizationFileName) kd w2)
    as [err w3]; simpl in Hc3, Hl3 |- *.
  split.
  - eapply confined_trans; [|exact Hc3]. by eapply confined_trans.
  - intros _. exists phys. split; [|done].
    by rewrite (EvalSymlinks_same_links _ _ _ Hl3).
Qed.
End ConfinedWrite.

(** X2.  When [WriteFile] generates the kustomization file, or finds
    [kustomization.yaml] itself as the kustomization file of the directory,
    every call it makes on the file system reaches a path inside the
    root. *)
Theorem WriteFile_stays_inside_root `{Libraries} :
  ∀ (kg : KustomizeGenerator) (dirPath : path) (w : World) (fs : fsSecure),
    MakeFsOnDiskSecure (root kg) w = Ok fs →
    (has_descriptor fs (tree w) dirPath = true →
     is_descriptor fs (tree w) (Join dirPath DefaultKustomizationFileName) = true) →
    confined fs w (WriteFile kg dirPath w).2.
Proof.
  intros kg dirPath w fs Hfs Hdefault.
  unfold WriteFile, generateKustomization. rewrite Hfs.
  destruct (hasKustomizationFile_spec fs dirPath
              RecognizedKustomizationFileNames w) as (w1 & evs & Hk & Hx & _).
  pose proof (hasKustomizationFile_confined fs dirPath
                RecognizedKustomizationFileNames w) as Hc1.
  rewrite Hk in Hc1 |- *. simpl in Hc1.
  fold (has_descriptor fs (tree w) dirPath) in Hdefault |- *.
  assert (Ht1 : tree w1 = tree w) by apply Hx.
  destruct (has_descriptor fs (tree w) dirPath).
  - specialize (Hdefault eq_refl).
    apply is_descriptor_iff in Hdefault as (phys & n & Hsec & _).
    apply isSecurePath_Ok in Hsec as [Hres Hpre].
    eapply confined_trans; [exact Hc1|].
    apply (writeOverrides_confined fs kg dirPath w1 phys); [by rewrite Ht1|done].
  - destruct (generateFromScan_confined fs dirPath w1) as [Hc2 Hok].
    destruct (generateFromScan fs dirPath w1) as [[e|] w2]; simpl in Hc2, Hok.
    + by eapply confined_trans.
    + destruct (Hok eq_refl) as (phys & Hres & Hpre).
      eapply confined_trans; [exact Hc1|].
      eapply confined_trans; [exact Hc2|].
      by apply (writeOverrides_confined fs kg dirPath w2 phys).
Qed.

(** ** The descriptor [WriteFile] reads and writes *)

(** C8.  With [kustomization.yml] as the only kustomization file of the
    directory, [generateKustomization] returns nil without generating, and
    [WriteFile] then fails to open [kustomization.yaml]: the overrides are
    not applied to the file that is there, and the tree is as it was. *)
Theorem overrides_miss_descriptor_of_other_name :
  let kg := NewGenerator ["r"] spec_prod in
  let w := world_of tree_yml in
  fst (@generateKustomization testdata kg ["r"; "d"] w) = None
  ∧ fst (@WriteFile testdata kg ["r"; "d"] w)
    = Some (PathError "open" "/r/d/kustomization.yaml" ENOENT)
  ∧ tree (snd (@WriteFile testdata kg ["r"; "d"] w)) = tree_yml.
Proof. vm_compute. done. Qed.

(** C1.  With [kustomization.yml] in the directory and
    [kustomization.yaml] a link to a file outside the root, [WriteFile]
    returns nil having read the file outside the root and written the
    descriptor with the overrides over it. *)
Theorem WriteFile_follows_link_out_of_root :
  let kg := NewGenerator ["r"] spec_prod in
  let w := world_of tree_linked in
  let w' := snd (@WriteFile testdata kg ["r"; "d"] w) in
  fst (@WriteFile testdata kg ["r"; "d"] w) = None
  ∧ reads (log w') = [(["r"; "d"; "kustomization.yaml"], ["o"; "secret.yaml"])]
  ∧ writes (log w') = [(["r"; "d"; "kustomization.yaml"], ["o"; "secret.yaml"])]
  ∧ HasPrefix ["o"; "secret.yaml"] ["r"] = false
  ∧ lookup_node (tree w) ["o"; "secret.yaml"] = Some (File "namespace: kube-system")
  ∧ lookup_node (tree w') ["o"; "secret.yaml"]
    = Some (File ("namespace: prod" +:+ newline)).
Proof. vm_compute. done. Qed.

(** C9.  With the root directory as target, the prefix ["/"] is replaced
    by ["."] and the resources come out as [".a.yaml"] and [".sub/b.yml"]:
    they do not start with ["./"] and do not name the files. *)
Theorem resources_of_root_directory_lose_separator :
  let kg := NewGenerator [] spec_prod in
  let w := world_of tree_slash in
  let fs := {| fs_root := []; fs_remote := false |} in
  MakeFsOnDiskSecure [] w = Ok fs
  ∧ fst (fst (@scan testdata fs [] w)) = [["a.yaml"]; ["sub"; "b.yml"]]
  ∧ relativeResources [] [["a.yaml"]; ["sub"; "b.yml"]] = [".a.yaml"; ".sub/b.yml"]
  ∧ fst (@generateKustomization testdata kg [] w) = None
  ∧ lookup_node (tree (snd (@generateKustomization testdata kg [] w)))
      ["kustomization.yaml"]
    = Some (File ("namespace: " +:+ newline +:+ "- .a.yaml" +:+ newline
                  +:+ "- .sub/b.yml" +:+ newline)).
Proof. vm_compute. done. Qed.

(** ** More on the image overrides *)

Section ImageNames.
Implicit Types (images : list KImage) (image : SpecImage) (n : string).

Lemma find_name_Some_name n images i x :
  find_name n images = Some (i, x) → images !! i = Some x ∧ ki_Name x = n.
Proof. intros Hf. apply list_find_Some in Hf as (? & ? & _). done. Qed.

Lemma find_name_None n images :
  find_name n images = None ↔ n ∉ image_names images.
Proof.
  unfold find_name, image_names. rewrite list_find_None, list_elem_of_fmap.
  rewrite Forall_forall. split.
  - intros Hall (x & -> & Hx). by apply (Hall x).
  - intros Hn x Hx Heq. apply Hn. by exists x.
Qed.

Lemma find_name_is_Some n images :
  n ∈ image_names images → ∃ i x, find_name n images = Some (i, x).
Proof.
  intros Hin. destruct (find_name n images) as [[i x]|] eqn:Hf; [eauto|].
  by apply find_name_None in Hf.
Qed.

Lemma applyImage_names images image :
  image_names (applyImage images image)
  = add_name (image_names images) (si_Name image).
Proof.
  unfold add_name, image_names.
  destruct (find_name (si_Name image) images) as [[i old]|] eqn:Hf.
  - rewrite (applyImage_found _ _ _ _ Hf).
    apply find_name_Some_name in Hf as [Hi Hname].
    rewrite decide_True.
    2:{ apply list_elem_of_fmap. exists old. split; [done|].
        by eapply list_elem_of_lookup_2. }
    rewrite list_fmap_insert. apply list_insert_id.
    rewrite list_lookup_fmap, Hi. simpl. by rewrite Hname.
  - rewrite (applyImage_missing _ _ Hf).
    apply find_name_None in Hf. rewrite decide_False by done.
    by rewrite fmap_app.
Qed.

Lemma applyImages_names overrides : ∀ images,
  image_names (applyImages images overrides)
  = foldl add_name (image_names images) (map si_Name overrides).
Proof.
  induction overrides as [|o overrides IH]; intros images; simpl; [done|].
  by rewrite IH, applyImage_names.
Qed.

Lemma add_name_prefix names n : names `prefix_of` add_name names n.
Proof.
  unfold add_name. case_decide; [done|]. by apply prefix_app_r.
Qed.

Lemma add_name_NoDup names n : NoDup names → NoDup (add_name names n).
Proof.
  intros Hnd. unfold add_name. case_decide; [done|].
  apply NoDup_app. split_and!; [done| |apply NoDup_singleton].
  intros x Hx Hx'. apply list_elem_of_singleton in Hx'. by subst.
Qed.

Lemma add_name_elem_of names n x :
  x ∈ add_name names n ↔ x ∈ names ∨ x = n.
Proof.
  unfold add_name. case_decide.
  - split; [by left|]. intros [?| ->]; done.
  - rewrite elem_of_app, list_elem_of_singleton. done.
Qed.

Lemma foldl_add_name_spec ns : ∀ names,
  names `prefix_of` foldl add_name names ns
  ∧ (NoDup names → NoDup (foldl add_name names ns))
  ∧ (∀ x, x ∈ foldl add_name names ns ↔ x ∈ names ∨ x ∈ ns).
Proof.
  induction ns as [|n ns IH]; intros names; simpl.
  - split_and!; [done..|]. intros x. rewrite elem_of_nil. tauto.
  - destruct (IH (add_name names n)) as (Hp & Hnd & Hin). split_and!.
    + etrans; [apply add_name_prefix|done].
    + intros ?. by apply Hnd, add_name_NoDup.
    + intros x. rewrite Hin, add_name_elem_of, elem_of_cons. tauto.
Qed.
End ImageNames.

(** X3.  [checkKustomizeImageExists] answers [(true, i)] exactly for the
    first index whose entry carries the name: [i] is within the bounds of
    the slice, the entry at [i] has the name and no earlier entry has it;
    it answers [(false, -1)] exactly when no entry has the name.  So the
    assignment [kus.Images[index] = newImage] of [WriteFile] is never out
    of range. *)
Theorem checkKustomizeImageExists_first_match :
  ∀ (images : list KImage) (imageName : string),
    match checkKustomizeImageExists images imageName with
    | (true, index) =>
        (0 ≤ index < Z.of_nat (length images))%Z
        ∧ ∃ image,
            images !! Z.to_nat index = Some image
            ∧ ki_Name image = imageName
            ∧ ∀ j other, (j < Z.to_nat index)%nat → images !! j = Some other →
                ki_Name other ≠ imageName
    | (false, index) =>
        index = (-1)%Z ∧ Forall (λ image, ki_Name image ≠ imageName) images
    end.
Proof.
  intros images n. rewrite checkKustomizeImageExists_find.
  destruct (find_name n images) as [[i x]|] eqn:Hf.
  - apply list_find_Some in Hf as (Hi & Hname & Hleast).
    pose proof (lookup_lt_Some _ _ _ Hi). rewrite Nat2Z.id.
    split; [lia|]. exists x. split_and!; [done..|].
    intros j other Hj Hother. by apply (Hleast j other).
  - split; [done|]. by apply list_find_None in Hf.
Qed.

(** X4.  The names of the image list after the overrides are the names
    it had, in their places, followed by the names of the overrides that
    were new, each once and in the order of their first override.  So no
    entry is dropped or moved, a list without duplicate names stays
    without, and a name is in the result exactly when the descriptor or an
    override had it. *)
Theorem image_overrides_keep_names :
  ∀ (images : list KImage) (overrides : list SpecImage),
    image_names (applyImages images overrides)
    = foldl add_name (image_names images) (map si_Name overrides)
    ∧ image_names images `prefix_of` image_names (applyImages images overrides)
    ∧ (NoDup (image_names images) →
       NoDup (image_names (applyImages images overrides)))
    ∧ (∀ n, n ∈ image_names (applyImages images overrides)
            ↔ n ∈ image_names images ∨ n ∈ map si_Name overrides).
Proof.
  intros images overrides. rewrite applyImages_names.
  split; [done|]. apply foldl_add_name_spec.
Qed.

Section ImagesTwice.
Implicit Types (images : list KImage) (image : SpecImage) (n : string).

(** An override whose entry is already the first of its name changes
    nothing. *)
Lemma applyImage_fixed images image i :
  find_name (si_Name image) images = Some (i, newImage image) →
  applyImage images image = images.
Proof.
  intros Hf. rewrite (applyImage_found _ _ _ _ Hf).
  apply list_insert_id. by apply find_name_Some_name in Hf as [? _].
Qed.

Lemma differ_at_first_find n l1 l2 m :
  differ_at_first n l1 l2 → m ≠ n →
  find_name m l2 = find_name m l1.
Proof.
  intros (i & x1 & x2 & Hf & -> & Hx2) Hm.
  apply find_name_Some_name in Hf as Hi. destruct Hi as [Hi Hx1].
  apply option_eq. intros [j y]. unfold find_name.
  rewrite list_find_insert_Some. split.
  - intros [[_ ?]|[(_ & _ & _ & ? & _)|[(_ & _ & ? & _)|(z & _ & _ & _ & Hz & Hiz & _)]]];
      simpl in *; try done; congruence.
  - intros Hj. destruct (decide (j < i)) as [|Hge]; [by left|].
    right; right; left.
    assert (j ≠ i).
    { intros ->. apply list_find_Some in Hj as (Hj & ? & _). congruence. }
    split_and!; [lia|simpl; congruence|done|].
    intros z Hz. congruence.
Qed.

Lemma differ_at_first_same n l1 l2 :
  differ_at_first n l1 l2 →
  ∃ i x1 x2, find_name n l1 = Some (i, x1)
             ∧ find_name n l2 = Some (i, x2) ∧ l2 = <[i := x2]> l1.
Proof.
  intros (i & x1 & x2 & Hf & -> & Hx2). exists i, x1, x2.
  split_and!; [done| |done].
  apply list_find_Some in Hf as (Hi & Hx1 & Hleast).
  apply list_find_insert_Some. right; left.
  split_and!; eauto using lookup_lt_Some.
Qed.

(** Two lists that differ at most in the first entry named [n] come out
    the same once an override of that name has been applied. *)
Lemma applyImages_differ rest : ∀ n l1 l2,
  differ_at_first n l1 l2 →
  n ∈ map si_Name rest →
  applyImages l2 rest = applyImages l1 rest.
Proof.
  induction rest as [|o rest IH]; intros n l1 l2 Hd Hin; simpl.
  { by apply elem_of_nil in Hin. }
  destruct (decide (si_Name o = n)) as [Ho|Ho].
  - f_equal.
    destruct (differ_at_first_same _ _ _ Hd) as (i & x1 & x2 & Hf1 & Hf2 & ->).
    rewrite <- Ho in Hf1, Hf2.
    rewrite (applyImage_found _ _ _ _ Hf1), (applyImage_found _ _ _ _ Hf2).
    by rewrite list_insert_insert_eq.
  - apply elem_of_cons in Hin as [?|Hin]; [congruence|].
    apply (IH n); [|done].
    destruct Hd as (i & x1 & x2 & Hf & -> & Hx2).
    pose proof (differ_at_first_find n l1 (<[i:=x2]> l1) (si_Name o)) as Hsame.
    destruct (find_name (si_Name o) l1) as [[j y]|] eqn:Hfo.
    + assert (Hfo2 : find_name (si_Name o) (<[i:=x2]> l1) = Some (j, y)).
      { rewrite Hsame; [done| |done]. by exists i, x1, x2. }
      rewrite (applyImage_found _ _ _ _ Hfo), (applyImage_found _ _ _ _ Hfo2).
      assert (i ≠ j).
      { intros ->. apply find_name_Some_name in Hf as [? ?].
        apply find_name_Some_name in Hfo as [? ?]. congruence. }
      exists i, x1, x2. split_and!; [|by apply list_insert_insert_ne|done].
      rewrite <- (applyImage_found _ _ _ _ Hfo).
      by rewrite applyImage_find_other.
    + assert (Hfo2 : find_name (si_Name o) (<[i:=x2]> l1) = None).
      { rewrite Hsame; [done| |done]. by exists i, x1, x2. }
      rewrite (applyImage_missing _ _ Hfo), (applyImage_missing _ _ Hfo2).
      exists i, x1, x2. split_and!; [| |done].
      * rewrite <- (applyImage_missing _ _ Hfo).
        by rewrite applyImage_find_other.
      * apply find_name_Some_name in Hf as [Hi _].
        by rewrite insert_app_l by eauto using lookup_lt_Some.
Qed.

(** An override that a later override of the same name follows leaves no
    trace, when the name is in the list. *)
Lemma applyImages_shadowed images o rest :
  si_Name o ∈ image_names images →
  si_Name o ∈ map si_Name rest →
  applyImages images (o :: rest) = applyImages images rest.
Proof.
  intros Hin Hrest. simpl.
  destruct (find_name_is_Some _ _ Hin) as (i & x & Hf).
  apply (applyImages_differ rest (si_Name o)); [|done].
  exists i, x, (newImage o). split_and!; [done| |done].
  by apply applyImage_found with x.
Qed.

(** The last override of a name in a list. *)
Lemma last_of_name n (l : list SpecImage) :
  n ∈ map si_Name l →
  ∃ before o after, l = before ++ o :: after ∧ si_Name o = n
                    ∧ n ∉ map si_Name after.
Proof.
  induction l as [|o l IH]; intros Hin; [by apply elem_of_nil in Hin|].
  destruct (decide (n ∈ map si_Name l)) as [Hl|Hl].
  - destruct (IH Hl) as (before & o' & after & -> & Ho' & Hafter).
    by exists (o :: before), o', after.
  - apply elem_of_cons in Hin as [Hn|?]; [|done].
    by exists [], o, l.
Qed.

(** A list in which every name of the overrides has, as first entry, the
    entry of the last override of that name, is left as it is. *)
Lemma applyImages_fixed overrides : ∀ images,
  (∀ before o after,
     overrides = before ++ o :: after → si_Name o ∉ map si_Name after →
     ∃ i, find_name (si_Name o) images = Some (i, newImage o)) →
  applyImages images overrides = images.
Proof.
  induction overrides as [|o rest IH]; intros images Hlast; [done|].
  assert (Hrest : ∀ before o' after,
            rest = before ++ o' :: after → si_Name o' ∉ map si_Name after →
            ∃ i, find_name (si_Name o') images = Some (i, newImage o')).
  { intros before o' after -> Hafter. by apply (Hlast (o :: before) o' after). }
  destruct (decide (si_Name o ∈ map si_Name rest)) as [Hin|Hin].
  - rewrite applyImages_shadowed; [by apply IH|..|done].
    destruct (last_of_name _ _ Hin) as (before & o' & after & -> & Ho' & Hafter).
    rewrite <- Ho' in Hafter.
    destruct (Hrest before o' after eq_refl Hafter) as [i Hf].
    rewrite <- Ho'. apply find_name_Some_name in Hf as [Hi Hname].
    unfold image_names. apply list_elem_of_fmap. exists (newImage o').
    split; [done|]. by eapply list_elem_of_lookup_2.
  - destruct (Hlast [] o rest eq_refl Hin) as [i Hf]. simpl.
    rewrite (applyImage_fixed _ _ _ Hf). by apply IH.
Qed.

Lemma applyImages_last images before o after :
  si_Name o ∉ map si_Name after →
  ∃ i, find_name (si_Name o) (applyImages images (before ++ o :: after))
       = Some (i, newImage o).
Proof.
  intros Hafter. rewrite applyImages_app. simpl.
  rewrite applyImages_find_other.
  - rewrite applyImage_find_same. eauto.
  - apply Forall_forall. intros o' Ho' Heq. apply Hafter.
    apply list_elem_of_fmap. by exists o'.
Qed.

Lemma applyImages_idempotent images overrides :
  applyImages (applyImages images overrides) overrides
  = applyImages images overrides.
Proof.
  apply applyImages_fixed. intros before o after -> Hafter.
  by apply applyImages_last.
Qed.
End ImagesTwice.

(** X5.  Applying the image overrides of a spec a second time changes
    nothing, in the image list and hence in the kustomization. *)
Theorem image_overrides_idempotent :
  ∀ (images : list KImage) (overrides : list SpecImage),
    applyImages (applyImages images overrides) overrides
    = applyImages images overrides
    ∧ ∀ (spec : KustomizationSpec) (kus : Kustomization),
        Spec_Images spec = overrides →
        applyImageOverrides spec (applyImageOverrides spec kus)
        = applyImageOverrides spec kus.
Proof.
  intros images overrides. split; [apply applyImages_idempotent|].
  intros spec kus _. unfold applyImageOverrides. simpl.
  by rewrite applyImages_idempotent.
Qed.

Section OverridesTwice.
Context `{Libraries}.

(** What the loop over the structured patches appends depends on the
    patches alone. *)
Lemma appendJSON6902_acc ms : ∀ acc ps acc',
  appendJSON6902 acc ms = Ok ps →
  ∃ l, ps = acc ++ l ∧ appendJSON6902 acc' ms = Ok (acc' ++ l).
Proof.
  induction ms as [|m ms IH]; intros acc ps acc' Hps;
    cbn [appendJSON6902] in *.
  - exists []. rewrite !app_nil_r. split; congruence.
  - destruct (json_Marshal (jp_Patch m)) as [patch|e]; [|done].
    destruct (IH _ _ (acc' ++ [{| kp_Patch := patch;
                                  kp_Target := adaptSelector (Some (jp_Target m)) |}])
                Hps) as (l & -> & Hl).
    eexists (_ :: l). split; [by rewrite <- app_assoc|].
    by rewrite Hl, <- app_assoc.
Qed.
(** The decoded descriptor after the five steps, field by field. *)
Lemma applyOverrides_Ok spec kus kus' :
  applyOverrides spec kus = Ok kus' →
  ∃ l, appendJSON6902 [] (Spec_PatchesJSON6902 spec) = Ok l
    ∧ kus' =
      {| APIVersion := APIVersion kus; K_Kind := K_Kind kus;
         Namespace := (if String.eqb (TargetNamespace spec) ""
                       then Namespace kus else TargetNamespace spec);
         Resources := Resources kus;
         Patches := Patches kus ++ map inlinePatch (Spec_Patches spec);
         PatchesStrategicMerge :=
           PatchesStrategicMerge kus ++ Spec_PatchesStrategicMerge spec;
         PatchesJson6902 := PatchesJson6902 kus ++ l;
         Images := applyImages (Images kus) (Spec_Images spec) |}.
Proof.
  unfold applyOverrides, applyJSON6902, applyImageOverrides,
    applyStrategicMerge, applyPatches, applyNamespace.
  cbn [APIVersion K_Kind Namespace Resources Patches PatchesStrategicMerge
       PatchesJson6902 Images].
  destruct (appendJSON6902 _ _) as [ps|e] eqn:Hps; [|done].
  intros [= <-].
  destruct (appendJSON6902_acc _ _ _ [] Hps) as (l & -> & Hl).
  exists l. split; [done|].
  cbn [APIVersion K_Kind Namespace Resources Patches PatchesStrategicMerge
       PatchesJson6902 Images].
  fold inlinePatch.
  change (λ m : SpecPatch, {| kp_Patch := sp_Patch m;
            kp_Target := adaptSelector (Some (sp_Target m)) |}) with inlinePatch.
  rewrite !foldl_snoc_map, map_id.
  by destruct (String.eqb (TargetNamespace spec) ""); cbn.
Qed.

Lemma applyOverrides_Ok_2 spec kus l :
  appendJSON6902 [] (Spec_PatchesJSON6902 spec) = Ok l →
  ∃ kus', applyOverrides spec kus = Ok kus'.
Proof.
  intros Hl. unfold applyOverrides, applyJSON6902.
  destruct (appendJSON6902_acc _ _ _
              (PatchesJson6902 (applyStrategicMerge spec
                 (applyPatches spec (applyNamespace spec kus)))) Hl)
    as (l' & _ & ->). eauto.
Qed.
End OverridesTwice.

(** X6.  Applying the overrides of a spec to a descriptor that already
    carries them succeeds again and leaves namespace, resources and images
    as they are, but appends every inline, strategic-merge and structured
    patch a second time. *)
Theorem overrides_applied_twice `{Libraries} :
  ∀ (spec : KustomizationSpec) (kus kus1 : Kustomization),
    applyOverrides spec kus = Ok kus1 →
    ∃ kus2 l,
      applyOverrides spec kus1 = Ok kus2
      ∧ Namespace kus2 = Namespace kus1
      ∧ Resources kus2 = Resources kus1
      ∧ Images kus2 = Images kus1
      ∧ Patches kus2 = Patches kus1 ++ map inlinePatch (Spec_Patches spec)
      ∧ PatchesStrategicMerge kus2
        = PatchesStrategicMerge kus1 ++ Spec_PatchesStrategicMerge spec
      ∧ PatchesJson6902 kus1 = PatchesJson6902 kus ++ l
      ∧ PatchesJson6902 kus2 = PatchesJson6902 kus1 ++ l.
Proof.
  intros spec kus kus1 H1.
  destruct (applyOverrides_Ok _ _ _ H1) as (l & Hl & ->).
  destruct (applyOverrides_Ok_2 spec
              {| APIVersion := APIVersion kus; K_Kind := K_Kind kus;
                 Namespace := (if String.eqb (TargetNamespace spec) ""
                               then Namespace kus else TargetNamespace spec);
                 Resources := Resources kus;
                 Patches := Patches kus ++ map inlinePatch (Spec_Patches spec);
                 PatchesStrategicMerge :=
                   PatchesStrategicMerge kus ++ Spec_PatchesStrategicMerge spec;
                 PatchesJson6902 := PatchesJson6902 kus ++ l;
                 Images := applyImages (Images kus) (Spec_Images spec) |}
              l Hl) as (kus2 & H2).
  exists kus2, l. split; [done|].
  destruct (applyOverrides_Ok _ _ _ H2) as (l2 & Hl2 & ->).
  assert (l2 = l) as -> by congruence.
  cbn. split_and!; try done.
  - by destruct (String.eqb (TargetNamespace spec) "").
  - apply applyImages_idempotent.
Qed.

(** X7.  With a spec that overrides nothing (no target namespace, no
    patches, no images) the five steps of [WriteFile] leave the decoded
    kustomization exactly as it was. *)
Theorem no_overrides_change_nothing `{Libraries} :
  ∀ (spec : KustomizationSpec) (kus : Kustomization),
    TargetNamespace spec = "" →
    Spec_Patches spec = [] →
    Spec_PatchesStrategicMerge spec = [] →
    Spec_PatchesJSON6902 spec = [] →
    Spec_Images spec = [] →
    applyOverrides spec kus = Ok kus.
Proof.
  intros spec kus Hns Hp Hsm Hj Hi.
  destruct (applyOverrides_Ok_2 spec kus []) as (kus' & Hk).
  { by rewrite Hj. }
  rewrite Hk. f_equal.
  destruct (applyOverrides_Ok _ _ _ Hk) as (l & Hl & ->).
  rewrite Hj in Hl. injection Hl as <-.
  rewrite Hns, Hp, Hsm, Hi. cbn. rewrite !app_nil_r. by destruct kus.
Qed.

(** ** The targets of the patches *)

(** X8.  [adaptSelector] returns nil only for nil and maps different
    selectors to different targets.  [WriteFile] hands it the address of
    a field of the spec, so every inline and every structured patch it
    appends carries a target, also when the selector of the spec is
    empty; it appends one entry per patch of the spec. *)
Theorem appended_patches_carry_a_target `{Libraries} :
  (∀ selector, adaptSelector selector = None ↔ selector = None)
  ∧ (∀ s1 s2, adaptSelector s1 = adaptSelector s2 → s1 = s2)
  ∧ ∀ (spec : KustomizationSpec) (kus kus' : Kustomization),
      applyOverrides spec kus = Ok kus' →
      ∃ ps js,
        Patches kus' = Patches kus ++ ps
        ∧ PatchesJson6902 kus' = PatchesJson6902 kus ++ js
        ∧ length ps = length (Spec_Patches spec)
        ∧ length js = length (Spec_PatchesJSON6902 spec)
        ∧ Forall (λ p, kp_Target p ≠ None) (ps ++ js).
Proof.
  split_and!.
  - intros [s|]; simpl; split; done.
  - intros [[]|] [[]|]; simpl; intros Heq; by simplify_eq.
  - intros spec kus kus' Happ.
    destruct (applyOverrides_Ok _ _ _ Happ) as (l & Hl & ->).
    apply appendJSON6902_Ok in Hl as (js & -> & Hjs).
    exists (map inlinePatch (Spec_Patches spec)), js. simpl.
    split_and!; [done|done|by rewrite length_map| |].
    + symmetry. by eapply Forall2_length.
    + apply Forall_app. split.
      * apply Forall_fmap, Forall_forall. by intros m _.
      * clear -Hjs. induction Hjs as [|m p ms js [_ Ht] _ IH]; constructor;
          [|done]. by rewrite Ht.
Qed.

(** ** The engine behind the lock *)

(** X9.  [secureBuildKustomization] makes the file system before it
    touches the mutex: when that fails it returns the error at once, the
    world untouched, whether the mutex is held or not.  The file system is
    the remote-capable one exactly when [allowRemoteBases] is set.  With
    the mutex held the call waits and the engine is not run.  With the
    mutex free, what the engine returns on the options of lines 282-286 is
    what the call returns, result and error unchanged, and the tree is as
    it was. *)
Theorem engine_result_passed_through `{Libraries} :
  ∀ (root dirPath : path) (allowRemoteBases doLegacyResourceSort : bool)
    (w : World),
    (∀ e, makeFs allowRemoteBases root w = Err e →
       secureBuildKustomization root dirPath allowRemoteBases
         doLegacyResourceSort w = (Returned None (Some e), w))
    ∧ ∀ fs, makeFs allowRemoteBases root w = Ok fs →
        fs_remote fs = allowRemoteBases
        ∧ (kustomizeBuildMutex w = true →
           secureBuildKustomization root dirPath allowRemoteBases
             doLegacyResourceSort w = (Blocked, w))
        ∧ (kustomizeBuildMutex w = false →
           ∀ m err,
             krusty_Run (buildOptions doLegacyResourceSort) fs dirPath (tree w)
               = RunReturn m err →
             ∃ w', secureBuildKustomization root dirPath allowRemoteBases
                     doLegacyResourceSort w = (Returned m err, w')
                   ∧ tree w' = tree w).
Proof.
  intros root dirPath allow legacy w. split.
  - intros e Hfs. unfold secureBuildKustomization. unfold makeFs in Hfs.
    by rewrite Hfs.
  - intros fs Hfs. split_and!.
    + unfold makeFs, MakeFsOnDiskSecureBuild, MakeFsOnDiskSecure, MakeFs in Hfs.
      destruct allow;
        destruct (EvalSymlinks (tree w) root) as [phys|]; try done;
        destruct (lookup_node (tree w) phys) as [[]|]; try done;
        by injection Hfs as <-.
    + intros Hheld. unfold secureBuildKustomization. unfold makeFs in Hfs.
      rewrite Hfs. unfold Mutex_Lock. by rewrite Hheld.
    + intros Hfree m err Hrun.
      destruct (secureBuildKustomization_cases root dirPath allow legacy w Hfree)
        as [(e & Hfs' & _)|[(fs' & m' & err' & w' & Hfs' & Hrun' & Hcall & Ht & _)
                           |(fs' & r' & w' & Hfs' & Hrun' & _)]];
        rewrite Hfs in Hfs'; [done| |].
      * injection Hfs' as <-. rewrite Hrun in Hrun'. injection Hrun' as <- <-.
        by exists w'.
      * injection Hfs' as <-. congruence.
Qed.

(** ** The order and the reach of the scan *)

Section Order.
Context `{Libraries}.
Variables (fs : fsSecure) (base : path) (t : node).

Lemma call_ok_reads_shape c :
  call_ok fs base t c →
  c_reads c = [] ∨ ∃ phys, c_reads c = [(c_path c, phys)].
Proof.
  unfold call_ok. intros Hc.
  case_bool_decide as Hb; [left; apply Hc|].
  destruct (c_dir c); [left; apply Hc|].
  destruct (negb (yaml_ext (c_path c))); [left; apply Hc|].
  destruct (isSecurePath fs t (c_path c)) as [phys|e]; [|left; apply Hc].
  right. exists phys. apply Hc.
Qed.

Lemma added_sublist (calls : list call) :
  Forall (call_ok fs base t) calls →
  concat (map c_added calls) `sublist_of` map c_path calls.
Proof.
  induction 1 as [|c calls Hc _ IH]; simpl; [constructor|].
  destruct (call_ok_added _ _ _ _ Hc) as [->|[-> _]]; simpl.
  - by apply sublist_cons.
  - by apply sublist_skip.
Qed.

Lemma reads_sublist (calls : list call) :
  Forall (call_ok fs base t) calls →
  (concat (map c_reads calls)).*1 `sublist_of` map c_path calls.
Proof.
  induction 1 as [|c calls Hc _ IH]; simpl; [constructor|].
  destruct (call_ok_reads_shape _ Hc) as [->|[phys ->]]; simpl.
  - by apply sublist_cons.
  - by apply sublist_skip.
Qed.
End Order.

Lemma visits_paths (evs : list event) (calls : list call) :
  visits evs = map (λ c, (c_path c, c_dir c)) calls →
  (visits evs).*1 = map c_path calls.
Proof. intros ->. rewrite <- list_fmap_compose. done. Qed.

(** X10.  The paths a scan returns are in the order in which the walk
    came to them, and so are the files it read; in a tree no directory of
    which lists a name twice the walk comes to no path twice, no path is
    returned twice and no file is read twice. *)
Theorem resources_follow_the_walk `{Libraries} :
  ∀ (fs : fsSecure) (base : path) (w w' : World) (files : list path)
    (err : option error),
    scan fs base w = (files, err, w') →
    ∃ evs,
      extends w w' evs
      ∧ files `sublist_of` (visits evs).*1
      ∧ (reads evs).*1 `sublist_of` (visits evs).*1
      ∧ ∀ phys n,
          lstat_path (tree w) base = Some phys →
          lookup_node (tree w) phys = Some n →
          names_distinct n = true →
          NoDup (visits evs).*1 ∧ NoDup files ∧ NoDup (reads evs).*1.
Proof.
  intros fs base w w' files err Hscan.
  apply scan_calls in Hscan
    as [(e & -> & Hne & -> & ->)
       |(phys & n & calls & Hlstat & Hn & Hacc & Hw & Hwo & Hns)].
  { exists []. split; [apply extends_refl|]. simpl.
    split_and!; [constructor..|]. intros. split_and!; constructor. }
  destruct Hacc as (evs & Hx & Hwr & Hv & Hr & Hf & Hok).
  apply visits_paths in Hv.
  assert (Hs1 : files `sublist_of` (visits evs).*1).
  { rewrite Hf, Hv. simpl. by eapply added_sublist. }
  assert (Hs2 : (reads evs).*1 `sublist_of` (visits evs).*1).
  { rewrite Hr, Hv. by eapply reads_sublist. }
  exists evs. split_and!; try done.
  intros phys' n' Hlstat' Hn' Hwf.
  rewrite Hlstat in Hlstat'. injection Hlstat' as <-.
  rewrite Hn in Hn'. injection Hn' as <-.
  destruct (Hwo Hwf) as (Hnd & _).
  rewrite <- Hv in Hnd.
  split_and!; [done|by eapply sublist_NoDup..].
Qed.

(** X11.  A scan that succeeds leaves nothing out.  In a tree no
    directory of which lists a name twice, take a node below the starting
    directory such that no directory between the two has a kustomization
    file: if it is a directory with a kustomization file it is among the
    paths returned, and if it is not a directory and has the extension
    [.yaml] or [.yml] it is among them too. *)
Theorem scan_misses_no_resource `{Libraries} :
  ∀ (fs : fsSecure) (base : path) (w w' : World) (files : list path)
    (phys : path) (n : node),
    scan fs base w = (files, None, w') →
    lstat_path (tree w) base = Some phys →
    lookup_node (tree w) phys = Some n →
    names_distinct n = true →
    ∀ rel n',
      rel ≠ [] →
      lookup_node n rel = Some n' →
      (∀ pre suf, rel = pre ++ suf → pre ≠ [] → suf ≠ [] →
         has_descriptor fs (tree w) (base ++ pre) = false) →
      if isDir n'
      then has_descriptor fs (tree w) (base ++ rel) = true → base ++ rel ∈ files
      else yaml_ext (base ++ rel) = true → base ++ rel ∈ files.
Proof.
  intros fs base w w' files phys n Hscan Hlstat Hn Hwf.
  apply scan_calls in Hscan
    as [(e & ? & _)|(phys' & n0 & calls & Hlstat' & Hn' & Hacc & Hw & Hwo & Hns)];
    [done|].
  rewrite Hlstat in Hlstat'. injection Hlstat' as <-.
  rewrite Hn in Hn'. injection Hn' as <-.
  destruct (Hwo Hwf) as (Hnd & Hdesc & Hcomp & Hloc).
  specialize (Hcomp (or_introl eq_refl)).
  destruct Hacc as (evs & Hx & Hwr & Hv & Hr & Hf & Hok).
  destruct Hw as (H0 & _ & Herr & _).
  assert (Hcall : ∀ c, c ∈ calls →
            call_ok fs base (tree w) c
            ∧ (c_err c = None ∨ c_err c = Some SkipDir)).
  { intros c Hc. split.
    - by apply (proj1 (Forall_forall _ _) Hok).
    - destruct (proj1 (Forall_forall _ _) Herr c Hc) as [?|[?|?]]; auto. }
  assert (Hvisit : ∀ rel n',
            lookup_node n rel = Some n' →
            (∀ pre suf, rel = pre ++ suf → pre ≠ [] → suf ≠ [] →
               has_descriptor fs (tree w) (base ++ pre) = false) →
            ∃ c, c ∈ calls ∧ c_path c = base ++ rel ∧ c_dir c = isDir n').
  { induction rel as [|name rel IH] using rev_ind; intros n' Hl Hopen.
    - simpl in Hl. injection Hl as <-.
      destruct H0 as (c0 & rest & -> & Hp & Hd). exists c0.
      rewrite app_nil_r. split_and!; [apply elem_of_cons; by left|done..].
    - apply lookup_node_snoc in Hl as (es & Hl & Ha).
      destruct (IH (Dir es) Hl) as (c & Hc & Hp & Hd).
      { intros pre suf -> Hpre Hsuf.
        apply (Hopen pre (suf ++ [name])); [by rewrite app_assoc|done|].
        by destruct suf. }
      destruct (Hcall c Hc) as (Hcok & Hce).
      assert (Hnone : c_err c = None).
      { unfold call_ok in Hcok. rewrite Hp, Hd in Hcok. simpl in Hcok.
        case_bool_decide as Hb; [apply Hcok|].
        destruct Hcok as (_ & Hcok).
        rewrite (Hopen rel [name]) in Hcok; [apply Hcok|done| |done].
        intros ->. by rewrite app_nil_r in Hb. }
      destruct (Hcomp rel es name n' c Hl (assoc_Some_elem_of _ _ _ Ha)
                  Hc Hp Hnone) as (c' & Hc' & Hp' & Hd').
      by exists c'. }
  intros rel n' Hrel Hl Hopen.
  destruct (Hvisit rel n' Hl Hopen) as (c & Hc & Hp & Hd).
  destruct (Hcall c Hc) as (Hcok & Hce).
  assert (Hb : base ++ rel ≠ base).
  { intros Heq. apply Hrel. apply (inj (app base)). by rewrite app_nil_r. }
  assert (Hin : c_added c = [base ++ rel] → base ++ rel ∈ files).
  { intros Ha. rewrite Hf. simpl.
    apply (elem_of_concat_2 _ (c_added c)).
    - rewrite Ha. by apply list_elem_of_singleton.
    - apply list_elem_of_fmap. by exists c. }
  unfold call_ok in Hcok. rewrite Hp, Hd in Hcok.
  rewrite bool_decide_false in Hcok by done.
  destruct (isDir n').
  - intros Hhas. rewrite Hhas in Hcok. apply Hin, Hcok.
  - intros Hy. rewrite Hy in Hcok. simpl in Hcok. apply Hin.
    destruct (isSecurePath fs (tree w) (base ++ rel)) as [ph|e] eqn:Hsec.
    + destruct Hcok as (_ & Hcok).
      destruct (lookup_node (tree w) ph) as [[data|ents|tg]|];
        try (destruct Hcok as [(op & en & He) _]; rewrite He in Hce;
             by destruct Hce).
      destruct (SliceFromBytes data); destruct Hcok as (He & Ha); [|done].
      rewrite He in Hce. by destruct Hce.
    + destruct Hcok as (He & _). rewrite He in Hce.
      destruct Hce as [?|[= ->]]; [done|].
      by apply isSecurePath_not_SkipDir in Hsec.
Qed.

(** ** What [WriteFile] leaves on disk *)

Lemma kind_at_File data q :
  kind_at (File data) q = if decide (q = []) then Some (KFile data) else None.
Proof. by destruct q. Qed.

Lemma kind_at_below_leaf t q :
  kind_at t [] ≠ Some KDir → q ≠ [] → kind_at t q = None.
Proof. destruct t, q; done. Qed.

(** Writing a file changes what is at its path and nothing else. *)
Lemma update_node_kind p : ∀ t data t',
  p ≠ [] →
  update_node t p (File data) = Some t' →
  kind_at t p ≠ Some KDir →
  ∀ q, kind_at t' q = if decide (q = p) then Some (KFile data) else kind_at t q.
Proof.
  induction p as [|c rest IH]; intros t data t' Hne Hup Hold q; [done|].
  destruct t as [|entries|]; try done. simpl in Hup.
  destruct rest as [|r rest'].
  - injection Hup as <-. destruct q as [|k q]; [done|].
    unfold kind_at. simpl. rewrite assoc_set_entry.
    destruct (String.eqb_spec c k) as [->|Hck].
    + fold (kind_at (File data) q). rewrite kind_at_File.
      destruct q as [|k' q'].
      * by rewrite !decide_True by done.
      * rewrite !decide_False by congruence.
        unfold kind_at in Hold. simpl in Hold.
        destruct (assoc k entries) as [child|]; [|done].
        fold (kind_at child (k' :: q')). symmetry.
        apply kind_at_below_leaf; [|done]. done.
    + rewrite decide_False by congruence. done.
  - destruct (assoc c entries) as [child|] eqn:Hassoc; [|done].
    destruct (update_node child (r :: rest') (File data)) as [child'|] eqn:Hch;
      [|done].
    injection Hup as <-.
    assert (Hkind : ∀ q, kind_at child' q =
              if decide (q = r :: rest') then Some (KFile data)
              else kind_at child q).
    { apply (IH child data child'); [done|done|].
      unfold kind_at in Hold |- *. simpl in Hold. by rewrite Hassoc in Hold. }
    destruct q as [|k q]; [done|].
    unfold kind_at. simpl. rewrite assoc_set_entry.
    destruct (String.eqb_spec c k) as [->|Hck].
    + rewrite Hassoc. fold (kind_at child' q). fold (kind_at child q).
      rewrite Hkind. destruct (decide (q = r :: rest')) as [->|Hq].
      * by rewrite !decide_True by done.
      * by rewrite !decide_False by congruence.
    + rewrite decide_False by congruence. done.
Qed.

Lemma kind_at_lookup_File t q data :
  kind_at t q = Some (KFile data) ↔ lookup_node t q = Some (File data).
Proof.
  unfold kind_at. destruct (lookup_node t q) as [[]|]; simpl; split;
    intros; simplify_eq; done.
Qed.

Lemma kind_at_lookup_Dir t q :
  kind_at t q = Some KDir ↔ ∃ es, lookup_node t q = Some (Dir es).
Proof.
  unfold kind_at. destruct (lookup_node t q) as [[]|]; simpl; split;
    try intros [es ?]; intros; simplify_eq; eauto.
Qed.

Lemma os_write_Ok op name data w w' :
  os_write op name data w = (None, w') →
  ∃ phys,
    EvalSymlinks (tree w) name = Some phys
    ∧ kind_at (tree w) phys ≠ Some KDir
    ∧ same_links (tree w) (tree w')
    ∧ (∀ q, kind_at (tree w') q =
            if decide (q = phys) then Some (KFile data) else kind_at (tree w) q)
    ∧ log w' = log w ++ [IO op name phys]
    ∧ kustomizeBuildMutex w' = kustomizeBuildMutex w.
Proof.
  unfold os_write.
  destruct (EvalSymlinks (tree w) name) as [phys|] eqn:Hres; [|done].
  intros Hw. exists phys.
  assert (Hnd : kind_at (tree w) phys ≠ Some KDir).
  { unfold kind_at. by destruct (lookup_node (tree w) phys) as [[]|]. }
  assert (∃ t', put_file (tree w) phys data = Some t'
                ∧ w' = set_tree t' (emit (IO op name phys) w)) as (t' & Hput & ->).
  { destruct (put_file (tree w) phys data) as [t'|];
      destruct (lookup_node (tree w) phys) as [[]|]; simplify_eq; eauto. }
  split_and!; try done.
  - simpl. apply (put_file_links _ _ _ _ Hput).
    intros n Hl. destruct n as [d0|es|tg]; [eauto| |].
    + unfold kind_at in Hnd. by rewrite Hl in Hnd.
    + destruct (EvalSymlinks_not_link _ _ _ Hres) as [->|Hlink]; [done|].
      unfold link_at in Hlink. by rewrite Hl in Hlink.
  - simpl. destruct phys as [|c rest]; [done|].
    by apply (update_node_kind (c :: rest) (tree w) data t').
Qed.

Lemma os_write_Err op name data w e w' :
  os_write op name data w = (Some e, w') →
  tree w' = tree w
  ∧ kustomizeBuildMutex w' = kustomizeBuildMutex w
  ∧ (log w' = log w ∨ ∃ phys, log w' = log w ++ [IO op name phys]).
Proof.
  unfold os_write.
  destruct (EvalSymlinks (tree w) name) as [phys|] eqn:Hres.
  2:{ intros [= _ <-]. auto. }
  intros Hw.
  assert (w' = emit (IO op name phys) w) as ->.
  { destruct (put_file (tree w) phys data) as [t'|];
      destruct (lookup_node (tree w) phys) as [[]|]; by simplify_eq. }
  simpl. eauto.
Qed.

Lemma os_ReadFile_Ok name w data w' :
  os_ReadFile name w = (Ok data, w') →
  ∃ phys, EvalSymlinks (tree w) name = Some phys
          ∧ lookup_node (tree w) phys = Some (File data)
          ∧ w' = emit (IO OpRead name phys) w.
Proof.
  unfold os_ReadFile.
  destruct (EvalSymlinks (tree w) name) as [phys|]; [|done].
  destruct (lookup_node (tree w) phys) as [[d|es|tg]|] eqn:Hl; try done.
  intros [= <- <-]. by exists phys.
Qed.

Lemma os_ReadFile_File name w phys data :
  EvalSymlinks (tree w) name = Some phys →
  lookup_node (tree w) phys = Some (File data) →
  os_ReadFile name w = (Ok data, emit (IO OpRead name phys) w).
Proof. intros Hres Hl. unfold os_ReadFile. by rewrite Hres, Hl. Qed.

Lemma MakeFs_tree remote r w w' :
  tree w' = tree w → MakeFs remote r w' = MakeFs remote r w.
Proof. intros Ht. unfold MakeFs. by rewrite Ht. Qed.

Lemma MakeFs_Ok remote r w fs :
  MakeFs remote r w = Ok fs →
  ∃ phys, EvalSymlinks (tree w) r = Some phys
          ∧ kind_at (tree w) phys = Some KDir
          ∧ fs = {| fs_root := phys; fs_remote := remote |}.
Proof.
  unfold MakeFs. destruct (EvalSymlinks (tree w) r) as [phys|]; [|done].
  unfold kind_at.
  destruct (lookup_node (tree w) phys) as [[]|] eqn:Hl; try done.
  intros [= <-]. exists phys. by rewrite Hl.
Qed.

Section Generated.
Context `{Libraries}.
Variables (fs : fsSecure) (kg : KustomizeGenerator) (dirPath : path).

Lemma scan_extends w files err w' :
  scan fs dirPath w = (files, err, w') →
  ∃ evs, extends w w' evs ∧ writes evs = [].
Proof.
  intros Hscan. apply scan_calls in Hscan
    as [(e & _ & _ & _ & ->)|(phys & n & calls & _ & _ & Hacc & _)].
  - exists []. split; [apply extends_refl|done].
  - destruct Hacc as (evs & Hx & Hw & _). eauto.
Qed.

(** A generation that succeeds: the scan, then the file created and
    written at the place [kustomization.yaml] leads to inside the root. *)
Lemma generateFromScan_Ok w w' :
  generateFromScan fs dirPath w = (None, w') →
  ∃ files w1 phys kd,
    scan fs dirPath w = (files, None, w1)
    ∧ isSecurePath fs (tree w) (Join dirPath DefaultKustomizationFileName) = Ok phys
    ∧ kind_at (tree w) phys ≠ Some KDir
    ∧ yaml_Marshal (generated dirPath files) = Ok kd
    ∧ same_links (tree w) (tree w')
    ∧ (∀ q, kind_at (tree w') q =
            if decide (q = phys) then Some (KFile kd) else kind_at (tree w) q)
    ∧ log w' = log w1 ++ [IO OpCreate (Join dirPath DefaultKustomizationFileName) phys;
                          IO OpWrite (Join dirPath DefaultKustomizationFileName) phys]
    ∧ kustomizeBuildMutex w' = kustomizeBuildMutex w.
Proof.
  unfold generateFromScan.
  destruct (scan fs dirPath w) as [[files err] w1] eqn:Hscan.
  destruct err as [e|]; [done|].
  destruct (scan_extends _ _ _ _ Hscan) as (evs & (Ht & Hm & Hlog) & _).
  unfold fs_Create. rewrite Ht.
  destruct (isSecurePath fs (tree w) (Join dirPath DefaultKustomizationFileName))
    as [phys|e] eqn:Hsec; [|done].
  destruct (os_write OpCreate _ "" w1) as [[e|] w2] eqn:Hcreate; [done|].
  fold (generated dirPath files).
  destruct (yaml_Marshal (generated dirPath files)) as [kd|e] eqn:Hkd; [|done].
  unfold os_WriteFile. intros Hwrite.
  apply os_write_Ok in Hcreate as (ph1 & Hres1 & Hnd1 & Hl1 & Hk1 & Hlog1 & Hm1).
  apply os_write_Ok in Hwrite as (ph2 & Hres2 & Hnd2 & Hl2 & Hk2 & Hlog2 & Hm2).
  apply isSecurePath_Ok in Hsec as Hsec'. destruct Hsec' as [Hres Hpre].
  rewrite Ht in Hres1. rewrite Hres in Hres1. injection Hres1 as <-.
  rewrite (EvalSymlinks_same_links _ _ _ Hl1), Ht, Hres in Hres2.
  injection Hres2 as <-.
  exists files, w1, phys, kd. rewrite Ht in *.
  split_and!; [done|done|done|done| | | |].
  - by eapply same_links_trans.
  - intros q. rewrite Hk2, Hk1. by destruct (decide (q = phys)).
  - rewrite Hlog2, Hlog1. by rewrite <- app_assoc.
  - congruence.
Qed.

(** Overrides that are written: the file read, decoded, overridden,
    serialized and written back at the same place. *)
Lemma writeOverrides_Ok w w' :
  writeOverrides kg dirPath w = (None, w') →
  ∃ phys data kus kus' kd,
    EvalSymlinks (tree w) (Join dirPath DefaultKustomizationFileName) = Some phys
    ∧ lookup_node (tree w) phys = Some (File data)
    ∧ yaml_Unmarshal data emptyKustomization = Ok kus
    ∧ applyOverrides (kustomization kg) kus = Ok kus'
    ∧ yaml_Marshal kus' = Ok kd
    ∧ same_links (tree w) (tree w')
    ∧ (∀ q, kind_at (tree w') q =
            if decide (q = phys) then Some (KFile kd) else kind_at (tree w) q)
    ∧ log w' = log w ++ [IO OpRead (Join dirPath DefaultKustomizationFileName) phys;
                         IO OpWrite (Join dirPath DefaultKustomizationFileName) phys]
    ∧ kustomizeBuildMutex w' = kustomizeBuildMutex w.
Proof.
  unfold writeOverrides.
  destruct (os_ReadFile _ w) as [[data|e] w1] eqn:Hread; [|done].
  destruct (yaml_Unmarshal data emptyKustomization) as [kus|e] eqn:Hdec; [|done].
  destruct (applyOverrides (kustomization kg) kus) as [kus'|e] eqn:Happ; [|done].
  destruct (yaml_Marshal kus') as [kd|e] eqn:Hkd; [|done].
  unfold os_WriteFile. intros Hwrite.
  apply os_ReadFile_Ok in Hread as (phys & Hres & Hl & ->).
  apply os_write_Ok in Hwrite as (ph2 & Hres2 & Hnd2 & Hl2 & Hk2 & Hlog2 & Hm2).
  simpl in *. rewrite Hres in Hres2. injection Hres2 as <-.
  exists phys, data, kus, kus', kd. split_and!; try done.
  rewrite Hlog2. by rewrite <- app_assoc.
Qed.
End Generated.

Lemma touches_only_refl name w : touches_only name w w.
Proof.
  split_and!; try done. exists []. split; [by rewrite app_nil_r|].
  intros arg phys Hin. by apply elem_of_nil in Hin.
Qed.

Lemma touches_only_trans name w1 w2 w3 :
  touches_only name w1 w2 → touches_only name w2 w3 → touches_only name w1 w3.
Proof.
  intros (Hm1 & Hl1 & Hk1 & e1 & Hlog1 & Hw1) (Hm2 & Hl2 & Hk2 & e2 & Hlog2 & Hw2).
  split_and!.
  - congruence.
  - by eapply same_links_trans.
  - intros q Hq. rewrite Hk2, Hk1; [done..|].
    by rewrite (EvalSymlinks_same_links _ _ _ Hl1).
  - exists (e1 ++ e2). split; [by rewrite Hlog2, Hlog1, app_assoc|].
    intros arg phys. rewrite writes_app, elem_of_app. intros [?|?]; eauto.
Qed.

Lemma touches_only_extends name w w' evs :
  extends w w' evs → writes evs = [] → touches_only name w w'.
Proof.
  intros (Ht & Hm & Hlog) Hw. split_and!; [done|by rewrite Ht|by rewrite Ht|].
  exists evs. split; [done|]. rewrite Hw. intros arg phys Hin.
  by apply elem_of_nil in Hin.
Qed.

Lemma touches_only_os_write op name data w :
  touches_only name w (os_write op name data w).2.
Proof.
  destruct (os_write op name data w) as [[e|] w'] eqn:Hw; simpl.
  - apply os_write_Err in Hw as (Ht & Hm & Hlog).
    split_and!; [done|by rewrite Ht|by rewrite Ht|].
    destruct Hlog as [Hlog|[phys Hlog]].
    + exists []. rewrite app_nil_r. split; [done|].
      intros arg ph Hin. by apply elem_of_nil in Hin.
    + eexists. split; [exact Hlog|]. intros arg ph Hin.
      destruct op; simpl in Hin; try (by apply elem_of_nil in Hin);
        apply list_elem_of_singleton in Hin; congruence.
  - apply os_write_Ok in Hw as (phys & Hres & Hnd & Hl & Hk & Hlog & Hm).
    split_and!; [done|done| |].
    + intros q Hq. rewrite Hk. rewrite decide_False; [done|]. congruence.
    + eexists. split; [exact Hlog|]. intros arg ph Hin.
      destruct op; simpl in Hin; try (by apply elem_of_nil in Hin);
        apply list_elem_of_singleton in Hin; congruence.
Qed.

Lemma touches_only_os_ReadFile name0 name w :
  touches_only name0 w (os_ReadFile name w).2.
Proof.
  destruct (os_ReadFile name w) as [r w1] eqn:Hr. simpl.
  destruct (os_ReadFile_world _ _ _ _ Hr) as (Ht & Hm & Hlog).
  split_and!; [done|by rewrite Ht|by rewrite Ht|].
  destruct Hlog as [Hlog|[phys Hlog]].
  - exists []. rewrite app_nil_r. split; [done|].
    intros arg ph Hin. by apply elem_of_nil in Hin.
  - eexists. split; [exact Hlog|]. intros arg ph Hin.
    by apply elem_of_nil in Hin.
Qed.

Section Touches.
Context `{Libraries}.
Variables (fs : fsSecure) (kg : KustomizeGenerator) (dirPath : path).

Lemma generateFromScan_touches w :
  touches_only (Join dirPath DefaultKustomizationFileName) w
    (generateFromScan fs dirPath w).2.
Proof.
  unfold generateFromScan.
  destruct (scan fs dirPath w) as [[files err] w1] eqn:Hscan.
  destruct (scan_extends _ _ _ _ _ _ Hscan) as (evs & Hx & Hw).
  pose proof (touches_only_extends (Join dirPath DefaultKustomizationFileName)
                _ _ _ Hx Hw) as H1.
  destruct err as [e|]; [done|].
  unfold fs_Create.
  destruct (isSecurePath fs (tree w1) _) as [phys|e]; [|done].
  pose proof (touches_only_os_write OpCreate
                (Join dirPath DefaultKustomizationFileName) "" w1) as H2.
  destruct (os_write OpCreate _ "" w1) as [[e|] w2]; simpl in H2.
  { by eapply touches_only_trans. }
  destruct (yaml_Marshal _) as [kd|e].
  2:{ by eapply touches_only_trans. }
  unfold os_WriteFile.
  eapply touches_only_trans; [|apply touches_only_os_write].
  by eapply touches_only_trans.
Qed.

Lemma writeOverrides_touches w :
  touches_only (Join dirPath DefaultKustomizationFileName) w
    (writeOverrides kg dirPath w).2.
Proof.
  unfold writeOverrides.
  pose proof (touches_only_os_ReadFile
                (Join dirPath DefaultKustomizationFileName)
                (Join dirPath DefaultKustomizationFileName) w) as H1.
  destruct (os_ReadFile _ w) as [[data|e] w1]; [|done]. simpl in H1.
  destruct (yaml_Unmarshal data emptyKustomization) as [kus|e]; [|done].
  destruct (applyOverrides (kustomization kg) kus) as [kus'|e]; [|done].
  destruct (yaml_Marshal kus') as [kd|e]; [|done].
  unfold os_WriteFile.
  eapply touches_only_trans; [exact H1|apply touches_only_os_write].
Qed.
End Touches.

(** X12.  Whatever [WriteFile] returns, it creates and writes under no
    other name than [kustomization.yaml] in the directory, it leaves the
    mutex alone, it changes no symbolic link, and every path other than
    the one [kustomization.yaml] leads to holds what it held: the same
    file content, a directory, the same link, or nothing. *)
Theorem WriteFile_touches_only_the_descriptor `{Libraries} :
  ∀ (kg : KustomizeGenerator) (dirPath : path) (w : World),
    touches_only (Join dirPath DefaultKustomizationFileName) w
      (WriteFile kg dirPath w).2.
Proof.
  intros kg dirPath w. unfold WriteFile, generateKustomization.
  destruct (MakeFsOnDiskSecure (root kg) w) as [fs|e]; [|apply touches_only_refl].
  destruct (hasKustomizationFile_spec fs dirPath
              RecognizedKustomizationFileNames w) as (w1 & evs & -> & Hx & Hq).
  assert (H1 : touches_only (Join dirPath DefaultKustomizationFileName) w w1).
  { apply (touches_only_extends _ _ _ evs); [done|apply Hq]. }
  destruct (existsb _ _).
  - eapply touches_only_trans; [exact H1|apply writeOverrides_touches].
  - pose proof (generateFromScan_touches fs dirPath w1) as H2.
    destruct (generateFromScan fs dirPath w1) as [[e|] w2]; simpl in H2.
    + by eapply touches_only_trans.
    + eapply touches_only_trans; [|apply writeOverrides_touches].
      by eapply touches_only_trans.
Qed.

Lemma has_descriptor_default fs t dir :
  is_descriptor fs t (Join dir DefaultKustomizationFileName) = true →
  has_descriptor fs t dir = true.
Proof.
  intros Hd. unfold has_descriptor, RecognizedKustomizationFileNames.
  cbn [existsb]. fold DefaultKustomizationFileName. by rewrite Hd.
Qed.

Lemma is_descriptor_File fs t kpath phys data :
  isSecurePath fs t kpath = Ok phys →
  lookup_node t phys = Some (File data) →
  is_descriptor fs t kpath = true.
Proof.
  intros Hsec Hl. apply is_descriptor_iff. by exists phys, (File data).
Qed.

Lemma isSecurePath_same_links fs t t' p :
  same_links t t' → isSecurePath fs t' p = isSecurePath fs t p.
Proof.
  intros Hl. unfold isSecurePath. by rewrite (EvalSymlinks_same_links _ _ _ Hl).
Qed.

(** After a generation the root is the directory it was. *)
Lemma MakeFs_after_write remote r w w' fs phys data :
  MakeFs remote r w = Ok fs →
  same_links (tree w) (tree w') →
  kind_at (tree w) phys ≠ Some KDir →
  (∀ q, kind_at (tree w') q =
        if decide (q = phys) then Some (KFile data) else kind_at (tree w) q) →
  MakeFs remote r w' = Ok fs.
Proof.
  intros Hfs Hl Hnd Hk.
  apply MakeFs_Ok in Hfs as (rphys & Hres & Hdir & ->).
  unfold MakeFs. rewrite (EvalSymlinks_same_links _ _ _ Hl), Hres.
  assert (Hdir' : kind_at (tree w') rphys = Some KDir).
  { rewrite Hk. rewrite decide_False; [done|]. congruence. }
  apply kind_at_lookup_Dir in Hdir' as [es ->]. done.
Qed.

(** X13.  After [generateKustomization] has returned nil the directory
    has a kustomization file: the root still makes the same file system,
    and a second call returns nil having only looked at the names, without
    walking, reading or writing. *)
Theorem generateKustomization_twice `{Libraries} :
  ∀ (kg : KustomizeGenerator) (dirPath : path) (w w' : World),
    generateKustomization kg dirPath w = (None, w') →
    ∃ fs w'' evs,
      MakeFsOnDiskSecure (root kg) w' = Ok fs
      ∧ has_descriptor fs (tree w') dirPath = true
      ∧ generateKustomization kg dirPath w' = (None, w'')
      ∧ extends w' w'' evs ∧ quiet evs.
Proof.
  intros kg dirPath w w'. unfold generateKustomization at 1.
  destruct (MakeFsOnDiskSecure (root kg) w) as [fs|e] eqn:Hfs; [|done].
  destruct (hasKustomizationFile_spec fs dirPath
              RecognizedKustomizationFileNames w) as (w1 & evs & -> & Hx & Hq).
  fold (has_descriptor fs (tree w) dirPath).
  assert (Ht1 : tree w1 = tree w) by apply Hx.
  assert (Hfs1 : MakeFsOnDiskSecure (root kg) w1 = Ok fs).
  { unfold MakeFsOnDiskSecure. by rewrite (MakeFs_tree _ _ _ _ Ht1). }
  assert (Hagain : ∀ w', MakeFsOnDiskSecure (root kg) w' = Ok fs →
            has_descriptor fs (tree w') dirPath = true →
            ∃ fs w'' evs,
              MakeFsOnDiskSecure (root kg) w' = Ok fs
              ∧ has_descriptor fs (tree w') dirPath = true
              ∧ generateKustomization kg dirPath w' = (None, w'')
              ∧ extends w' w'' evs ∧ quiet evs).
  { clear. intros w' Hfs Hhas. unfold generateKustomization. rewrite Hfs.
    destruct (hasKustomizationFile_spec fs dirPath
                RecognizedKustomizationFileNames w') as (w2 & evs & -> & Hx & Hq).
    fold (has_descriptor fs (tree w') dirPath). rewrite Hhas.
    by exists fs, w2, evs. }
  destruct (has_descriptor fs (tree w) dirPath) eqn:Hhas.
  - intros [= <-]. apply Hagain; [done|by rewrite Ht1].
  - intros Hgen.
    apply generateFromScan_Ok in Hgen
      as (files & w2 & phys & kd & _ & Hsec & Hnd & _ & Hl & Hk & _).
    apply Hagain.
    + by apply (MakeFs_after_write _ _ w1 w' fs phys kd).
    + apply has_descriptor_default.
      apply (is_descriptor_File _ _ _ phys kd).
      * by rewrite (isSecurePath_same_links _ _ _ _ Hl).
      * apply kind_at_lookup_File. rewrite Hk. by rewrite decide_True.
Qed.

(** X14.  When [WriteFile] returns nil, the file [kustomization.yaml]
    leads to holds the serialization of the kustomization decoded from
    what was there, with the overrides of the spec applied, and reading it
    returns just that.  What was there is the content of the file found,
    when the directory had a kustomization file, and otherwise the
    serialization of the generated kustomization, whose resources are the
    scanned paths made relative, written inside the root. *)
Theorem WriteFile_writes_overridden_descriptor `{Libraries} :
  ∀ (kg : KustomizeGenerator) (dirPath : path) (w w' : World),
    WriteFile kg dirPath w = (None, w') →
    let kfile := Join dirPath DefaultKustomizationFileName in
    ∃ fs phys data kus kus' kd,
      MakeFsOnDiskSecure (root kg) w = Ok fs
      ∧ (if has_descriptor fs (tree w) dirPath
         then EvalSymlinks (tree w) kfile = Some phys
              ∧ lookup_node (tree w) phys = Some (File data)
         else ∃ files w1 w2,
                tree w1 = tree w
                ∧ scan fs dirPath w1 = (files, None, w2)
                ∧ isSecurePath fs (tree w) kfile = Ok phys
                ∧ yaml_Marshal (generated dirPath files) = Ok data)
      ∧ yaml_Unmarshal data emptyKustomization = Ok kus
      ∧ applyOverrides (kustomization kg) kus = Ok kus'
      ∧ yaml_Marshal kus' = Ok kd
      ∧ EvalSymlinks (tree w') kfile = Some phys
      ∧ lookup_node (tree w') phys = Some (File kd)
      ∧ fst (os_ReadFile kfile w') = Ok kd.
Proof.
  intros kg dirPath w w' Hw kfile. revert Hw.
  unfold WriteFile, generateKustomization.
  destruct (MakeFsOnDiskSecure (root kg) w) as [fs|e] eqn:Hfs; [|done].
  destruct (hasKustomizationFile_spec fs dirPath
              RecognizedKustomizationFileNames w) as (w1 & evs & -> & Hx & Hq).
  fold (has_descriptor fs (tree w) dirPath).
  assert (Ht1 : tree w1 = tree w) by apply Hx.
  assert (Hend : ∀ w2 phys kd,
            EvalSymlinks (tree w2) kfile = Some phys →
            same_links (tree w2) (tree w') →
            (∀ q, kind_at (tree w') q =
               if decide (q = phys) then Some (KFile kd) else kind_at (tree w2) q) →
            EvalSymlinks (tree w') kfile = Some phys
            ∧ lookup_node (tree w') phys = Some (File kd)
            ∧ fst (os_ReadFile kfile w') = Ok kd).
  { intros w2 phys kd Hres Hl Hk.
    assert (Hres' : EvalSymlinks (tree w') kfile = Some phys).
    { by rewrite (EvalSymlinks_same_links _ _ _ Hl). }
    assert (Hl' : lookup_node (tree w') phys = Some (File kd)).
    { apply kind_at_lookup_File. rewrite Hk. by rewrite decide_True. }
    split_and!; [done..|]. by rewrite (os_ReadFile_File _ _ _ _ Hres' Hl'). }
  destruct (has_descriptor fs (tree w) dirPath) eqn:Hhas.
  - intros Hov.
    apply writeOverrides_Ok in Hov
      as (phys & data & kus & kus' & kd & Hres & Hl & Hdec & Happ & Hkd
          & Hlinks & Hk & _).
    exists fs, phys, data, kus, kus', kd. rewrite Ht1 in Hres, Hl.
    rewrite Hhas.
    destruct (Hend w1 phys kd) as (E1 & E2 & E3); [by rewrite Ht1|done..|].
    by split_and!.
  - destruct (generateFromScan fs dirPath w1) as [[e|] w2] eqn:Hgen; [done|].
    intros Hov.
    apply generateFromScan_Ok in Hgen
      as (files & w1' & phys & data & Hscan & Hsec & Hnd & Hdata & Hl & Hk & _).
    apply writeOverrides_Ok in Hov
      as (phys' & data' & kus & kus' & kd & Hres' & Hl' & Hdec & Happ & Hkd
          & Hlinks' & Hk' & _).
    apply isSecurePath_Ok in Hsec as Hsec'. destruct Hsec' as [Hres Hpre].
    rewrite (EvalSymlinks_same_links _ _ _ Hl), Hres in Hres'.
    injection Hres' as <-.
    apply kind_at_lookup_File in Hl'. rewrite Hk, decide_True in Hl' by done.
    injection Hl' as <-.
    exists fs, phys, data, kus, kus', kd. rewrite Ht1 in Hsec.
    rewrite Hhas.
    destruct (Hend w2 phys kd) as (E1 & E2 & E3);
      [by rewrite (EvalSymlinks_same_links _ _ _ Hl)|done..|].
    split; [done|]. split; [by exists files, w1, w1'|]. by split_and!.
Qed.

(** ** A target directory that cannot be generated into *)

Lemma lookup_node_app_None (p q : path) : ∀ t,
  lookup_node t p = None → lookup_node t (p ++ q) = None.
Proof.
  induction p as [|c p IH]; intros t; simpl; [done|].
  destruct t as [|es|]; try done.
  destruct (assoc c es) as [child|]; [apply IH|done].
Qed.

(** Resolving a path resolves each of its prefixes on the way. *)
Lemma resolve_split t : ∀ fuel seen todo more r,
  resolve fuel t seen (todo ++ more) = Some r →
  ∃ mid fuel2,
    resolve fuel t seen todo = Some mid
    ∧ (fuel2 ≤ fuel)%nat
    ∧ resolve fuel2 t mid more = Some r.
Proof.
  induction fuel as [|fuel IH]; intros seen todo more r Hres; [done|].
  destruct todo as [|c rest].
  - exists seen, (S fuel). by split_and!.
  - simpl in Hres |- *.
    destruct (lookup_node t (seen ++ [c])) as [[| |tg]|].
    + destruct (IH _ _ _ _ Hres) as (mid & f2 & ? & ? & ?).
      exists mid, f2. split_and!; [done|lia|done].
    + destruct (IH _ _ _ _ Hres) as (mid & f2 & ? & ? & ?).
      exists mid, f2. split_and!; [done|lia|done].
    + rewrite app_assoc in Hres.
      destruct (IH _ _ _ _ Hres) as (mid & f2 & ? & ? & ?).
      exists mid, f2. split_and!; [done|lia|done].
    + destruct (IH _ _ _ _ Hres) as (mid & f2 & ? & ? & ?).
      exists mid, f2. split_and!; [done|lia|done].
Qed.

(** Below a place that does not exist nothing exists, and no link is
    followed. *)
Lemma resolve_missing t : ∀ fuel seen todo r,
  lookup_node t seen = None →
  resolve fuel t seen todo = Some r →
  r = seen ++ todo.
Proof.
  induction fuel as [|fuel IH]; intros seen todo r Hmiss Hres; [done|].
  simpl in Hres. destruct todo as [|c rest].
  - injection Hres as <-. by rewrite app_nil_r.
  - rewrite (lookup_node_app_None seen [c] t Hmiss) in Hres.
    apply IH in Hres; [|by apply lookup_node_app_None].
    by rewrite Hres, <- app_assoc.
Qed.

Transparent EvalSymlinks.

Lemma EvalSymlinks_below_missing t p name rest parent r :
  EvalSymlinks t p = Some parent →
  lookup_node t (parent ++ [name]) = None →
  EvalSymlinks t (p ++ name :: rest) = Some r →
  r = parent ++ name :: rest.
Proof.
  unfold EvalSymlinks. generalize maxResolve. intros fuel Hp Hmiss Hres.
  apply resolve_split in Hres as (mid & f2 & Hmid & _ & Hres).
  rewrite Hp in Hmid. injection Hmid as <-.
  destruct f2 as [|f2]; [done|]. simpl in Hres. rewrite Hmiss in Hres.
  apply resolve_missing in Hres; [|done].
  by rewrite Hres, <- app_assoc.
Qed.

Opaque EvalSymlinks.

(** A directory that [lstat] does not find has no kustomization file. *)
Lemma missing_has_no_descriptor fs t dir lp :
  lstat_path t dir = Some lp →
  lookup_node t lp = None →
  has_descriptor fs t dir = false.
Proof.
  unfold lstat_path. intros Hlstat Hmiss.
  destruct (last dir) as [name|] eqn:Hlast.
  2:{ injection Hlstat as <-. done. }
  apply last_Some in Hlast as [init ->].
  rewrite removelast_last in Hlstat.
  destruct (EvalSymlinks t init) as [parent|] eqn:Hparent; [|done].
  injection Hlstat as <-.
  assert (Hno : ∀ k, is_descriptor fs t (Join (init ++ [name]) k) = false).
  { intros k. unfold is_descriptor, exists_in, isSecurePath, Join.
    rewrite <- app_assoc. simpl.
    destruct (EvalSymlinks t (init ++ [name; k])) as [r|] eqn:Hr; [|done].
    apply (EvalSymlinks_below_missing _ _ _ _ _ _ Hparent Hmiss) in Hr as ->.
    destruct (HasPrefix _ _); [|done].
    replace (parent ++ [name; k]) with ((parent ++ [name]) ++ [k])
      by (by rewrite <- app_assoc).
    by rewrite (lookup_node_app_None _ [k] t Hmiss). }
  unfold has_descriptor, RecognizedKustomizationFileNames. simpl.
  by rewrite !Hno.
Qed.

(** X15.  When the target directory does not exist (its path is inside
    the root and [lstat] finds nothing there), [WriteFile] returns the
    [lstat] error of the walk on that path, having walked, read and
    written nothing. *)
Theorem missing_directory_fails `{Libraries} :
  ∀ (kg : KustomizeGenerator) (dirPath : path) (w : World) (fs : fsSecure)
    (phys lp : path),
    MakeFsOnDiskSecure (root kg) w = Ok fs →
    isSecurePath fs (tree w) dirPath = Ok phys →
    lstat_path (tree w) dirPath = Some lp →
    lookup_node (tree w) lp = None →
    ∃ w' evs,
      WriteFile kg dirPath w
      = (Some (PathError "lstat" (path_string dirPath) ENOENT), w')
      ∧ extends w w' evs
      ∧ quiet evs.
Proof.
  intros kg dirPath w fs phys lp Hfs Hsec Hlstat Hmiss.
  unfold WriteFile, generateKustomization. rewrite Hfs.
  destruct (hasKustomizationFile_spec fs dirPath
              RecognizedKustomizationFileNames w) as (w1 & evs & -> & Hx & Hq).
  fold (has_descriptor fs (tree w) dirPath).
  rewrite (missing_has_no_descriptor _ _ _ _ Hlstat Hmiss).
  assert (Ht1 : tree w1 = tree w) by apply Hx.
  unfold generateFromScan, scan, fs_Walk, filepath_Walk.
  rewrite Ht1, Hsec, Hlstat, Hmiss. simpl.
  by exists w1, evs.
Qed.

(** X16.  When the file system refuses the target directory (it lies
    outside the root, or its links cannot be resolved) and none of the
    recognized names leads to a file inside the root, [WriteFile] returns
    the refusal, having walked, read and written nothing. *)
Theorem refused_directory_fails `{Libraries} :
  ∀ (kg : KustomizeGenerator) (dirPath : path) (w : World) (fs : fsSecure)
    (e : error),
    MakeFsOnDiskSecure (root kg) w = Ok fs →
    has_descriptor fs (tree w) dirPath = false →
    isSecurePath fs (tree w) dirPath = Err e →
    ∃ w' evs,
      WriteFile kg dirPath w = (Some e, w')
      ∧ extends w w' evs
      ∧ quiet evs
      ∧ (e = PathEscape (path_string dirPath) (path_string (fs_root fs))
         ∨ e = PathError "lstat" (path_string dirPath) ELOOP).
Proof.
  intros kg dirPath w fs e Hfs Hhas Hsec.
  unfold WriteFile, generateKustomization. rewrite Hfs.
  destruct (hasKustomizationFile_spec fs dirPath
              RecognizedKustomizationFileNames w) as (w1 & evs & -> & Hx & Hq).
  fold (has_descriptor fs (tree w) dirPath). rewrite Hhas.
  assert (Ht1 : tree w1 = tree w) by apply Hx.
  unfold generateFromScan, scan, fs_Walk. rewrite Ht1, Hsec.
  exists w1, evs. split_and!; [done..|].
  unfold isSecurePath in Hsec.
  destruct (EvalSymlinks (tree w) dirPath) as [phys|]; [|right; congruence].
  destruct (HasPrefix phys (fs_root fs)); [done|left; congruence].
Qed.

(** X17.  When [kustomization.yaml] in the target directory is itself
    a directory and no recognized name is a file, [WriteFile] cannot
    succeed: it returns the error of the scan, or else fails to create the
    file with [EISDIR]; the tree is as it was. *)
Theorem descriptor_directory_blocks_generation `{Libraries} :
  ∀ (kg : KustomizeGenerator) (dirPath : path) (w : World) (fs : fsSecure)
    (phys : path) (entries : list (string * node)),
    MakeFsOnDiskSecure (root kg) w = Ok fs →
    has_descriptor fs (tree w) dirPath = false →
    isSecurePath fs (tree w) (Join dirPath DefaultKustomizationFileName) = Ok phys →
    lookup_node (tree w) phys = Some (Dir entries) →
    ∃ e w',
      WriteFile kg dirPath w = (Some e, w')
      ∧ tree w' = tree w
      ∧ ((∃ files w1 w2, scan fs dirPath w1 = (files, Some e, w2))
         ∨ e = PathError "open"
                 (path_string (Join dirPath DefaultKustomizationFileName)) EISDIR).
Proof.
  intros kg dirPath w fs phys entries Hfs Hhas Hsec Hdir.
  unfold WriteFile, generateKustomization. rewrite Hfs.
  destruct (hasKustomizationFile_spec fs dirPath
              RecognizedKustomizationFileNames w) as (w1 & evs & -> & Hx & Hq).
  fold (has_descriptor fs (tree w) dirPath). rewrite Hhas.
  assert (Ht1 : tree w1 = tree w) by apply Hx.
  unfold generateFromScan.
  destruct (scan fs dirPath w1) as [[files err] w2] eqn:Hscan.
  pose proof (scan_tree fs dirPath w1) as Ht2. rewrite Hscan in Ht2.
  simpl in Ht2.
  destruct err as [e|].
  - exists e, w2. split_and!; [done|congruence|].
    left. by exists files, w1, w2.
  - unfold fs_Create. rewrite Ht2, Ht1, Hsec.
    apply isSecurePath_Ok in Hsec as [Hres _].
    unfold os_write. rewrite Ht2, Ht1, Hres, Hdir.
    eexists _, _. split_and!; [done|simpl; congruence|by right].
Qed.

(** ** The theorems at work on the test data *)

Transparent EvalSymlinks.

Lemma image_override_witness :
  let redis := {| ki_Name := "redis"; ki_NewName := ""; ki_NewTag := "6";
                  ki_Digest := "" |} in
  let images := [redis;
                 {| ki_Name := "nginx"; ki_NewName := ""; ki_NewTag := "1.0";
                    ki_Digest := "sha256:0a" |}] in
  let image := {| si_Name := "nginx"; si_NewName := "registry.local/nginx";
                  si_NewTag := "2.0"; si_Digest := "sha256:1b" |} in
  let entry := {| ki_Name := "nginx"; ki_NewName := "registry.local/nginx";
                  ki_NewTag := "2.0"; ki_Digest := "sha256:1b" |} in
  applyImage images image = [redis; entry]
  ∧ ∃ i, find_name "nginx"
           (applyImages images ([image_nginx "1.5"] ++ image :: [image_redis "7"]))
         = Some (i, entry)
       ∧ ∀ i0 old, find_name "nginx" images = Some (i0, old) → i = i0.
Proof.
  intros redis images image entry.
  pose proof (image_override_replaces_in_place_or_appends images image) as Hc.
  cbv zeta in Hc. destruct Hc as [H1 H2].
  split.
  - exact (proj1 H1).
  - apply (H2 [image_nginx "1.5"] [image_redis "7"]).
    constructor; [discriminate|constructor].
Defined.

Lemma overrides_applied_in_order_witness :
  let kg := NewGenerator ["r"] spec_bad_patch in
  let w := world_of tree_plain in
  adaptSelector
    (Some {| sel_Group := "apps"; sel_Version := "v1"; sel_Kind := "Deployment";
             sel_Namespace := "shop"; sel_Name := "web";
             sel_AnnotationSelector := "tier=front"; sel_LabelSelector := "app=web" |})
  = Some {| ks_Gvk := {| Group := "apps"; Version := "v1"; Kind := "Deployment" |};
            ks_Name := "web"; ks_Namespace := "shop";
            ks_AnnotationSelector := "tier=front"; ks_LabelSelector := "app=web" |}
  ∧ fst (@WriteFile testdata kg ["r"; "d"] w)
    = Some (LibError "json: error calling MarshalJSON for type *v1.JSON")
  ∧ tree (snd (@WriteFile testdata kg ["r"; "d"] w)) = tree_plain.
Proof.
  intros kg w.
  destruct (@overrides_applied_in_order testdata spec_bad_patch
              {| APIVersion := KustomizationVersion; K_Kind := KustomizationKind;
                 Namespace := "default"; Resources := []; Patches := [];
                 PatchesStrategicMerge := []; PatchesJson6902 := [];
                 Images := [] |}) as (Hsel & _ & H2).
  split; [apply Hsel|].
  pose (w1 := snd (@generateKustomization testdata kg ["r"; "d"] w)).
  destruct (H2 kg ["r"; "d"] w w1
              (emit (IO OpRead ["r"; "d"; "kustomization.yaml"]
                       ["r"; "d"; "kustomization.yaml"]) w1)
              "namespace: default"
              (LibError "json: error calling MarshalJSON for type *v1.JSON"))
    as (Hw & _ & _ & Ht); [vm_compute; reflexivity..|].
  rewrite Hw. split; [reflexivity|].
  apply (Ht fs_r); vm_compute; reflexivity.
Defined.


Lemma build_lock_released_witness :
  let w := world_of tree_panic in
  kustomizeBuildMutex w = false
  ∧ ∃ m err w',
      @secureBuildKustomization testdata ["r"] ["r"; "d"] false true w
        = (Returned m err, w')
      ∧ kustomizeBuildMutex w' = false
      ∧ ∃ m2 err2 w2,
          @secureBuildKustomization testdata ["r"] ["r"; "d"] false true w'
            = (Returned m2 err2, w2)
          ∧ kustomizeBuildMutex w2 = false.
Proof.
  intros w. split; [reflexivity|].
  destruct (@build_lock_released_on_every_path testdata ["r"] ["r"; "d"]
              false true w eq_refl) as (m & err & w' & Hc & Hm & _ & Hnext).
  exists m, err, w'. split_and!; [exact Hc|exact Hm|].
  apply Hnext.
Defined.

Lemma nested_descriptor_recorded_once_witness :
  let files := fst (fst (@scan testdata fs_r ["r"; "d"] (world_of tree_app))) in
  length (filter (λ q, q = ["r"; "d"; "nested"]) files) = 1
  ∧ ["r"; "d"; "sub"] ∉ files.
Proof.
  intros files.
  pose (w := world_of tree_app).
  pose (s := @scan testdata fs_r ["r"; "d"] w).
  destruct (@nested_descriptor_recorded_once testdata fs_r ["r"; "d"] w (snd s)
              (fst (fst s)) (snd (fst s)) ["r"; "d"]
              (Dir [("a.yaml", File "apiVersion: v1");
                    ("nested", Dir [("bad.yaml", File "oops");
                                    ("kustomization.yaml", File "- x.yaml")]);
                    ("notes.txt", File "hello");
                    ("sub", Dir [("b.yml", File "apiVersion: v1");
                                 ("kustomization.yaml", Dir [])])]))
    as (evs & (_ & _ & Hlog) & Hd); [vm_compute; reflexivity..|].
  change (log w ++ evs) with evs in Hlog. rewrite <- Hlog in Hd. clear Hlog.
  split.
  - assert (Hn := Hd ["r"; "d"; "nested"]).
    replace (has_descriptor fs_r (tree w) ["r"; "d"; "nested"]) with true in Hn
      by (vm_compute; reflexivity).
    apply Hn; [|discriminate].
    apply list_elem_of_In. vm_compute. do 2 right. left. reflexivity.
  - assert (Hn := Hd ["r"; "d"; "sub"]).
    replace (has_descriptor fs_r (tree w) ["r"; "d"; "sub"]) with false in Hn
      by (vm_compute; reflexivity).
    apply Hn; [|discriminate].
    apply list_elem_of_In. vm_compute. do 4 right. left. reflexivity.
Defined.

Lemma malformed_file_fails_generation_witness :
  let kg := NewGenerator ["r"] spec_prod in
  let w := world_of tree_bad_below in
  (∃ e0, snd (fst (@scan testdata fs_r ["r"; "d"]
                     (snd (hasKustomizationFile fs_r ["r"; "d"]
                             RecognizedKustomizationFileNames w)))) = Some e0)
  ∧ fst (@generateKustomization testdata kg ["r"; "d"] w)
    = Some (DecodeError "/r/d/sub/bad.yaml" (LibError "missing Resource metadata"))
  ∧ tree (snd (@generateKustomization testdata kg ["r"; "d"] w)) = tree_bad_below.
Proof.
  intros kg w.
  pose (w1 := snd (hasKustomizationFile fs_r ["r"; "d"]
                     RecognizedKustomizationFileNames w)).
  pose (s := @scan testdata fs_r ["r"; "d"] w1).
  destruct (@malformed_file_fails_generation testdata kg ["r"; "d"] w w1 (snd s)
              fs_r (fst (fst s)) (snd (fst s)))
    as (evs & _ & _ & _ & _ & _ & Hfail & Hmust); [vm_compute; reflexivity..|].
  split.
  - destruct (Hmust ["r"; "d"]
                (Dir [("a.yaml", File "apiVersion: v1");
                      ("sub", Dir [("bad.yaml", File "oops")])])
                ["sub"; "bad.yaml"] (File "oops")
                ["r"; "d"; "sub"; "bad.yaml"] "oops"
                (LibError "missing Resource metadata"))
      as (e0 & He0 & _);
      [vm_compute; reflexivity
      |vm_compute; reflexivity
      |vm_compute; reflexivity
      |discriminate
      |vm_compute; reflexivity
      |reflexivity
      |
      |vm_compute; reflexivity
      |vm_compute; reflexivity
      |vm_compute; reflexivity
      |vm_compute; reflexivity
      |by exists e0].
    intros pre suf Heq Hpre Hsuf.
    destruct pre as [|a [|b pre]]; [done| |].
    + injection Heq as <- _. vm_compute; reflexivity.
    + injection Heq as _ _ Heq. symmetry in Heq.
      apply app_eq_nil in Heq as [_ ->]. done.
  - destruct (Hfail (DecodeError "/r/d/sub/bad.yaml"
                       (LibError "missing Resource metadata")))
      as (Hg & _ & Ht & _); [vm_compute; reflexivity|].
    rewrite Hg. split; [reflexivity|exact Ht].
Defined.

Lemma directory_named_like_descriptor_witness :
  let kg := NewGenerator ["r"] spec_prod in
  let w := world_of tree_app in
  lookup_node tree_app ["r"; "d"; "sub"; "kustomization.yaml"] = Some (Dir [])
  ∧ has_descriptor fs_r tree_app ["r"; "d"; "sub"] = false
  ∧ ∃ w1, @generateKustomization testdata kg ["r"; "d"; "sub"] w
          = @generateFromScan testdata fs_r ["r"; "d"; "sub"] w1.
Proof.
  intros kg w.
  destruct (@directory_named_like_descriptor_does_not_count testdata kg
              ["r"; "d"; "sub"] w fs_r)
    as (_ & _ & (w1 & evs & _ & _ & Hg) & _); [reflexivity|].
  split_and!; [reflexivity..|].
  exists w1. rewrite Hg. reflexivity.
Defined.

Lemma scanned_resources_are_relative_witness :
  relativeResources ["r"; "d"]
    (fst (fst (@scan testdata fs_r ["r"; "d"] (world_of tree_app))))
  = ["./a.yaml"; "./nested"; "./sub/b.yml"]
  ∧ Forall (λ r, String.prefix "/" r = false)
      (relativeResources ["r"; "d"]
         (fst (fst (@scan testdata fs_r ["r"; "d"] (world_of tree_app))))).
Proof.
  split; [vm_compute; reflexivity|].
  pose (s := @scan testdata fs_r ["r"; "d"] (world_of tree_app)).
  destruct (@scanned_resources_are_relative testdata fs_r ["r"; "d"]
              (world_of tree_app) (snd s) (fst (fst s)) (snd (fst s)))
    as [Hr _]; [vm_compute; reflexivity|exact Hr].
Defined.

Lemma WriteFile_stays_inside_root_witness :
  let kg := NewGenerator ["r"] spec_prod in
  let w := world_of tree_app in
  has_descriptor fs_r (tree w) ["r"; "d"] = false
  ∧ fst (@WriteFile testdata kg ["r"; "d"] w) = None
  ∧ confined fs_r w (snd (@WriteFile testdata kg ["r"; "d"] w)).
Proof.
  intros kg w. split_and!; [vm_compute; reflexivity..|].
  apply (@WriteFile_stays_inside_root testdata kg ["r"; "d"] w fs_r).
  - vm_compute; reflexivity.
  - intros Hd. exfalso. revert Hd. vm_compute. discriminate.
Defined.

Lemma overrides_applied_twice_witness :
  ∃ kus1 kus2,
    @applyOverrides testdata spec_all emptyKustomization = Ok kus1
    ∧ @applyOverrides testdata spec_all kus1 = Ok kus2
    ∧ Images kus2 = Images kus1
    ∧ Patches kus2 = Patches kus1 ++ map inlinePatch (Spec_Patches spec_all).
Proof.
  pose (kus1 := match @applyOverrides testdata spec_all emptyKustomization with
                | Ok kus => kus
                | Err _ => emptyKustomization
                end).
  destruct (@overrides_applied_twice testdata spec_all emptyKustomization kus1)
    as (kus2 & l & H2 & _ & _ & Hi & Hp & _); [vm_compute; reflexivity|].
  exists kus1, kus2. split_and!; [vm_compute; reflexivity|exact H2|exact Hi|exact Hp].
Defined.

Lemma no_overrides_change_nothing_witness :
  @applyOverrides testdata spec_none
    {| APIVersion := KustomizationVersion; K_Kind := KustomizationKind;
       Namespace := "default"; Resources := ["./a.yaml"]; Patches := [];
       PatchesStrategicMerge := []; PatchesJson6902 := [];
       Images := [newImage (image_nginx "1.0")] |}
  = Ok {| APIVersion := KustomizationVersion; K_Kind := KustomizationKind;
          Namespace := "default"; Resources := ["./a.yaml"]; Patches := [];
          PatchesStrategicMerge := []; PatchesJson6902 := [];
          Images := [newImage (image_nginx "1.0")] |}.
Proof.
  apply (@no_overrides_change_nothing testdata spec_none); reflexivity.
Defined.

Lemma engine_result_passed_through_witness :
  fst (@secureBuildKustomization testdata ["r"] ["r"; "d"] false true
         (world_of tree_plain)) = Returned (Some []) None.
Proof.
  destruct (@engine_result_passed_through testdata ["r"] ["r"; "d"] false true
              (world_of tree_plain)) as [_ Hfs].
  destruct (Hfs fs_r) as (_ & _ & Hrun); [vm_compute; reflexivity|].
  destruct (Hrun eq_refl (Some []) None) as (w' & Hcall & _);
    [vm_compute; reflexivity|].
  rewrite Hcall. reflexivity.
Defined.

Lemma resources_follow_the_walk_witness :
  let s := @scan testdata fs_r ["r"; "d"] (world_of tree_app) in
  fst (fst s) = [["r"; "d"; "a.yaml"]; ["r"; "d"; "nested"]; ["r"; "d"; "sub"; "b.yml"]]
  ∧ fst (fst s) `sublist_of` (visits (log (snd s))).*1
  ∧ NoDup (fst (fst s)).
Proof.
  intros s. split; [vm_compute; reflexivity|].
  pose (w := world_of tree_app).
  destruct (@resources_follow_the_walk testdata fs_r ["r"; "d"] w (snd s)
              (fst (fst s)) (snd (fst s)))
    as (evs & (_ & _ & Hlog) & Hsub & _ & Hnd); [vm_compute; reflexivity|].
  change (log w ++ evs) with evs in Hlog. rewrite <- Hlog in Hsub.
  split; [exact Hsub|].
  apply (Hnd ["r"; "d"]
           (Dir [("a.yaml", File "apiVersion: v1");
                 ("nested", Dir [("bad.yaml", File "oops");
                                 ("kustomization.yaml", File "- x.yaml")]);
                 ("notes.txt", File "hello");
                 ("sub", Dir [("b.yml", File "apiVersion: v1");
                              ("kustomization.yaml", Dir [])])]));
    vm_compute; reflexivity.
Defined.

Lemma scan_misses_no_resource_witness :
  ["r"; "d"; "sub"; "b.yml"]
    ∈ fst (fst (@scan testdata fs_r ["r"; "d"] (world_of tree_app))).
Proof.
  pose (w := world_of tree_app).
  pose (s := @scan testdata fs_r ["r"; "d"] w).
  apply (@scan_misses_no_resource testdata fs_r ["r"; "d"] w (snd s)
           (fst (fst s)) ["r"; "d"]
           (Dir [("a.yaml", File "apiVersion: v1");
                 ("nested", Dir [("bad.yaml", File "oops");
                                 ("kustomization.yaml", File "- x.yaml")]);
                 ("notes.txt", File "hello");
                 ("sub", Dir [("b.yml", File "apiVersion: v1");
                              ("kustomization.yaml", Dir [])])])
           ltac:(vm_compute; reflexivity) ltac:(vm_compute; reflexivity)
           ltac:(vm_compute; reflexivity) ltac:(vm_compute; reflexivity)
           ["sub"; "b.yml"] (File "apiVersion: v1")).
  - discriminate.
  - vm_compute; reflexivity.
  - intros pre suf Heq Hpre Hsuf.
    destruct pre as [|a [|b pre]]; [done| |].
    + injection Heq as <- _. vm_compute; reflexivity.
    + injection Heq as _ _ Heq. symmetry in Heq.
      apply app_eq_nil in Heq as [_ ->]. done.
  - vm_compute; reflexivity.
Defined.

Lemma generateKustomization_twice_witness :
  let kg := NewGenerator ["r"] spec_prod in
  let w' := snd (@generateKustomization testdata kg ["r"; "d"] (world_of tree_app)) in
  lookup_node (tree w') ["r"; "d"; "kustomization.yaml"]
  = Some (File ("namespace: " +:+ newline +:+ "- ./a.yaml" +:+ newline
                +:+ "- ./nested" +:+ newline +:+ "- ./sub/b.yml" +:+ newline))
  ∧ ∃ fs w'' evs,
      MakeFsOnDiskSecure ["r"] w' = Ok fs
      ∧ has_descriptor fs (tree w') ["r"; "d"] = true
      ∧ @generateKustomization testdata kg ["r"; "d"] w' = (None, w'')
      ∧ extends w' w'' evs ∧ quiet evs.
Proof.
  intros kg w'. split; [vm_compute; reflexivity|].
  apply (@generateKustomization_twice testdata kg ["r"; "d"] (world_of tree_app) w').
  vm_compute; reflexivity.
Defined.

Lemma WriteFile_writes_overridden_descriptor_witness :
  let kg := NewGenerator ["r"] spec_prod in
  let w' := snd (@WriteFile testdata kg ["r"; "d"] (world_of tree_app)) in
  ∃ kus kus' kd,
    @applyOverrides testdata spec_prod kus = Ok kus'
    ∧ Namespace kus' = "prod"
    ∧ testdata_Marshal kus' = Ok kd
    ∧ fst (os_ReadFile ["r"; "d"; "kustomization.yaml"] w') = Ok kd.
Proof.
  intros kg w'.
  destruct (@WriteFile_writes_overridden_descriptor testdata kg ["r"; "d"]
              (world_of tree_app) w')
    as (fs & phys & data & kus & kus' & kd & _ & _ & _ & Happ & Hkd & _ & _ & Hread);
    [vm_compute; reflexivity|].
  exists kus, kus', kd. split_and!; [exact Happ| |exact Hkd|exact Hread].
  destruct (@applyOverrides_Ok testdata _ _ _ Happ) as (l & _ & ->). reflexivity.
Defined.

Lemma missing_directory_fails_witness :
  let kg := NewGenerator ["r"] spec_prod in
  ∃ w' evs,
    @WriteFile testdata kg ["r"; "missing"] (world_of tree_app)
    = (Some (PathError "lstat" "/r/missing" ENOENT), w')
    ∧ extends (world_of tree_app) w' evs
    ∧ quiet evs.
Proof.
  intros kg.
  apply (@missing_directory_fails testdata kg ["r"; "missing"] (world_of tree_app)
           fs_r ["r"; "missing"] ["r"; "missing"]); vm_compute; reflexivity.
Defined.

Lemma descriptor_directory_blocks_generation_witness :
  let kg := NewGenerator ["r"] spec_prod in
  ∃ e w',
    @WriteFile testdata kg ["r"; "d"] (world_of tree_dirname) = (Some e, w')
    ∧ tree w' = tree_dirname
    ∧ ((∃ files w1 w2, @scan testdata fs_r ["r"; "d"] w1 = (files, Some e, w2))
       ∨ e = PathError "open" "/r/d/kustomization.yaml" EISDIR).
Proof.
  intros kg.
  apply (@descriptor_directory_blocks_generation testdata kg ["r"; "d"]
           (world_of tree_dirname) fs_r ["r"; "d"; "kustomization.yaml"] []);
    vm_compute; reflexivity.
Defined.

Lemma appended_patches_carry_a_target_witness :
  ∃ kus' p,
    @applyOverrides testdata spec_all emptyKustomization = Ok kus'
    ∧ Patches kus' = [p]
    ∧ kp_Target p = adaptSelector (Some no_selector)
    ∧ kp_Target p ≠ None.
Proof.
  pose (kus' := match @applyOverrides testdata spec_all emptyKustomization with
                | Ok kus => kus
                | Err _ => emptyKustomization
                end).
  exists kus', (inlinePatch {| sp_Patch := "kind: Deployment";
                               sp_Target := no_selector |}).
  split_and!; [vm_compute; reflexivity..|].
  destruct (@appended_patches_carry_a_target testdata) as (_ & _ & Happ).
  destruct (Happ spec_all emptyKustomization kus')
    as (ps & js & Hps & _ & _ & _ & Hall); [vm_compute; reflexivity|].
  assert (ps = [inlinePatch {| sp_Patch := "kind: Deployment";
                               sp_Target := no_selector |}]) as ->.
  { symmetry. exact Hps. }
  by apply Forall_inv in Hall.
Defined.

Lemma image_overrides_keep_names_witness :
  let images := [newImage (image_redis "6"); newImage (image_nginx "1.0")] in
  let overrides :=
    [image_nginx "2.0";
     {| si_Name := "busybox"; si_NewName := ""; si_NewTag := "1"; si_Digest := "" |};
     image_nginx "2.1"] in
  image_names (applyImages images overrides) = ["redis"; "nginx"; "busybox"]
  ∧ NoDup (image_names (applyImages images overrides)).
Proof.
  intros images overrides. split; [vm_compute; reflexivity|].
  destruct (image_overrides_keep_names images overrides) as (_ & _ & Hnd & _).
  apply Hnd. apply (bool_decide_unpack _). vm_compute. exact I.
Defined.

Lemma image_overrides_idempotent_witness :
  let kus := applyImageOverrides spec_all emptyKustomization in
  Images kus = [newImage (image_nginx "2.0"); newImage (image_redis "7")]
  ∧ applyImageOverrides spec_all kus = kus.
Proof.
  intros kus. split; [vm_compute; reflexivity|].
  destruct (image_overrides_idempotent [] (Spec_Images spec_all)) as [_ Hk].
  apply (Hk spec_all emptyKustomization). reflexivity.
Defined.

Lemma refused_directory_fails_witness :
  let kg := NewGenerator ["r"] spec_prod in
  ∃ w' evs,
    @WriteFile testdata kg ["o"] (world_of tree_linked)
    = (Some (PathEscape "/o" "/r"), w')
    ∧ extends (world_of tree_linked) w' evs
    ∧ quiet evs.
Proof.
  intros kg.
  destruct (@refused_directory_fails testdata kg ["o"] (world_of tree_linked)
              fs_r (PathEscape "/o" "/r"))
    as (w' & evs & Hw & Hx & Hq & _); [vm_compute; reflexivity..|].
  by exists w', evs.
Defined.
